(** * Linear CorEx (linear_corex.py): a shallow embedding and its properties

    The class [Corex] of [src/linear_corex.py] is embedded as a record of its
    attributes and one state-passing function per method.

    Conventions of the embedding.
    - A numpy float is a real number of the Standard Library ([R]): the
      arithmetic is exact, rounding, infinities and NaN are not represented.
      [np.log] is [ln], [np.sqrt] is [sqrt], [scipy.special.expit] is
      [1 / (1 + exp (- t))].
    - Division and logarithm are total on [R] ([x / 0 = 0], [ln x = 0] for
      [x <= 0]), where numpy returns [inf], [-inf] or [nan].  The code
      divides by the square root of the variance of a column ([fit]), by
      [var_i Y_j^2 - C_ij^2] and by the conditional variance
      ([_update_ws]), by [a_i] (the multiplier update), and by the square
      roots of eigenvalues ([_sym_decorrelation]).  Statements about the
      values computed there carry the hypotheses that keep these
      denominators away from zero ([positive_variance],
      [positive_spectrum], [ratios_defined], [a_i] and [b_i] not zero), or
      relate the results of a run to each other without giving their
      value.  Bounds are stated without strictness where the exact value
      can come arbitrarily close to the bound.
    - A 1-d array is a [list R], a 2-d array a list of rows.  Where numpy reads
      a column count from [shape], the embedding takes it from the attribute
      that holds it ([self.nv], [self.m]), or from the first row: an array
      without rows has no column count here, and the statements about
      [transform] and [_calculate_moments] take at least one row.
    - The moments dictionary is either [{}] or the six-key dictionary built by
      [_calculate_moments]; it is an [option] of a record with one field per
      key, and a missing key is [KeyError].
    - A Python exception is the [Raise] case of [result].
    - The results of [np.random.randn] and [np.linalg.eigh] enter [fit] as the
      arguments [rnd] and [eig]; [scipy.stats.norm.ppf] is the section
      variable [norm_ppf].
    - Shape errors that numpy raises on mismatched operands are not
      represented; the properties are stated for arrays of matching shapes.
    - Arrays are values, except in [transform_store], where the caller's
      array and the model's weights are objects in a store, so that the
      in-place subtraction of [transform] and the aliasing of
      [np.array(x, copy=False)] are visible.

    Main results.
    - [gauss_sound], [gauss_complete]: the linear solve returns a solution,
      and fails only on a singular system.
    - [calculate_moments_bundle] (C2), [latent_cov_symmetric_psd] (C8): the
      bundle of the moment estimator, returned exactly when the linear
      solve succeeds; the latent covariance is symmetric and positive
      semidefinite, the Gram matrix of the latent values plus the noise
      term.
    - [update_ws_formula] (C1), [lam_unit_interval] (C7): the weight update
      and the multipliers, entry by entry.
    - [fit_iteration_budget] (C6): the loop of [fit], its exits, the
      reordering and the refreshed moments.
    - [transform_twice] (C9), [predict_formula] (C10): the post-fit maps;
      [transform] on the store, with and without a copy.
    - [fit_returns_ascending_tcs] (C3), [transform_details_keeps_fit_variance]
      (C4), [transform_gaussianizes_new_data_alone] (C5): runs on which the
      code departs from its own comments.

    Further properties (X1 to X26), in the last part of the file.
    - [gaussianize]: column-wise, rank based, quantiles strictly inside
      (0,1), order preserving.
    - [transform]: its failures, its entries, batches; [fit_transform] with
      and without [copy]; [predict] against the training data.
    - [_calculate_moments]: what the second moments, the conditional
      variances and the mutual informations measure, and their ranges.
    - [fit]: the initial weights, the order of the returned factors, the
      last entry of the trace, the variance entry across fits, a zero
      iteration budget, another number of variables.
    - [_sym_decorrelation]: orthonormal rows. *)

From Stdlib Require Import Reals Lra Lia List Bool Arith Permutation Sorted.
Import ListNotations.
Open Scope R_scope.

(** ** Exceptions *)

Inductive exn : Set :=
| KeyError | ValueError | TypeError | AssertionError
| LinAlgError | IndexError | UnboundLocalError.

Inductive result (A : Type) : Type :=
| Ok (a : A)
| Raise (e : exn).
Arguments Ok {A} a.
Arguments Raise {A} e.

Definition bind {A B : Type} (r : result A) (k : A -> result B) : result B :=
  match r with
  | Ok a => k a
  | Raise e => Raise e
  end.

Notation "x <- r ;; k" := (bind r (fun x => k))
  (at level 61, r at next level, right associativity).

(** ** Arrays *)

Abbreviation vector := (list R) (only parsing).
Abbreviation matrix := (list (list R)) (only parsing).

(** [A[i][j]], with the default 0 outside the array. *)
Definition at2 (A : matrix) (i j : nat) : R := nth j (nth i A []) 0.
Definition at1 (v : vector) (i : nat) : R := nth i v 0.

(** [np.sum] of a 1-d array. *)
Definition rsum (v : vector) : R := fold_right Rplus 0 v.

(** The sum of [f k] for [k] in [range(n)]. *)
Definition sum_n (n : nat) (f : nat -> R) : R := rsum (map f (seq 0 n)).

Definition map2 {A B C : Type} (f : A -> B -> C) (l1 : list A) (l2 : list B) : list C :=
  map (fun p => f (fst p) (snd p)) (combine l1 l2).

Definition vdot (u v : vector) : R := rsum (map2 Rmult u v).
Definition vsub (u v : vector) : vector := map2 Rminus u v.
Definition vscale (a : R) (v : vector) : vector := map (Rmult a) v.

(** Column [j] of a 2-d array, and [A.T] for an array with [c] columns. *)
Definition col (j : nat) (A : matrix) : vector := map (fun r => nth j r 0) A.
Definition transpose (c : nat) (A : matrix) : matrix :=
  map (fun j => col j A) (seq 0 c).

(** [A.dot(B)] where [B] has [c] columns. *)
Definition dot (A B : matrix) (c : nat) : matrix :=
  map (fun a => map (fun j => vdot a (col j B)) (seq 0 c)) A.

(** Elementwise operations, and the three broadcasts the source uses:
    a scalar against a matrix, a 1-d array along the rows of a matrix, and a
    1-d array against a column ([v[:, np.newaxis]]). *)
Definition mmap (f : R -> R) (A : matrix) : matrix := map (map f) A.
Definition mmap2 (f : R -> R -> R) (A B : matrix) : matrix := map2 (map2 f) A B.
Definition mat_row (f : R -> R -> R) (A : matrix) (v : vector) : matrix :=
  map (fun r => map2 f r v) A.
Definition row_col (f : R -> R -> R) (row colv : vector) : matrix :=
  map (fun c => map (fun r => f r c) row) colv.

(** [np.eye(k)], [np.diag] of a square array, [np.fill_diagonal(A, 0)]. *)
Definition eye (k : nat) : matrix :=
  map (fun i => map (fun j => if Nat.eqb i j then 1 else 0) (seq 0 k)) (seq 0 k).
Definition diag (A : matrix) : vector :=
  map (fun i => at2 A i i) (seq 0 (length A)).
Fixpoint zero_at (i : nat) (r : vector) : vector :=
  match r, i with
  | [], _ => []
  | _ :: r', O => 0 :: r'
  | a :: r', S i' => a :: zero_at i' r'
  end.
Definition fill_diagonal_0 (A : matrix) : matrix :=
  map (fun p => zero_at (fst p) (snd p)) (combine (seq 0 (length A)) A).

(** [np.sum(A, axis=1)] and [np.sum(A, axis=0)] for [A] with [c] columns. *)
Definition sum_axis1 (A : matrix) : vector := map rsum A.
Definition sum_axis0 (c : nat) (A : matrix) : vector :=
  map (fun j => rsum (col j A)) (seq 0 c).

(** The einsum contractions of the source. *)
Definition einsum_li_li_i (c : nat) (A B : matrix) : vector :=
  map (fun i => vdot (col i A) (col i B)) (seq 0 c).
Definition einsum_ij_ij_i (A B : matrix) : vector := map2 vdot A B.
Definition einsum_ji_ij_i (c : nat) (A B : matrix) : vector :=
  map (fun i => vdot (col i A) (nth i B [])) (seq 0 c).
Definition einsum_ir_i_is_i_rs (k : nat) (A : matrix) (a : vector) (B : matrix) (b : vector) : matrix :=
  map (fun r => map (fun s =>
    rsum (map2 Rmult (map2 Rmult (map2 Rmult (col r A) a) (col s B)) b))
    (seq 0 k)) (seq 0 k).

(** [x.shape[1]]; an array without rows carries no column count here. *)
Definition ncols (x : matrix) : nat :=
  match x with
  | [] => O
  | r :: _ => length r
  end.

(** ** [np.linalg.solve]

    The solution of [a x = b] by elimination, [LinAlgError] when [a] is
    singular.  Each row of the system pairs the coefficients of one equation
    with its right-hand side. *)

Abbreviation eqn := (list R * list R)%type (only parsing).

Fixpoint find_pivot (rows : list eqn) : option (eqn * list eqn) :=
  match rows with
  | [] => None
  | r :: rest =>
      if Req_dec_T (hd 0 (fst r)) 0
      then match find_pivot rest with
           | Some (p, others) => Some (p, r :: others)
           | None => None
           end
      else Some (r, rest)
  end.

(** Subtract from [b] the combination [sum_j a[j] * Z[j]] of the rows of [Z]. *)
Fixpoint sub_combo (b a : vector) (Z : matrix) : vector :=
  match a, Z with
  | aj :: a', zj :: Z' => sub_combo (vsub b (vscale aj zj)) a' Z'
  | _, _ => b
  end.

Definition eliminate (p : eqn) (r : eqn) : eqn :=
  let f := hd 0 (fst r) / hd 0 (fst p) in
  (vsub (tl (fst r)) (vscale f (tl (fst p))), vsub (snd r) (vscale f (snd p))).

Fixpoint gauss (k : nat) (rows : list eqn) : option matrix :=
  match k with
  | O => Some []
  | S k' =>
      match find_pivot rows with
      | None => None
      | Some (p, others) =>
          match gauss k' (map (eliminate p) others) with
          | None => None
          | Some Z' =>
              Some (vscale (/ hd 0 (fst p)) (sub_combo (snd p) (tl (fst p)) Z') :: Z')
          end
      end
  end.

Definition solve (a b : matrix) : result matrix :=
  match gauss (length a) (combine a b) with
  | Some Z => Ok Z
  | None => Raise LinAlgError
  end.

(** ** The model state *)

(** [self.moments]: one field per key of the dictionary
    ("X_i^2", "X_i Y_j", "cy", "X_i Z_j", "X_i^2 | Y", "Y_j^2"). *)
Record Moments : Type := {
  X_i2 : vector;
  X_i_Y_j : matrix;
  cy : matrix;
  X_i_Z_j : matrix;
  X_i2_given_Y : vector;
  Y_j2 : vector
}.

(** [self.lam] is the scalar [lam_init] until [fit] broadcasts it. *)
Inductive lam_t : Type :=
| LamScalar (r : R)
| LamArray (v : vector).

Record Corex : Type := {
  m : nat;
  max_iter : nat;
  noise : R;
  tol : R;
  gaussianize_marginals : bool;
  verbose : bool;
  copy : bool;
  nv : nat;
  ws : matrix;
  additive : bool;
  lam : lam_t;
  moments : option Moments;
  mean_x : option vector;
  tc_history : list R;
  n_samples : option nat;
  n_loops : option nat
}.

Definition set_ws (st : Corex) (w : matrix) : Corex :=
  {| m := m st; max_iter := max_iter st; noise := noise st; tol := tol st;
     gaussianize_marginals := gaussianize_marginals st; verbose := verbose st;
     copy := copy st; nv := nv st; ws := w; additive := additive st;
     lam := lam st; moments := moments st; mean_x := mean_x st;
     tc_history := tc_history st; n_samples := n_samples st; n_loops := n_loops st |}.

Definition set_lam (st : Corex) (l : lam_t) : Corex :=
  {| m := m st; max_iter := max_iter st; noise := noise st; tol := tol st;
     gaussianize_marginals := gaussianize_marginals st; verbose := verbose st;
     copy := copy st; nv := nv st; ws := ws st; additive := additive st;
     lam := l; moments := moments st; mean_x := mean_x st;
     tc_history := tc_history st; n_samples := n_samples st; n_loops := n_loops st |}.

Definition set_moments (st : Corex) (mo : Moments) : Corex :=
  {| m := m st; max_iter := max_iter st; noise := noise st; tol := tol st;
     gaussianize_marginals := gaussianize_marginals st; verbose := verbose st;
     copy := copy st; nv := nv st; ws := ws st; additive := additive st;
     lam := lam st; moments := Some mo; mean_x := mean_x st;
     tc_history := tc_history st; n_samples := n_samples st; n_loops := n_loops st |}.

Definition set_mean_x (st : Corex) (mu : vector) : Corex :=
  {| m := m st; max_iter := max_iter st; noise := noise st; tol := tol st;
     gaussianize_marginals := gaussianize_marginals st; verbose := verbose st;
     copy := copy st; nv := nv st; ws := ws st; additive := additive st;
     lam := lam st; moments := moments st; mean_x := Some mu;
     tc_history := tc_history st; n_samples := n_samples st; n_loops := n_loops st |}.

Definition set_tc_history (st : Corex) (h : list R) : Corex :=
  {| m := m st; max_iter := max_iter st; noise := noise st; tol := tol st;
     gaussianize_marginals := gaussianize_marginals st; verbose := verbose st;
     copy := copy st; nv := nv st; ws := ws st; additive := additive st;
     lam := lam st; moments := moments st; mean_x := mean_x st;
     tc_history := h; n_samples := n_samples st; n_loops := n_loops st |}.

Definition set_shape (st : Corex) (n d : nat) : Corex :=
  {| m := m st; max_iter := max_iter st; noise := noise st; tol := tol st;
     gaussianize_marginals := gaussianize_marginals st; verbose := verbose st;
     copy := copy st; nv := d; ws := ws st; additive := additive st;
     lam := lam st; moments := moments st; mean_x := mean_x st;
     tc_history := tc_history st; n_samples := Some n; n_loops := n_loops st |}.

Definition set_n_loops (st : Corex) (i : nat) : Corex :=
  {| m := m st; max_iter := max_iter st; noise := noise st; tol := tol st;
     gaussianize_marginals := gaussianize_marginals st; verbose := verbose st;
     copy := copy st; nv := nv st; ws := ws st; additive := additive st;
     lam := lam st; moments := moments st; mean_x := mean_x st;
     tc_history := tc_history st; n_samples := n_samples st; n_loops := Some i |}.

(** [Corex.__init__]; the seed only reaches [np.random], whose draw is an
    argument of [fit]. *)
Definition __init__ (n_hidden max_iter0 : nat) (noise0 tol0 lam_init : R)
    (additive0 gaussianize_marginals0 verbose0 copy0 : bool) : Corex :=
  {| m := n_hidden; max_iter := max_iter0; noise := noise0; tol := tol0;
     gaussianize_marginals := gaussianize_marginals0; verbose := verbose0;
     copy := copy0; nv := 0; ws := repeat [] n_hidden; additive := additive0;
     lam := LamScalar lam_init; moments := None; mean_x := None;
     tc_history := [0]; n_samples := None; n_loops := None |}.

Definition get_moments (st : Corex) : result Moments :=
  match moments st with
  | Some mo => Ok mo
  | None => Raise KeyError
  end.

(** ** The derived statistics *)

(** [calculate_mi]: [(-0.5 * log(1 - C**2 / (Y2 * var[:, newaxis]))).T]. *)
Definition calculate_mi (mo : Moments) : matrix :=
  transpose (length (Y_j2 mo))
    (mmap (fun t => - 0.5 * ln (1 - t))
       (mmap2 Rdiv (mmap (fun t => t ^ 2) (X_i_Y_j mo))
                   (row_col Rmult (Y_j2 mo) (X_i2 mo)))).

Definition mis (st : Corex) : result matrix :=
  mo <- get_moments st ;; Ok (calculate_mi mo).

Definition tcs (st : Corex) : result vector :=
  mo <- get_moments st ;;
  let mi_yj_x := map (fun y => 0.5 * ln y - 0.5 * ln (noise st ^ 2)) (Y_j2 mo) in
  mi <- mis st ;;
  Ok (vsub (sum_axis1 mi) mi_yj_x).

Definition tc (st : Corex) : result R :=
  t <- tcs st ;; Ok (rsum t).

Definition additivity (st : Corex) : result vector :=
  mo <- get_moments st ;;
  let mi_xi_y := map2 (fun v r => 0.5 * ln v - 0.5 * ln r) (X_i2 mo) (X_i2_given_Y mo) in
  mi <- mis st ;;
  Ok (vsub (sum_axis0 (nv st) mi) mi_xi_y).

(** [objective]: [self.tc - np.sum(self.additivity)]. *)
Definition objective (st : Corex) : result R :=
  t <- tc st ;;
  a <- additivity st ;;
  Ok (t - rsum a).

(** ** [_calculate_moments] *)

(** [y], [m["X_i Y_j"]] and [m["cy"]] of the source, in the order it
    computes them. *)
Definition latent_values (st : Corex) (x : matrix) : matrix :=
  dot x (transpose (nv st) (ws st)) (length (ws st)).

Definition cross_moment (st : Corex) (x : matrix) : matrix :=
  mmap (fun s => s / INR (length (latent_values st x)))
    (dot (transpose (nv st) x) (latent_values st x) (length (ws st))).

Definition latent_cov (st : Corex) (x : matrix) : matrix :=
  mmap2 Rplus (dot (ws st) (cross_moment st x) (length (ws st)))
    (mmap (Rmult (noise st ^ 2)) (eye (m st))).

(** [np.einsum('li,li->i', x, x) / len(x)], the variance of centered [x]. *)
Definition variance_of (d : nat) (x : matrix) : vector :=
  map (fun s => s / INR (length x)) (einsum_li_li_i d x x).

(** [var_x]: the cached entry when ["X_i^2" in self.moments], else the
    variance of [x]. *)
Definition variance_entry (st : Corex) (x : matrix) : vector :=
  match moments st with
  | Some mo => X_i2 mo
  | None => variance_of (nv st) x
  end.

Definition _calculate_moments (st : Corex) (x : matrix) : result Moments :=
  let var_x := variance_entry st x in
  let xy := cross_moment st x in
  let c := latent_cov st x in
  z <- solve c (transpose (length (ws st)) xy) ;;
  let xz := transpose (nv st) z in
  Ok {| X_i2 := var_x;
        X_i_Y_j := xy;
        cy := c;
        X_i_Z_j := xz;
        X_i2_given_Y := vsub var_x (einsum_ij_ij_i xz xy);
        Y_j2 := diag c |}.

(** ** [_update_ws] *)

Definition expit (t : R) : R := 1 / (1 + exp (- t)).

(** [Q] and [R] of the source. *)
Definition Q_of (st : Corex) (mo : Moments) : matrix :=
  mmap2 Rdiv (transpose (length (ws st)) (X_i_Y_j mo))
    (mmap2 Rminus (row_col Rmult (X_i2 mo) (Y_j2 mo))
       (transpose (length (ws st)) (mmap (fun t => t ^ 2) (X_i_Y_j mo)))).

Definition R_of (st : Corex) (mo : Moments) : matrix :=
  mat_row Rdiv (transpose (length (ws st)) (X_i_Z_j mo)) (X_i2_given_Y mo).

(** The recomputed multipliers of the [if self.additive] branch.  Where
    [a_i] or [b_i] is zero the source computes [expit] of [inf], [-inf] or
    [nan]; the statements about these values take both nonzero. *)
Definition lam_update (st : Corex) (mo : Moments) : result vector :=
  let ai := einsum_ji_ij_i (nv st)
              (mmap2 Rminus (mmap (Rmult (noise st ^ 2)) (Q_of st mo)) (ws st))
              (X_i_Y_j mo) in
  let bi := einsum_ji_ij_i (nv st)
              (mmap2 Rminus (mmap (Rmult (noise st ^ 2)) (R_of st mo)) (ws st))
              (X_i_Y_j mo) in
  ad <- additivity st ;;
  Ok (map2 (fun a t => if Rlt_dec a 0 then t else 0) ad
        (map2 (fun b a => expit (0.5 * ln (Rabs (b / a)))) bi ai)).

Definition H_of (st : Corex) (mo : Moments) (l : vector) : matrix :=
  fill_diagonal_0
    (einsum_ir_i_is_i_rs (length (ws st)) (X_i_Z_j mo)
       (map (fun r => 1 / r) (X_i2_given_Y mo)) (X_i_Z_j mo)
       (map (fun t => 1 - t) l)).

(** The right-hand side of the final assignment to [self.ws], with [l] the
    value of [self.lam] at that point. *)
Definition new_ws (st : Corex) (mo : Moments) (l : vector) : matrix :=
  let S := dot (H_of st mo l) (ws st) (nv st) in
  mmap (Rmult 0.5)
    (mmap2 Rplus (ws st)
       (mmap (Rmult (noise st ^ 2))
          (mmap2 Rminus
             (mmap2 Rplus (mat_row (fun q t => t * q) (Q_of st mo) l)
                          (mat_row (fun r t => t * r) (R_of st mo)
                             (map (fun t => 1 - t) l)))
             S))).

Definition _update_ws (st : Corex) : result Corex :=
  mo <- get_moments st ;;
  st1 <- (if additive st
          then l <- lam_update st mo ;; Ok (set_lam st (LamArray l))
          else Ok st) ;;
  match lam st1 with
  | LamScalar _ => Raise ValueError
  | LamArray l => Ok (set_ws st1 (new_ws st1 mo l))
  end.

(** ** [_sym_decorrelation]

    [eig] is the pair [(s, u)] that [np.linalg.eigh] returns for
    [np.dot(W, W.T)]; [c] is the column count of [W]. *)
Definition _sym_decorrelation (W : matrix) (eig : vector * matrix) (c : nat) : matrix :=
  let s := fst eig in
  let u := snd eig in
  dot (dot (mat_row Rmult u (map (fun t => 1 / sqrt t) s))
           (transpose (length W) u) (length W))
      W c.

(** ** [np.argsort] and fancy indexing [A[order]]

    Indices sorted by ascending key; equal keys keep their index order. *)
Fixpoint insert_by (key : nat -> R) (i : nat) (l : list nat) : list nat :=
  match l with
  | [] => [i]
  | j :: l' => if Rle_dec (key i) (key j) then i :: l else j :: insert_by key i l'
  end.
Definition argsort (v : vector) : list nat :=
  fold_right (insert_by (at1 v)) [] (seq 0 (length v)).
Definition take_rows (A : matrix) (order : list nat) : matrix :=
  map (fun j => nth j A []) order.

(** [scipy.stats.rankdata] with its default method: ties get the average of
    the ranks they span. *)
Definition rankdata (v : vector) : vector :=
  map (fun a =>
         INR (length (filter (fun b => if Rlt_dec b a then true else false) v))
         + (INR (length (filter (fun b => if Req_dec_T b a then true else false) v)) + 1) / 2)
      v.

(** [self.lam * np.ones(nv)]. *)
Definition lam_times_ones (l : lam_t) (d : nat) : result vector :=
  match l with
  | LamScalar r => Ok (map (Rmult r) (repeat 1 d))
  | LamArray v =>
      if Nat.eqb (length v) d then Ok (map2 Rmult v (repeat 1 d))
      else if Nat.eqb (length v) 1 then Ok (map (Rmult (hd 0 v)) (repeat 1 d))
      else if Nat.eqb d 1 then Ok (map (fun t => t * 1) v)
      else Raise ValueError
  end.

(** [tc_history[-1] - tc_history[-2]]. *)
Definition last_delta (h : list R) : result R :=
  match rev h with
  | a :: b :: _ => Ok (a - b)
  | _ => Raise IndexError
  end.

(** The body of the [for i_loop in range(max_iter)] loop, over the indices
    still to run.  [bound] is the value [i_loop] holds so far; the boolean
    of the result tells whether the loop ended in [break]. *)
Fixpoint for_loop (todo : list nat) (bound : option nat) (x : matrix) (st : Corex)
    : result (Corex * option nat * bool) :=
  match todo with
  | [] => Ok (st, bound, false)
  | i_loop :: rest =>
      mo <- _calculate_moments st x ;;
      let st1 := set_moments st mo in
      t <- tc st1 ;;
      let st2 := set_tc_history st1 (tc_history st1 ++ [t]) in
      st3 <- _update_ws st2 ;;
      d <- last_delta (tc_history st3) ;;
      if Rlt_dec (Rabs d) (tol st3)
      then Ok (st3, Some i_loop, true)
      else for_loop rest (Some i_loop) x st3
  end.

(** The lines of [fit] after the loop. *)
Definition reorder (st : Corex) (bound : option nat) (x : matrix) : result Corex :=
  t <- tcs st ;;
  let order := argsort (map Ropp t) in
  let st1 := set_ws st (take_rows (ws st) order) in
  mo <- _calculate_moments st1 x ;;
  let st2 := set_moments st1 mo in
  match bound with
  | Some i_loop => Ok (set_n_loops st2 i_loop)
  | None => Raise UnboundLocalError
  end.

Section LinearCorex.

(** [scipy.stats.norm.ppf]. *)
Variable norm_ppf : R -> R.

(** ** [gaussianize], on a 2-d array *)
Definition gaussianize (x : matrix) : matrix :=
  transpose (length x)
    (map (fun x_i => map norm_ppf
                       (map (fun r => (r - 0.5) / INR (length x_i)) (rankdata x_i)))
         (transpose (ncols x) x)).

(** [gaussianize] on a 1-d array, the first branch of the source. *)
Definition gaussianize_1d (v : vector) : vector :=
  map norm_ppf (map (fun r => (r - 0.5) / INR (length v)) (rankdata v)).

(** The preprocessing shared by [fit] and [transform] when the mean is used:
    [x -= mean]. *)
Definition center (x : matrix) (mu : vector) : matrix := mat_row Rminus x mu.

(** The initialisation lines of [fit], up to the loop; the second component
    is the preprocessed data. *)
Definition fit_init (st : Corex) (rnd : matrix) (eig : vector * matrix) (x : matrix)
    : result (Corex * matrix) :=
  let st0 := set_shape st (length x) (ncols x) in
  let st1 := if gaussianize_marginals st0 then st0
             else set_mean_x st0 (map (fun s => s / INR (length x)) (sum_axis0 (nv st0) x)) in
  let x1 := if gaussianize_marginals st0 then gaussianize x
            else center x (map (fun s => s / INR (length x)) (sum_axis0 (nv st0) x)) in
  let var_x := map (fun s => s / INR (length x)) (einsum_li_li_i (nv st1) x1 x1) in
  let st2 := set_ws st1 rnd in
  let st3 := set_ws st2
               (mat_row Rdiv
                  (mmap (fun t => t * noise st2 ^ 2)
                     (_sym_decorrelation (ws st2) eig (nv st2)))
                  (map sqrt var_x)) in
  l <- lam_times_ones (lam st3) (nv st3) ;;
  Ok (set_lam st3 (LamArray l), x1).

(** ** [fit]

    [rnd] is the draw of [np.random.randn(self.m, self.nv)], [eig] the result
    of [np.linalg.eigh] inside [_sym_decorrelation].  The result is the model
    after the call; what [x -= self.mean_x] does to the caller's array under
    [copy=False] is represented for [transform] only, below. *)
Definition fit (st : Corex) (rnd : matrix) (eig : vector * matrix) (x : matrix)
    : result Corex :=
  p <- fit_init st rnd eig x ;;
  q <- for_loop (seq 0 (max_iter (fst p))) None (snd p) (fst p) ;;
  reorder (fst (fst q)) (snd (fst q)) (snd p).

(** ** [transform]

    The caller passes a float array [x].  The result holds the value
    returned (the latent values and, with [details], the moments) and the
    contents of the caller's array after the call: with [copy=False] the
    array the method works on is the caller's own, and [x -= self.mean_x]
    writes into it. *)
Record transformed : Type := {
  latent : matrix;
  details_moments : option Moments;
  caller_array : matrix
}.

Definition transform (st : Corex) (x : matrix) (details : bool) : result transformed :=
  if negb (Nat.eqb (nv st) (ncols x)) then Raise AssertionError
  else
    x1 <- (if gaussianize_marginals st then Ok (gaussianize x)
           else match mean_x st with
                | Some mu => Ok (center x mu)
                | None => Raise TypeError
                end) ;;
    let after := if copy st || gaussianize_marginals st then x else x1 in
    let y := dot x1 (transpose (nv st) (ws st)) (length (ws st)) in
    if details
    then mo <- _calculate_moments st x1 ;;
         Ok {| latent := y; details_moments := Some mo; caller_array := after |}
    else Ok {| latent := y; details_moments := None; caller_array := after |}.

(** ** [transform] on arrays as objects

    A numpy array is an object: [np.array(x, dtype=float, copy=False)] on
    a float array returns [x] itself, and [x -= self.mean_x] writes into
    the array [x] is bound to, whoever else holds it.  Here the 2-d float
    arrays live in a store, addressed by position; the caller passes the
    address [r] of its array, and the model's weights [self.ws] are the
    array at [ws_at].  [transform] contains no assignment to an attribute
    of [self], so what a call can change is the content of arrays, which
    the store it returns records; the other attributes, [fields], are held
    by value.  [np.array(..., copy=True)], [gaussianize] and [dot] allocate
    a new array; the subtraction of the mean is a write.  Views sharing
    part of an array's memory are not represented. *)
Abbreviation ref := nat (only parsing).
Abbreviation store := (list matrix) (only parsing).

Definition read (h : store) (r : ref) : matrix := nth r h [].

Definition alloc (h : store) (a : matrix) : store * ref := (h ++ [a], length h).

Fixpoint write (h : store) (r : ref) (a : matrix) : store :=
  match h, r with
  | [], _ => []
  | _ :: h', O => a :: h'
  | b :: h', S r' => b :: write h' r' a
  end.

Record Object : Type := {
  fields : Corex;
  ws_at : ref
}.

(** The model as the methods see it: [self.ws] is read from the store. *)
Definition load (h : store) (o : Object) : Corex :=
  set_ws (fields o) (read h (ws_at o)).

(** [np.array(x, dtype=float, copy=...)] on a float array. *)
Definition np_array (h : store) (r : ref) (copy0 : bool) : store * ref :=
  if copy0 then alloc h (read h r) else (h, r).

(** The value a call returns: the latent values and, with [details], the
    moments. *)
Definition returned (out : result transformed) : result (matrix * option Moments) :=
  match out with
  | Ok t => Ok (latent t, details_moments t)
  | Raise e => Raise e
  end.

Definition transform_store (o : Object) (h : store) (r : ref) (details : bool)
    : store * result (matrix * option Moments) :=
  let '(h0, x) := np_array h r (copy (fields o)) in
  if negb (Nat.eqb (nv (fields o)) (ncols (read h0 x))) then (h0, Raise AssertionError)
  else
    match (if gaussianize_marginals (fields o)
           then Ok (alloc h0 (gaussianize (read h0 x)))
           else match mean_x (fields o) with
                | Some mu => Ok (write h0 x (center (read h0 x) mu), x)
                | None => Raise TypeError
                end) with
    | Raise e => (h0, Raise e)
    | Ok (h1, x1) =>
        let st := load h1 o in
        (h1,
         if details
         then mo <- _calculate_moments st (read h1 x1) ;;
              Ok (dot (read h1 x1) (transpose (nv st) (ws st)) (length (ws st)), Some mo)
         else Ok (dot (read h1 x1) (transpose (nv st) (ws st)) (length (ws st)), None))
    end.

(** ** [predict]: [np.dot(self.moments["X_i Z_j"], y.T).T] *)
Definition predict (st : Corex) (y : matrix) : result matrix :=
  mo <- get_moments st ;;
  Ok (transpose (length y)
        (dot (X_i_Z_j mo) (transpose (ncols y) y) (length y))).

(** ** [fit_transform]: [self.fit(x)], then [self.transform(x, **kwargs)]

    Both calls receive the caller's float array.  [fit_caller_array] is what
    that array holds once [fit] has returned: with [copy=False] and no
    gaussianization, [fit] has subtracted the column means from it in place
    (the [x -= self.mean_x] of [fit]); otherwise [fit] worked on a copy, or
    rebound [x] to the gaussianized array, and the caller's array is as it
    was.  The result pairs the fitted model with what [transform] returns. *)
Definition fit_caller_array (st : Corex) (x : matrix) : matrix :=
  if copy st || gaussianize_marginals st then x
  else center x (map (fun s => s / INR (length x)) (sum_axis0 (ncols x) x)).

Definition fit_transform (st : Corex) (rnd : matrix) (eig : vector * matrix) (x : matrix)
    (details : bool) : result (Corex * transformed) :=
  st' <- fit st rnd eig x ;;
  out <- transform st' (fit_caller_array st x) details ;;
  Ok (st', out).

End LinearCorex.

(** ** Notions used to state the properties *)

(** [A] has [r] rows of [c] entries each. *)
Definition shape (r c : nat) (A : matrix) : Prop :=
  length A = r /\ Forall (fun row => length row = c) A.

(** [v] solves the homogeneous system of [rows]. *)
Definition in_kernel (rows : list eqn) (v : vector) : Prop :=
  Forall (fun r => vdot (fst r) v = 0) rows.

(** [A v], [v^T A v] and [v^T W] for a matrix with [c] columns. *)
Definition mat_vec (A : matrix) (v : vector) : vector := map (fun row => vdot row v) A.
Definition quad_form (A : matrix) (v : vector) : R := vdot v (mat_vec A v).
Definition vec_mat (v : vector) (W : matrix) (c : nat) : vector :=
  map (fun j => vdot v (col j W)) (seq 0 c).

Definition nonzero (v : vector) : Prop := Exists (fun t => t <> 0) v.

Definition symmetric (k : nat) (A : matrix) : Prop :=
  forall r s, (r < k)%nat -> (s < k)%nat -> at2 A r s = at2 A s r.

Definition positive_definite (k : nat) (A : matrix) : Prop :=
  forall v, length v = k -> nonzero v -> 0 < quad_form A v.

(** [mu] is an eigenvalue of the [k] by [k] matrix [A]. *)
Definition eigenvalue (k : nat) (A : matrix) (mu : R) : Prop :=
  exists v, length v = k /\ nonzero v /\ mat_vec A v = vscale mu v.

(** The rows of the [r] by [c] matrix [W] are linearly dependent. *)
Definition rank_deficient (r c : nat) (W : matrix) : Prop :=
  exists v, length v = r /\ nonzero v /\ vec_mat v W c = repeat 0 c.

(** The cached variances, when present, have one entry per variable. *)
Definition cache_ok (st : Corex) : Prop :=
  match moments st with
  | Some mo => length (X_i2 mo) = nv st
  | None => True
  end.

(** The arrays of a moments bundle have the shapes of [m] factors over
    [d] variables. *)
Definition moments_shape (k d : nat) (mo : Moments) : Prop :=
  length (X_i2 mo) = d /\ shape d k (X_i_Y_j mo) /\ shape k k (cy mo) /\
  shape d k (X_i_Z_j mo) /\ length (X_i2_given_Y mo) = d /\ length (Y_j2 mo) = k.

(** The weight update in the words of the specification, entry by entry:
    [Q_{j,i}], [R_{j,i}], [H_{r,s}] with its diagonal zeroed, [S = H W] and
    the damped step, for multipliers [l], [d] variables and [k] factors. *)
Definition spec_Q (mo : Moments) (j i : nat) : R :=
  at2 (X_i_Y_j mo) i j
  / (at1 (X_i2 mo) i * at1 (Y_j2 mo) j - at2 (X_i_Y_j mo) i j ^ 2).

Definition spec_R (mo : Moments) (j i : nat) : R :=
  at2 (X_i_Z_j mo) i j / at1 (X_i2_given_Y mo) i.

Definition spec_H (mo : Moments) (l : vector) (d : nat) (r s : nat) : R :=
  if Nat.eqb r s then 0
  else sum_n d (fun i => at2 (X_i_Z_j mo) i r * (1 / at1 (X_i2_given_Y mo) i)
                         * at2 (X_i_Z_j mo) i s * (1 - at1 l i)).

Definition spec_S (mo : Moments) (l : vector) (W : matrix) (d k : nat) (j i : nat) : R :=
  sum_n k (fun s => spec_H mo l d j s * at2 W s i).

Definition spec_update (sigma : R) (W : matrix) (mo : Moments) (l : vector)
    (d k : nat) (j i : nat) : R :=
  0.5 * (at2 W j i
         + sigma ^ 2 * (at1 l i * spec_Q mo j i + (1 - at1 l i) * spec_R mo j i
                        - spec_S mo l W d k j i)).

(** The multiplier update entry by entry: [a_i] and [b_i] of the source,
    and the value [np.where(additivity < 0, expit(0.5 log|b_i / a_i|), 0)]
    selects for a variable whose additivity statistic is [ad]. *)
Definition spec_a (sigma : R) (W : matrix) (mo : Moments) (k : nat) (i : nat) : R :=
  sum_n k (fun j => (sigma ^ 2 * spec_Q mo j i - at2 W j i) * at2 (X_i_Y_j mo) i j).

Definition spec_b (sigma : R) (W : matrix) (mo : Moments) (k : nat) (i : nat) : R :=
  sum_n k (fun j => (sigma ^ 2 * spec_R mo j i - at2 W j i) * at2 (X_i_Y_j mo) i j).

Definition spec_lam (ad a b : R) : R :=
  if Rlt_dec ad 0 then expit (0.5 * ln (Rabs (b / a))) else 0.

(** The divisions behind [Q] and [R] for variable [i] have positive
    denominators. *)
Definition ratios_defined (mo : Moments) (k : nat) (i : nat) : Prop :=
  0 < at1 (X_i2_given_Y mo) i /\
  forall j, (j < k)%nat ->
    0 < at1 (X_i2 mo) i * at1 (Y_j2 mo) j - at2 (X_i_Y_j mo) i j ^ 2.

(** The successive differences of the entries [new] appended to a trace
    whose last entry is [prev]. *)
Fixpoint deltas (prev : R) (new : list R) : list R :=
  match new with
  | [] => []
  | t :: new' => (t - prev) :: deltas t new'
  end.

(** The state the loop of [fit] works on: weights of the right shape, the
    multipliers broadcast to one per variable, a usable variance cache, a
    nonempty trace. *)
Definition loop_inv (st : Corex) : Prop :=
  shape (m st) (nv st) (ws st) /\ cache_ok st /\
  (exists l, lam st = LamArray l /\ length l = nv st) /\
  tc_history st <> [].

(** What [fit] needs of the model and of its inputs: rectangular data, a
    draw and an eigendecomposition of the shapes numpy returns, multipliers
    that broadcast against the variables, a variance cache (if any) of the
    right length, a nonempty trace.  A model just built by [__init__]
    qualifies for every rectangular [x]. *)
Definition fit_ready (st : Corex) (rnd : matrix) (eig : vector * matrix) (x : matrix) : Prop :=
  shape (length x) (ncols x) x /\
  shape (m st) (ncols x) rnd /\
  length (fst eig) = m st /\ shape (m st) (m st) (snd eig) /\
  match lam st with
  | LamScalar _ => True
  | LamArray v => length v = ncols x
  end /\
  match moments st with
  | Some mo => length (X_i2 mo) = ncols x
  | None => True
  end /\
  tc_history st <> [].

(** The attributes the loop never writes. *)
Definition same_config (st st' : Corex) : Prop :=
  m st' = m st /\ nv st' = nv st /\ noise st' = noise st /\ tol st' = tol st /\
  max_iter st' = max_iter st /\ additive st' = additive st /\
  mean_x st' = mean_x st /\ copy st' = copy st /\
  gaussianize_marginals st' = gaussianize_marginals st.

Definition in_unit (t : R) : Prop := 0 <= t <= 1.

(** The rows of the [k] by [c] matrix [A] are orthonormal: [A A^T = I]. *)
Definition orthonormal_rows (k c : nat) (A : matrix) : Prop :=
  forall a b, (a < k)%nat -> (b < k)%nat ->
    sum_n c (fun i => at2 A a i * at2 A b i) = if Nat.eqb a b then 1 else 0.

(** What [np.linalg.eigh] promises of its result [(s, u)] on the symmetric
    [k] by [k] matrix [G]: the columns of [u] are orthonormal eigenvectors,
    [u] is orthogonal, and [G = u diag(s) u^T]. *)
Definition eigh_of (k : nat) (G : matrix) (eig : vector * matrix) : Prop :=
  length (fst eig) = k /\ shape k k (snd eig) /\
  orthonormal_rows k k (snd eig) /\
  (forall a b, (a < k)%nat -> (b < k)%nat ->
     sum_n k (fun j => at2 (snd eig) j a * at2 (snd eig) j b) = if Nat.eqb a b then 1 else 0) /\
  (forall a b, (a < k)%nat -> (b < k)%nat ->
     at2 G a b = sum_n k (fun j => at2 (snd eig) a j * at1 (fst eig) j * at2 (snd eig) b j)).

(** [x.mean(axis=0)], as [fit] computes and stores it. *)
Definition column_means (x : matrix) : vector :=
  map (fun s => s / INR (length x)) (sum_axis0 (ncols x) x).

(** Every one of the [d] columns of the [n]-row array [x] has a nonzero
    entry: the mean square [einsum('li,li->i', x, x) / n] that [fit] takes
    the square root of, and divides by, is positive.  On other inputs the
    division gives [inf] or [nan] in the source, which the statements about
    the values [fit] computes exclude by this hypothesis. *)
Definition positive_variance (n d : nat) (x : matrix) : Prop :=
  forall i, (i < d)%nat -> 0 < sum_n n (fun l => at2 x l i * at2 x l i).

(** The eigenvalues [eigh] returned are positive, so that [1. / np.sqrt(s)]
    is finite. *)
Definition positive_spectrum (eig : vector * matrix) : Prop :=
  Forall (fun s => 0 < s) (fst eig).

(** [f] is strictly increasing. *)
Definition increasing (f : R -> R) : Prop := forall a b, a < b -> f a < f b.

(** The indices of [order] are arranged by non-increasing value of [t]. *)
Definition descending_by (t : vector) (order : list nat) : Prop :=
  forall p q, (p < q)%nat -> (q < length order)%nat ->
    at1 t (nth q order 0%nat) <= at1 t (nth p order 0%nat).

(** What a run of the loop over the indices [todo] does to the trace:
    it appends [new], one entry per pass; every pass but the last saw a
    difference not below [tol]; it ends in [break] ([b = true]) only on a
    difference below [tol], and otherwise runs through all of [todo];
    [i_loop] is left at the index of the last pass. *)
Definition loop_outcome (st : Corex) (todo : list nat) (bound : option nat)
    (st' : Corex) (bound' : option nat) (b : bool) (new : list R) : Prop :=
  tc_history st' = tc_history st ++ new /\
  (length new <= length todo)%nat /\
  (b = false -> length new = length todo) /\
  (todo <> [] -> new <> []) /\
  bound' = match new with
           | [] => bound
           | _ :: _ => Some (nth (length new - 1) todo 0%nat)
           end /\
  Forall (fun d => ~ Rabs d < tol st) (removelast (deltas (last (tc_history st) 0) new)) /\
  (b = true -> new <> [] /\ Rabs (last (deltas (last (tc_history st) 0) new) 0) < tol st) /\
  (b = false -> Forall (fun d => ~ Rabs d < tol st) (deltas (last (tc_history st) 0) new)).

(** ** Sample inputs *)

(** One factor over one variable, weight 1, with the given noise level. *)
Definition model_1 (sigma : R) : Corex :=
  {| m := 1; max_iter := 1; noise := sigma; tol := 1 / 100000;
     gaussianize_marginals := false; verbose := false; copy := true;
     nv := 1; ws := [[1]]; additive := false; lam := LamArray [0];
     moments := None; mean_x := Some [0]; tc_history := [0];
     n_samples := Some 2%nat; n_loops := None |}.

Definition data_pm1 : matrix := [[-1]; [1]].

(** A moments bundle and a model with additivity enforcement on, whose
    current multiplier is 1. *)
Definition bundle_c1 : Moments :=
  {| X_i2 := [4]; X_i_Y_j := [[0]]; cy := [[1]]; X_i_Z_j := [[1]];
     X_i2_given_Y := [4]; Y_j2 := [1] |}.

Definition model_c1 : Corex :=
  {| m := 1; max_iter := 1; noise := 1; tol := 1 / 100000;
     gaussianize_marginals := false; verbose := false; copy := true;
     nv := 1; ws := [[0]]; additive := true; lam := LamArray [1];
     moments := Some bundle_c1; mean_x := Some [0]; tc_history := [0; 0];
     n_samples := Some 2%nat; n_loops := None |}.

(** Two factors over two variables with additivity enforcement on, four
    centered samples, and the moments of these weights on these samples. *)
Definition data_a : matrix := [[1; 0]; [-1; 0]; [0; 1]; [0; -1]].

Definition moments_a : Moments :=
  {| X_i2 := [1 / 2; 1 / 2];
     X_i_Y_j := [[1 / 2; 1 / 2]; [0; 1 / 2]];
     cy := [[3 / 2; 1 / 2]; [1 / 2; 2]];
     X_i_Z_j := [[3 / 11; 2 / 11]; [- 1 / 11; 3 / 11]];
     X_i2_given_Y := [3 / 11; 4 / 11];
     Y_j2 := [3 / 2; 2] |}.

Definition model_a : Corex :=
  {| m := 2; max_iter := 1; noise := 1; tol := 1 / 100000;
     gaussianize_marginals := false; verbose := false; copy := true;
     nv := 2; ws := [[1; 0]; [1; 1]]; additive := true; lam := LamArray [0; 0];
     moments := Some moments_a; mean_x := Some [0; 0]; tc_history := [0; 0];
     n_samples := Some 4%nat; n_loops := None |}.

(** A one-factor model as [__init__] builds it, with the given initial
    multiplier, additivity enforcement off and the given [copy] flag; a draw
    [rnd_1] whose Gram matrix is the identity, with its eigendecomposition
    [eig_1]; two samples of one variable. *)
Definition fresh_1 (lam_init : R) (copy0 : bool) : Corex :=
  __init__ 1 1 1 (1 / 100000) lam_init false false false copy0.

Definition rnd_1 : matrix := [[1]].
Definition eig_1 : vector * matrix := ([1], [[1]]).
Definition data_13 : matrix := [[1]; [3]].

Definition moments_1 : Moments :=
  {| X_i2 := [1]; X_i_Y_j := [[1]]; cy := [[2]]; X_i_Z_j := [[1 / 2]];
     X_i2_given_Y := [1 / 2]; Y_j2 := [2] |}.

(** The state [fit] reaches from [fresh_1] on [data_13]: the weight 1 is a
    fixed point of the update. *)
Definition fitted_1 (lam_init : R) (copy0 : bool) : Corex :=
  {| m := 1; max_iter := 1; noise := 1; tol := 1 / 100000;
     gaussianize_marginals := false; verbose := false; copy := copy0;
     nv := 1; ws := [[1]]; additive := false; lam := LamArray [lam_init];
     moments := Some moments_1;
     mean_x := Some [2]; tc_history := [0; 0];
     n_samples := Some 2%nat; n_loops := Some 0%nat |}.

(** The one-factor configuration with an iteration budget of 5. *)
Definition fresh_1_5 : Corex := __init__ 1 5 1 (1 / 100000) 0 false false false true.

(** The fitted model above as an object whose weights are the array at
    address 0 of the store, and a store holding those weights and, at
    address 1, a caller's array. *)
Definition object_1 (copy0 : bool) : Object :=
  {| fields := fitted_1 0 copy0; ws_at := 0 |}.

Definition store_1 : list matrix := [[[1]]; [[5]]].

(** The same model with marginal gaussianization on, and three samples of
    one variable. *)
Definition fresh_g : Corex := __init__ 1 1 1 (1 / 100000) 0 false true false true.
Definition data_012 : matrix := [[0]; [1]; [2]].

(** Two factors over three variables, one pass of the loop, additivity
    enforcement off with the multipliers fixed at 1; a draw with orthonormal
    rows and the eigendecomposition of its Gram matrix (the identity); four
    centered samples in which the last two variables coincide. *)
Definition fresh_2 : Corex := __init__ 2 1 3 (1 / 100000) 1 false false false true.

Definition rnd_2 : matrix := [[2 / 3; 2 / 3; 1 / 3]; [1 / 3; - 2 / 3; 2 / 3]].
Definition eig_2 : vector * matrix := ([1; 1], [[1; 0]; [0; 1]]).
Definition data_2 : matrix := [[-1; 1; 1]; [1; 1; 1]; [1; -1; -1]; [-1; -1; -1]].

(** The weights [fit] starts the loop with, those its single pass leaves,
    and the latter in the order [fit] returns them. *)
Definition ws_start_2 : matrix := [[6; 6; 3]; [3; -6; 6]].
Definition ws_updated_2 : matrix := [[33 / 10; 39 / 10; 12 / 5]; [3; -3; 3]].
Definition ws_returned_2 : matrix := [[3; -3; 3]; [33 / 10; 39 / 10; 12 / 5]].

(** The model [fresh_2] once its multipliers have been broadcast to the
    three variables, as a first [fit] leaves them. *)
Definition fresh_2_fitted_lam : Corex := set_lam fresh_2 (LamArray [1; 1; 1]).

(** The same configuration as [fresh_2] with an iteration budget of 5. *)
Definition fresh_5 : Corex := __init__ 2 5 3 (1 / 100000) 1 false false false true.

(** The same again with additivity enforcement on and the default initial
    multiplier 0. *)
Definition fresh_a : Corex := __init__ 2 5 3 (1 / 100000) 0 true false false true.

(** A draw with orthogonal rows of lengths 2 and 3, and the
    eigendecomposition of its Gram matrix [diag(4, 9)]. *)
Definition rnd_3 : matrix := [[2; 0; 0]; [0; 0; 3]].
Definition eig_3 : vector * matrix := ([4; 9], [[1; 0]; [0; 1]]).

(** A quantile function to instantiate [norm_ppf] with in closed examples
    that do not gaussianize: its values are never used there. *)
Definition identity_quantile : R -> R := fun p => p.

(** * Properties *)

(** ** Lists and sums *)

Lemma map2_length {A B C : Type} (f : A -> B -> C) l1 l2 :
  length (map2 f l1 l2) = Nat.min (length l1) (length l2).
Proof. unfold map2. now rewrite length_map, length_combine. Qed.

Lemma map2_cons {A B C : Type} (f : A -> B -> C) a l1 b l2 :
  map2 f (a :: l1) (b :: l2) = f a b :: map2 f l1 l2.
Proof. reflexivity. Qed.

Lemma nth_map2 {A B C : Type} (f : A -> B -> C) l1 l2 i da db dc :
  (i < length l1)%nat -> (i < length l2)%nat ->
  nth i (map2 f l1 l2) dc = f (nth i l1 da) (nth i l2 db).
Proof.
  revert l2 i. induction l1 as [|a l1 IH]; intros [|b l2] i H1 H2; simpl in *; try lia.
  destruct i as [|i]; [reflexivity|].
  apply IH; lia.
Qed.

Lemma nth_map_seq {A : Type} (f : nat -> A) n i d :
  (i < n)%nat -> nth i (map f (seq 0 n)) d = f i.
Proof.
  intros H. rewrite (nth_indep _ d (f 0%nat)) by now rewrite length_map, length_seq.
  rewrite map_nth, seq_nth; auto.
Qed.

Lemma nth_map_in {A B : Type} (f : A -> B) l i da db :
  (i < length l)%nat -> nth i (map f l) db = f (nth i l da).
Proof.
  intros H. rewrite (nth_indep _ db (f da)) by now rewrite length_map.
  apply map_nth.
Qed.

Lemma list_ext {A : Type} (d : A) (l1 l2 : list A) :
  length l1 = length l2 ->
  (forall i, (i < length l1)%nat -> nth i l1 d = nth i l2 d) ->
  l1 = l2.
Proof.
  revert l2. induction l1 as [|a l1 IH]; intros [|b l2] Hl Hn; simpl in *; try lia; auto.
  f_equal.
  - apply (Hn 0%nat). lia.
  - apply IH; [lia|]. intros i Hi. apply (Hn (S i)). lia.
Qed.

Lemma rsum_app u v : rsum (u ++ v) = rsum u + rsum v.
Proof. induction u as [|a u IH]; simpl; [lra | rewrite IH; lra]. Qed.

Lemma sum_n_S n f : sum_n (S n) f = sum_n n f + f n.
Proof.
  unfold sum_n. rewrite seq_S, map_app, rsum_app. simpl. lra.
Qed.

Lemma sum_n_ext n f g :
  (forall i, (i < n)%nat -> f i = g i) -> sum_n n f = sum_n n g.
Proof.
  induction n as [|n IH]; intros H; [reflexivity|].
  rewrite !sum_n_S, IH, (H n); auto.
Qed.

Lemma sum_n_plus n f g :
  sum_n n (fun i => f i + g i) = sum_n n f + sum_n n g.
Proof.
  induction n as [|n IH]; [unfold sum_n; simpl; lra|].
  rewrite !sum_n_S, IH. lra.
Qed.

Lemma sum_n_scal n a f :
  sum_n n (fun i => a * f i) = a * sum_n n f.
Proof.
  induction n as [|n IH]; [unfold sum_n; simpl; lra|].
  rewrite !sum_n_S, IH. lra.
Qed.

Lemma sum_n_minus n f g :
  sum_n n (fun i => f i - g i) = sum_n n f - sum_n n g.
Proof.
  rewrite (sum_n_ext n _ (fun i => f i + (-1) * g i)) by (intros; lra).
  rewrite sum_n_plus, sum_n_scal. lra.
Qed.

Lemma sum_n_scal_r n a f :
  sum_n n (fun i => f i * a) = sum_n n f * a.
Proof.
  induction n as [|n IH]; [unfold sum_n; simpl; lra|].
  rewrite !sum_n_S, IH. lra.
Qed.

Lemma sum_n_zero n : sum_n n (fun _ => 0) = 0.
Proof.
  induction n as [|n IH]; [reflexivity|]. rewrite sum_n_S, IH. lra.
Qed.

Lemma sum_n_swap n k f :
  sum_n n (fun i => sum_n k (fun j => f i j)) =
  sum_n k (fun j => sum_n n (fun i => f i j)).
Proof.
  induction n as [|n IH].
  - unfold sum_n at 1. simpl. symmetry.
    rewrite (sum_n_ext k _ (fun _ => 0)); [apply sum_n_zero | reflexivity].
  - rewrite sum_n_S, IH, <- sum_n_plus.
    apply sum_n_ext. intros j _. now rewrite sum_n_S.
Qed.

Lemma sum_n_nonneg n f :
  (forall i, (i < n)%nat -> 0 <= f i) -> 0 <= sum_n n f.
Proof.
  induction n as [|n IH]; intros H; [unfold sum_n; simpl; lra|].
  rewrite sum_n_S. specialize (H n) as Hn. specialize (IH (fun i Hi => H i (Nat.lt_lt_succ_r _ _ Hi))).
  assert (0 <= f n) by (apply Hn; lia). lra.
Qed.

Lemma sum_n_sq_zero n f :
  sum_n n (fun i => f i * f i) = 0 -> forall i, (i < n)%nat -> f i = 0.
Proof.
  induction n as [|n IH]; intros H i Hi; [lia|].
  rewrite sum_n_S in H.
  assert (H0 : 0 <= sum_n n (fun i => f i * f i)) by (apply sum_n_nonneg; intros; nra).
  assert (Hn : 0 <= f n * f n) by nra.
  destruct (Nat.eq_dec i n) as [->|Hne].
  - nra.
  - apply IH; [lra | lia].
Qed.

Lemma sum_n_delta n r f :
  (r < n)%nat ->
  sum_n n (fun s => (if Nat.eqb r s then 1 else 0) * f s) = f r.
Proof.
  induction n as [|n IH]; intros H; [lia|].
  rewrite sum_n_S.
  destruct (Nat.eq_dec r n) as [->|Hne].
  - rewrite Nat.eqb_refl.
    rewrite (sum_n_ext n _ (fun _ => 0)).
    + rewrite sum_n_zero. lra.
    + intros i Hi. destruct (Nat.eqb_spec n i); [lia | lra].
  - destruct (Nat.eqb_spec r n); [lia|]. rewrite IH by lia. lra.
Qed.

Lemma rsum_sum_n v : rsum v = sum_n (length v) (at1 v).
Proof.
  induction v as [|a v IH] using rev_ind; [reflexivity|].
  rewrite rsum_app, length_app, Nat.add_1_r, sum_n_S. simpl.
  unfold at1 at 2. rewrite app_nth2, Nat.sub_diag by lia. simpl.
  rewrite IH. f_equal; [|lra].
  apply sum_n_ext. intros i Hi. unfold at1. now rewrite app_nth1.
Qed.

Lemma vdot_sum_n u v k :
  length u = k -> length v = k ->
  vdot u v = sum_n k (fun q => at1 u q * at1 v q).
Proof.
  intros Hu Hv. unfold vdot. rewrite rsum_sum_n, map2_length, Hu, Hv, Nat.min_id.
  apply sum_n_ext. intros i Hi. unfold at1.
  apply (nth_map2 Rmult u v i 0 0 0); lia.
Qed.

Lemma vdot_cons a u b v : vdot (a :: u) (b :: v) = a * b + vdot u v.
Proof. reflexivity. Qed.

Lemma vdot_nil_l v : vdot [] v = 0.
Proof. reflexivity. Qed.

Lemma col_length j A : length (col j A) = length A.
Proof. apply length_map. Qed.

Lemma at1_col j A i : (i < length A)%nat -> at1 (col j A) i = at2 A i j.
Proof.
  intros H. unfold at1, col, at2. now rewrite (nth_map_in _ _ _ []).
Qed.

Lemma at1_col_any j A i : at1 (col j A) i = at2 A i j.
Proof.
  destruct (Nat.lt_ge_cases i (length A)) as [H|H].
  - now apply at1_col.
  - unfold at1, at2. rewrite (nth_overflow (col j A)) by now rewrite col_length.
    rewrite (nth_overflow A) by lia. now destruct j.
Qed.

Lemma shape_row r c A i : shape r c A -> (i < r)%nat -> length (nth i A []) = c.
Proof.
  intros [Hl Hf] Hi. rewrite Forall_forall in Hf. apply Hf, nth_In. lia.
Qed.

Lemma transpose_shape c A : shape c (length A) (transpose c A).
Proof.
  split.
  - unfold transpose. now rewrite length_map, length_seq.
  - apply Forall_forall. intros r Hr. unfold transpose in Hr.
    apply in_map_iff in Hr as (j & <- & _). apply col_length.
Qed.

Lemma at2_transpose c A i j :
  (j < c)%nat -> at2 (transpose c A) j i = at2 A i j.
Proof.
  intros Hj. unfold at2 at 1, transpose.
  rewrite (nth_map_seq (fun j => col j A)) by assumption.
  apply at1_col_any.
Qed.

Lemma row_transpose c A j : (j < c)%nat -> nth j (transpose c A) [] = col j A.
Proof. intros H. unfold transpose. now rewrite nth_map_seq. Qed.

Lemma dot_shape A B c : shape (length A) c (dot A B c).
Proof.
  split.
  - unfold dot. now rewrite length_map.
  - apply Forall_forall. intros r Hr. unfold dot in Hr.
    apply in_map_iff in Hr as (a & <- & _). now rewrite length_map, length_seq.
Qed.

Lemma at2_dot A B c i j :
  (i < length A)%nat -> (j < c)%nat ->
  at2 (dot A B c) i j = vdot (nth i A []) (col j B).
Proof.
  intros Hi Hj. unfold at2, dot.
  rewrite (nth_map_in _ _ _ []) by assumption.
  now rewrite (nth_map_seq (fun j => vdot (nth i A []) (col j B))).
Qed.

Lemma at2_dot_sum r k c A B i j :
  shape r k A -> length B = k -> (i < r)%nat -> (j < c)%nat ->
  at2 (dot A B c) i j = sum_n k (fun q => at2 A i q * at2 B q j).
Proof.
  intros HA HB Hi Hj. rewrite at2_dot by (destruct HA; lia).
  rewrite (vdot_sum_n _ _ k).
  - apply sum_n_ext. intros q Hq. now rewrite at1_col by lia.
  - eapply shape_row; eauto.
  - now rewrite col_length.
Qed.

Lemma matrix_ext r c A B :
  shape r c A -> shape r c B ->
  (forall i j, (i < r)%nat -> (j < c)%nat -> at2 A i j = at2 B i j) ->
  A = B.
Proof.
  intros HA HB H. apply (list_ext []).
  - destruct HA, HB. lia.
  - intros i Hi. assert (Hr : (i < r)%nat) by (destruct HA; lia).
    apply (list_ext 0).
    + now rewrite (shape_row r c A), (shape_row r c B).
    + intros j Hj. rewrite (shape_row r c A) in Hj by assumption. now apply H.
Qed.

(** ** The linear solve *)

Lemma vdot_vsub u w v :
  length u = length w -> vdot (vsub u w) v = vdot u v - vdot w v.
Proof.
  revert w v. induction u as [|a u IH]; intros [|b w] v H; simpl in *; try lia.
  - unfold vdot, vsub, map2. simpl. lra.
  - destruct v as [|c v].
    + unfold vdot, vsub, map2. simpl. lra.
    + unfold vsub. rewrite map2_cons. fold (vsub u w). rewrite !vdot_cons, IH by lia. lra.
Qed.

Lemma vdot_vscale f u v : vdot (vscale f u) v = f * vdot u v.
Proof.
  revert v. induction u as [|a u IH]; intros [|c v]; simpl;
    try (unfold vdot, map2; simpl; lra).
  unfold vscale in *. simpl. rewrite !vdot_cons, IH. lra.
Qed.

Lemma vdot_zeros u n : vdot u (repeat 0 n) = 0.
Proof.
  revert n. induction u as [|a u IH]; intros [|n]; simpl;
    try (unfold vdot, map2; simpl; lra).
  rewrite vdot_cons, IH. lra.
Qed.

Lemma vsub_length u v : length v = length u -> length (vsub u v) = length u.
Proof. intros H. unfold vsub. rewrite map2_length. lia. Qed.

Lemma vscale_length f u : length (vscale f u) = length u.
Proof. apply length_map. Qed.

Lemma at1_vsub u v c :
  (c < length u)%nat -> (c < length v)%nat -> at1 (vsub u v) c = at1 u c - at1 v c.
Proof. intros. unfold at1, vsub. now apply nth_map2. Qed.

Lemma at1_vscale f u c : at1 (vscale f u) c = f * at1 u c.
Proof.
  unfold at1, vscale.
  destruct (Nat.lt_ge_cases c (length u)) as [H|H].
  - now rewrite (nth_map_in _ _ _ 0).
  - rewrite !nth_overflow; [lra | lia | now rewrite length_map].
Qed.

Lemma find_pivot_some rows p others :
  find_pivot rows = Some (p, others) ->
  hd 0 (fst p) <> 0 /\ Permutation rows (p :: others).
Proof.
  revert p others. induction rows as [|r rows IH]; intros p others H; simpl in H; [discriminate|].
  destruct (Req_dec_T (hd 0 (fst r)) 0) as [Hz|Hnz].
  - destruct (find_pivot rows) as [[p' o']|] eqn:E; [|discriminate].
    inversion H; subst. destruct (IH _ _ eq_refl) as [Hp Hperm]. split; [assumption|].
    rewrite Hperm. apply perm_swap.
  - inversion H; subst. split; [assumption | apply Permutation_refl].
Qed.

Lemma find_pivot_none rows :
  find_pivot rows = None -> Forall (fun r => hd 0 (fst r) = 0) rows.
Proof.
  induction rows as [|r rows IH]; intros H; simpl in H; [constructor|].
  destruct (Req_dec_T (hd 0 (fst r)) 0) as [Hz|Hnz]; [|discriminate].
  destruct (find_pivot rows) as [[p' o']|]; [discriminate|].
  constructor; auto.
Qed.

Lemma sub_combo_length b a Z :
  Forall (fun z => length z = length b) Z -> length (sub_combo b a Z) = length b.
Proof.
  revert b Z. induction a as [|aj a IH]; intros b [|zj Z] H; simpl; try reflexivity.
  inversion H; subst.
  rewrite IH.
  - apply vsub_length. now rewrite vscale_length.
  - rewrite vsub_length by now rewrite vscale_length. assumption.
Qed.

Lemma at1_sub_combo b a Z c :
  Forall (fun z => length z = length b) Z -> (c < length b)%nat ->
  at1 (sub_combo b a Z) c = at1 b c - vdot a (col c Z).
Proof.
  revert b Z. induction a as [|aj a IH]; intros b [|zj Z] H Hc; simpl.
  - rewrite vdot_nil_l. lra.
  - rewrite vdot_nil_l. lra.
  - unfold vdot, map2. simpl. lra.
  - inversion H; subst.
    assert (Hl : length (vsub b (vscale aj zj)) = length b)
      by (apply vsub_length; now rewrite vscale_length).
    rewrite IH; [| now rewrite Hl | now rewrite Hl].
    rewrite at1_vsub, at1_vscale by (rewrite ?vscale_length; lia).
    rewrite vdot_cons. unfold at1. lra.
Qed.

Lemma eliminate_lengths p r k d :
  length (fst p) = S k -> length (snd p) = d ->
  length (fst r) = S k -> length (snd r) = d ->
  length (fst (eliminate p r)) = k /\ length (snd (eliminate p r)) = d.
Proof.
  intros Hp1 Hp2 Hr1 Hr2. unfold eliminate. simpl.
  destruct p as [[|hp tp] bp], r as [[|hr tr] br]; simpl in *; try discriminate.
  split.
  - rewrite vsub_length; rewrite ?vscale_length; lia.
  - rewrite vsub_length; rewrite ?vscale_length; lia.
Qed.

Lemma gauss_sound d k : forall rows Z,
  gauss k rows = Some Z ->
  length rows = k ->
  Forall (fun r => length (fst r) = k /\ length (snd r) = d) rows ->
  shape k d Z /\
  Forall (fun r => forall c, (c < d)%nat -> vdot (fst r) (col c Z) = at1 (snd r) c) rows.
Proof.
  induction k as [|k IH]; intros rows Z H Hn Hlen; simpl in H.
  - inversion H; subst. destruct rows; [|discriminate].
    split; [split; [reflexivity | constructor] | constructor].
  - destruct (find_pivot rows) as [[p others]|] eqn:Ep; [|discriminate].
    destruct (find_pivot_some _ _ _ Ep) as [Hp Hperm].
    destruct (gauss k (map (eliminate p) others)) as [Z'|] eqn:Eg; [|discriminate].
    inversion H; subst Z; clear H.
    assert (Hlen' : Forall (fun r => length (fst r) = S k /\ length (snd r) = d) (p :: others))
      by (eapply Permutation_Forall; eassumption).
    inversion Hlen' as [|? ? Hp12 Hothers]; subst. destruct Hp12 as [Hp1 Hp2].
    assert (Hno : length others = k).
    { apply Permutation_length in Hperm. simpl in Hperm. lia. }
    destruct (IH (map (eliminate p) others) Z' Eg) as [[HZl HZr] Heq].
    { now rewrite length_map. }
    { apply Forall_forall. intros r' Hr'. apply in_map_iff in Hr' as (r & <- & Hr).
      rewrite Forall_forall in Hothers. destruct (Hothers r Hr).
      now apply eliminate_lengths. }
    assert (HZb : Forall (fun z => length z = length (snd p)) Z')
      by (rewrite Hp2; exact HZr).
    split.
    + split; [simpl; lia|]. constructor; [|assumption].
      rewrite vscale_length, sub_combo_length; assumption.
    + eapply Permutation_Forall; [apply Permutation_sym; exact Hperm|].
      destruct p as [[|hp tp] bp]; [discriminate|]. simpl in *.
      assert (Hz0 : forall c, (c < d)%nat ->
                at1 (vscale (/ hp) (sub_combo bp tp Z')) c
                = / hp * (at1 bp c - vdot tp (col c Z'))).
      { intros c Hc. rewrite at1_vscale, at1_sub_combo; [reflexivity | assumption | lia]. }
      constructor.
      * intros c Hc. simpl. rewrite vdot_cons.
        fold (at1 (vscale (/ hp) (sub_combo bp tp Z')) c). rewrite Hz0 by assumption.
        field. assumption.
      * apply Forall_forall. intros r Hr c Hc.
        rewrite Forall_forall in Hothers. destruct (Hothers r Hr) as [Hr1 Hr2].
        rewrite Forall_forall in Heq.
        specialize (Heq (eliminate (hp :: tp, bp) r) (in_map _ _ _ Hr) c Hc).
        destruct r as [[|hr tr] br]; [discriminate|]. simpl in *.
        unfold eliminate in Heq. simpl in Heq.
        rewrite vdot_vsub, vdot_vscale in Heq by (rewrite vscale_length; lia).
        rewrite at1_vsub, at1_vscale in Heq by (rewrite ?vscale_length; lia).
        rewrite vdot_cons.
        fold (at1 (vscale (/ hp) (sub_combo bp tp Z')) c). rewrite Hz0 by assumption.
        apply (Rmult_eq_reg_l hp); [|assumption].
        replace (vdot tr (col c Z')) with
          (at1 br c - hr / hp * at1 bp c + hr / hp * vdot tp (col c Z')) by lra.
        field. assumption.
Qed.

Lemma gauss_complete k : forall rows,
  length rows = k ->
  Forall (fun r => length (fst r) = k) rows ->
  (forall v, length v = k -> in_kernel rows v -> Forall (fun t => t = 0) v) ->
  gauss k rows <> None.
Proof.
  induction k as [|k IH]; intros rows Hn Hlen Hker; simpl; [discriminate|].
  destruct (find_pivot rows) as [[p others]|] eqn:Ep.
  - destruct (find_pivot_some _ _ _ Ep) as [Hp Hperm].
    assert (Hlen' : Forall (fun r => length (fst r) = S k) (p :: others))
      by (eapply Permutation_Forall; eassumption).
    inversion Hlen' as [|? ? Hp1 Hothers]; subst.
    assert (Hno : length others = k).
    { apply Permutation_length in Hperm. simpl in Hperm. lia. }
    destruct p as [[|hp tp] bp]; [discriminate|]. simpl in *.
    assert (Hsub : gauss k (map (eliminate (hp :: tp, bp)) others) <> None).
    { apply IH.
      - now rewrite length_map.
      - apply Forall_forall. intros r' Hr'. apply in_map_iff in Hr' as (r & <- & Hr).
        rewrite Forall_forall in Hothers. specialize (Hothers r Hr).
        destruct r as [[|hr tr] br]; [discriminate|]. unfold eliminate. simpl in *.
        rewrite vsub_length; rewrite ?vscale_length; lia.
      - intros v' Hv' Hk'.
        assert (Hk : in_kernel rows ((- vdot tp v' / hp) :: v')).
        { unfold in_kernel. eapply Permutation_Forall; [apply Permutation_sym; exact Hperm|].
          constructor.
          - simpl. rewrite vdot_cons. field. assumption.
          - apply Forall_forall. intros r Hr.
            unfold in_kernel in Hk'. rewrite Forall_forall in Hk'.
            specialize (Hk' _ (in_map (eliminate (hp :: tp, bp)) _ _ Hr)).
            rewrite Forall_forall in Hothers. specialize (Hothers r Hr).
            destruct r as [[|hr tr] br]; [discriminate|]. unfold eliminate in Hk'. simpl in *.
            rewrite vdot_vsub, vdot_vscale in Hk' by (rewrite vscale_length; lia).
            rewrite vdot_cons.
            replace (vdot tr v') with (hr / hp * vdot tp v') by lra.
            field. assumption. }
        assert (Hl : length ((- vdot tp v' / hp) :: v') = S k) by (simpl; lia).
        specialize (Hker _ Hl Hk). now inversion Hker. }
    destruct (gauss k (map (eliminate (hp :: tp, bp)) others)); [discriminate | contradiction].
  - exfalso. apply find_pivot_none in Ep.
    assert (Hk : in_kernel rows (1 :: repeat 0 k)).
    { unfold in_kernel. apply Forall_forall. intros r Hr.
      rewrite Forall_forall in Ep, Hlen. specialize (Ep r Hr). specialize (Hlen r Hr).
      destruct r as [[|hr tr] br]; [discriminate|]. simpl in *.
      rewrite vdot_cons, vdot_zeros. lra. }
    assert (Hl : length (1 :: repeat 0 k) = S k) by (simpl; rewrite repeat_length; lia).
    specialize (Hker _ Hl Hk).
    inversion Hker. lra.
Qed.

Lemma solve_sound a b Z k d :
  shape k k a -> shape k d b -> solve a b = Ok Z ->
  shape k d Z /\ dot a Z d = b.
Proof.
  intros [Ha1 Ha2] [Hb1 Hb2] H. unfold solve in H.
  destruct (gauss (length a) (combine a b)) as [Z0|] eqn:E; [|discriminate].
  inversion H; subst Z0; clear H. rewrite Ha1 in E.
  destruct (gauss_sound d k _ _ E) as [HZ Heq].
  - rewrite length_combine. lia.
  - apply Forall_forall. intros [x y] Hin. simpl.
    rewrite Forall_forall in Ha2, Hb2.
    split; [eapply Ha2, in_combine_l | eapply Hb2, in_combine_r]; eassumption.
  - split; [assumption|].
    apply (matrix_ext k d).
    + rewrite <- Ha1 at 1. apply dot_shape.
    + split; assumption.
    + intros i j Hi Hj. rewrite at2_dot by lia.
      rewrite Forall_forall in Heq.
      specialize (Heq (nth i a [], nth i b [])).
      simpl in Heq. apply Heq; [|assumption].
      rewrite <- combine_nth by lia. apply nth_In. rewrite length_combine. lia.
Qed.

Lemma solve_complete a b k :
  shape k k a -> length b = k ->
  (forall v, length v = k ->
     (forall i, (i < k)%nat -> vdot (nth i a []) v = 0) -> Forall (fun t => t = 0) v) ->
  exists Z, solve a b = Ok Z.
Proof.
  intros [Ha1 Ha2] Hb Hker. unfold solve.
  destruct (gauss (length a) (combine a b)) as [Z|] eqn:E; [eauto|].
  exfalso. revert E. rewrite Ha1. apply gauss_complete.
  - rewrite length_combine. lia.
  - apply Forall_forall. intros [x y] Hin. simpl.
    rewrite Forall_forall in Ha2. eapply Ha2, in_combine_l; eassumption.
  - intros v Hv Hk. apply Hker; [assumption|]. intros i Hi.
    unfold in_kernel in Hk. rewrite Forall_forall in Hk.
    specialize (Hk (nth i a [], nth i b [])). simpl in Hk. apply Hk.
    rewrite <- combine_nth by lia. apply nth_In. rewrite length_combine. lia.
Qed.

(** ** Shapes and entries of the array operations *)

Lemma shape_length r c A : shape r c A -> length A = r.
Proof. now intros [H _]. Qed.

Lemma at2_row A i j : at2 A i j = at1 (nth i A []) j.
Proof. reflexivity. Qed.

Lemma mmap_shape f r c A : shape r c A -> shape r c (mmap f A).
Proof.
  intros [Hl Hf]. split.
  - unfold mmap. now rewrite length_map.
  - unfold mmap. apply Forall_forall. intros row Hrow.
    apply in_map_iff in Hrow as (a & <- & Ha). rewrite length_map.
    rewrite Forall_forall in Hf. now apply Hf.
Qed.

Lemma at2_mmap f r c A i j :
  shape r c A -> (i < r)%nat -> (j < c)%nat ->
  at2 (mmap f A) i j = f (at2 A i j).
Proof.
  intros HA Hi Hj. unfold at2, mmap.
  rewrite (nth_map_in _ _ _ []) by (destruct HA; lia).
  rewrite (nth_map_in _ _ _ 0); [reflexivity|].
  now rewrite (shape_row r c A).
Qed.

Lemma mmap2_shape f r c A B : shape r c A -> shape r c B -> shape r c (mmap2 f A B).
Proof.
  intros [Hl Hf] [Hl' Hf']. split.
  - unfold mmap2. rewrite map2_length. lia.
  - unfold mmap2, map2. apply Forall_forall. intros row Hrow.
    apply in_map_iff in Hrow as ([a b] & <- & Hab). simpl.
    fold (map2 f a b). rewrite map2_length.
    rewrite Forall_forall in Hf, Hf'.
    rewrite (Hf a), (Hf' b); [lia | eapply in_combine_r | eapply in_combine_l]; eassumption.
Qed.

Lemma at2_mmap2 f r c A B i j :
  shape r c A -> shape r c B -> (i < r)%nat -> (j < c)%nat ->
  at2 (mmap2 f A B) i j = f (at2 A i j) (at2 B i j).
Proof.
  intros HA HB Hi Hj. unfold at2, mmap2.
  rewrite (nth_map2 (map2 f) A B i [] [] []) by (destruct HA, HB; lia).
  apply nth_map2; [rewrite (shape_row r c A) | rewrite (shape_row r c B)]; assumption.
Qed.

Lemma mat_row_shape f r c A v : shape r c A -> length v = c -> shape r c (mat_row f A v).
Proof.
  intros [Hl Hf] Hv. split.
  - unfold mat_row. now rewrite length_map.
  - unfold mat_row. apply Forall_forall. intros row Hrow.
    apply in_map_iff in Hrow as (a & <- & Ha). rewrite map2_length.
    rewrite Forall_forall in Hf. rewrite (Hf a Ha). lia.
Qed.

Lemma at2_mat_row f r c A v i j :
  shape r c A -> length v = c -> (i < r)%nat -> (j < c)%nat ->
  at2 (mat_row f A v) i j = f (at2 A i j) (at1 v j).
Proof.
  intros HA Hv Hi Hj. unfold at2, mat_row.
  rewrite (nth_map_in _ _ _ []) by (destruct HA; lia).
  apply nth_map2; [rewrite (shape_row r c A) | ]; try assumption. lia.
Qed.

Lemma shape_ncols n d x : shape n d x -> (1 <= n)%nat -> ncols x = d.
Proof.
  intros [Hl Hf] Hn. destruct x as [|r x]; [simpl in Hl; lia|].
  simpl. now inversion Hf.
Qed.

Lemma at2_center x mu n d l i :
  shape n d x -> length mu = d -> (l < n)%nat -> (i < d)%nat ->
  at2 (center x mu) l i = at2 x l i - at1 mu i.
Proof. intros. unfold center. now apply (at2_mat_row Rminus n d). Qed.

Lemma center_shape x mu n d : shape n d x -> length mu = d -> shape n d (center x mu).
Proof. intros. unfold center. now apply mat_row_shape. Qed.

Lemma row_col_shape f row colv : shape (length colv) (length row) (row_col f row colv).
Proof.
  split.
  - unfold row_col. now rewrite length_map.
  - unfold row_col. apply Forall_forall. intros r Hr.
    apply in_map_iff in Hr as (a & <- & Ha). now rewrite length_map.
Qed.

Lemma at2_row_col f row colv i j :
  (i < length colv)%nat -> (j < length row)%nat ->
  at2 (row_col f row colv) i j = f (at1 row j) (at1 colv i).
Proof.
  intros Hi Hj. unfold at2, row_col, at1.
  rewrite (nth_map_in _ _ _ 0) by assumption.
  now rewrite (nth_map_in _ _ _ 0).
Qed.

Lemma eye_shape k : shape k k (eye k).
Proof.
  split.
  - unfold eye. now rewrite length_map, length_seq.
  - unfold eye. apply Forall_forall. intros r Hr.
    apply in_map_iff in Hr as (a & <- & Ha). now rewrite length_map, length_seq.
Qed.

Lemma at2_eye k i j :
  (i < k)%nat -> (j < k)%nat -> at2 (eye k) i j = if Nat.eqb i j then 1 else 0.
Proof.
  intros Hi Hj. unfold at2, eye.
  rewrite (nth_map_seq (fun i => map (fun j => if Nat.eqb i j then 1 else 0) (seq 0 k))) by assumption.
  now rewrite (nth_map_seq (fun j => if Nat.eqb i j then 1 else 0)).
Qed.

Lemma diag_length A : length (diag A) = length A.
Proof. unfold diag. now rewrite length_map, length_seq. Qed.

Lemma at1_diag A j : (j < length A)%nat -> at1 (diag A) j = at2 A j j.
Proof. intros H. unfold at1, diag. now rewrite (nth_map_seq (fun i => at2 A i i)). Qed.

Lemma transpose_shape' r c A : shape r c A -> shape c r (transpose c A).
Proof. intros [Hl _]. rewrite <- Hl. apply transpose_shape. Qed.

Lemma dot_shape' r k c A B : shape r k A -> shape r c (dot A B c).
Proof. intros [Hl _]. rewrite <- Hl. apply dot_shape. Qed.

Lemma zero_at_length i r : length (zero_at i r) = length r.
Proof.
  revert i. induction r as [|a r IH]; intros [|i]; simpl; auto.
Qed.

Lemma nth_zero_at i r j : nth j (zero_at i r) 0 = if Nat.eqb i j then 0 else nth j r 0.
Proof.
  revert i j. induction r as [|a r IH]; intros [|i] [|j]; simpl; auto.
  - now destruct (Nat.eqb i j).
Qed.

Lemma fill_diagonal_0_shape r c A : shape r c A -> shape r c (fill_diagonal_0 A).
Proof.
  intros [Hl Hf]. split.
  - unfold fill_diagonal_0. rewrite length_map, length_combine, length_seq. lia.
  - unfold fill_diagonal_0. apply Forall_forall. intros row Hrow.
    apply in_map_iff in Hrow as ([i a] & <- & Hia). simpl. rewrite zero_at_length.
    rewrite Forall_forall in Hf. eapply Hf, in_combine_r; eassumption.
Qed.

Lemma at2_fill_diagonal_0 A i j :
  (i < length A)%nat ->
  at2 (fill_diagonal_0 A) i j = if Nat.eqb i j then 0 else at2 A i j.
Proof.
  intros Hi. unfold at2, fill_diagonal_0.
  rewrite (nth_map_in _ _ _ (0%nat, []))
    by (rewrite length_combine, length_seq; lia).
  rewrite combine_nth by now rewrite length_seq.
  rewrite seq_nth by assumption. simpl. apply nth_zero_at.
Qed.

Lemma einsum_ij_ij_i_length A B : length A = length B -> length (einsum_ij_ij_i A B) = length A.
Proof. intros H. unfold einsum_ij_ij_i. rewrite map2_length. lia. Qed.

Lemma at1_einsum_ij_ij_i r c A B i :
  shape r c A -> shape r c B -> (i < r)%nat ->
  at1 (einsum_ij_ij_i A B) i = sum_n c (fun j => at2 A i j * at2 B i j).
Proof.
  intros HA HB Hi. unfold at1, einsum_ij_ij_i.
  rewrite (nth_map2 vdot A B i [] [] 0) by (destruct HA, HB; lia).
  apply vdot_sum_n; eapply shape_row; eauto.
Qed.

Lemma at1_einsum_li_li_i n c A B i :
  length A = n -> length B = n -> (i < c)%nat ->
  at1 (einsum_li_li_i c A B) i = sum_n n (fun l => at2 A l i * at2 B l i).
Proof.
  intros HA HB Hi. unfold at1, einsum_li_li_i.
  rewrite (nth_map_seq (fun i => vdot (col i A) (col i B))) by assumption.
  rewrite (vdot_sum_n _ _ n) by now rewrite col_length.
  apply sum_n_ext. intros l Hl. now rewrite !at1_col by lia.
Qed.

Lemma at1_einsum_ji_ij_i k c A B i :
  length A = k -> shape c k B -> (i < c)%nat ->
  at1 (einsum_ji_ij_i c A B) i = sum_n k (fun j => at2 A j i * at2 B i j).
Proof.
  intros HA HB Hi. unfold at1, einsum_ji_ij_i.
  rewrite (nth_map_seq (fun i => vdot (col i A) (nth i B []))) by assumption.
  rewrite (vdot_sum_n _ _ k).
  - apply sum_n_ext. intros j Hj. now rewrite at1_col by lia.
  - now rewrite col_length.
  - eapply shape_row; eauto.
Qed.

Lemma einsum_ir_i_is_i_rs_shape k A a B b : shape k k (einsum_ir_i_is_i_rs k A a B b).
Proof.
  split.
  - unfold einsum_ir_i_is_i_rs. now rewrite length_map, length_seq.
  - unfold einsum_ir_i_is_i_rs. apply Forall_forall. intros r Hr.
    apply in_map_iff in Hr as (q & <- & Hq). now rewrite length_map, length_seq.
Qed.

Lemma at2_einsum_ir_i_is_i_rs k n A a B b r s :
  length A = n -> length a = n -> length B = n -> length b = n ->
  (r < k)%nat -> (s < k)%nat ->
  at2 (einsum_ir_i_is_i_rs k A a B b) r s =
  sum_n n (fun i => at2 A i r * at1 a i * at2 B i s * at1 b i).
Proof.
  intros HA Ha HB Hb Hr Hs. unfold at2 at 1, einsum_ir_i_is_i_rs.
  rewrite (nth_map_seq (fun r => map _ (seq 0 k))) by assumption.
  rewrite (nth_map_seq (fun s => rsum _)) by assumption.
  rewrite rsum_sum_n, !map2_length, !col_length, HA, Ha, HB, Hb, !Nat.min_id.
  apply sum_n_ext. intros i Hi. unfold at1 at 1.
  rewrite (nth_map2 Rmult _ _ i 0 0 0) by (rewrite ?map2_length, ?col_length; lia).
  rewrite (nth_map2 Rmult _ _ i 0 0 0) by (rewrite ?map2_length, ?col_length; lia).
  rewrite (nth_map2 Rmult _ _ i 0 0 0) by (rewrite ?map2_length, ?col_length; lia).
  fold (at1 (col r A) i) (at1 (col s B) i). rewrite !at1_col by lia. reflexivity.
Qed.

(** ** The moment estimator *)

Lemma sum_n_bilinear n k (a : nat -> R) (M : nat -> nat -> R) (b : nat -> R) :
  sum_n n (fun i => a i * sum_n k (fun j => M i j * b j)) =
  sum_n k (fun j => sum_n n (fun i => a i * M i j) * b j).
Proof.
  rewrite (sum_n_ext n _ (fun i => sum_n k (fun j => a i * M i j * b j))).
  - rewrite sum_n_swap. apply sum_n_ext. intros j _. now rewrite sum_n_scal_r.
  - intros i _. rewrite <- sum_n_scal. apply sum_n_ext. intros j _. lra.
Qed.

Lemma latent_values_shape st x :
  shape (length x) (length (ws st)) (latent_values st x).
Proof. apply dot_shape. Qed.

Lemma at2_latent_values st x n l j :
  shape n (nv st) x -> shape (m st) (nv st) (ws st) ->
  (l < n)%nat -> (j < m st)%nat ->
  at2 (latent_values st x) l j = sum_n (nv st) (fun i => at2 x l i * at2 (ws st) j i).
Proof.
  intros Hx Hw Hl Hj. unfold latent_values.
  rewrite (at2_dot_sum n (nv st)); try assumption.
  - apply sum_n_ext. intros i Hi. now rewrite at2_transpose.
  - apply (shape_length _ _ _ (transpose_shape _ _)).
  - rewrite (shape_length _ _ _ Hw). assumption.
Qed.

Lemma cross_moment_shape st x :
  shape (m st) (nv st) (ws st) -> shape (nv st) (m st) (cross_moment st x).
Proof.
  intros Hw. unfold cross_moment. apply mmap_shape.
  rewrite (shape_length _ _ _ Hw).
  eapply dot_shape'. apply transpose_shape.
Qed.

Lemma at2_cross_moment st x n i j :
  shape n (nv st) x -> shape (m st) (nv st) (ws st) ->
  (i < nv st)%nat -> (j < m st)%nat ->
  at2 (cross_moment st x) i j =
  sum_n n (fun l => at2 x l i * at2 (latent_values st x) l j) / INR n.
Proof.
  intros Hx Hw Hi Hj. unfold cross_moment.
  rewrite (at2_mmap _ (nv st) (m st)); try assumption.
  - rewrite (shape_length _ _ _ (latent_values_shape st x)), (shape_length _ _ _ Hx).
    f_equal. rewrite (at2_dot_sum (nv st) n); try assumption.
    + apply sum_n_ext. intros l Hl. now rewrite at2_transpose.
    + rewrite <- (shape_length _ _ _ Hx). apply transpose_shape.
    + now rewrite (shape_length _ _ _ (latent_values_shape st x)), (shape_length _ _ _ Hx).
    + now rewrite (shape_length _ _ _ Hw).
  - rewrite (shape_length _ _ _ Hw). eapply dot_shape'. apply transpose_shape.
Qed.

Lemma latent_cov_shape st x :
  shape (m st) (nv st) (ws st) -> shape (m st) (m st) (latent_cov st x).
Proof.
  intros Hw. unfold latent_cov. apply mmap2_shape.
  - rewrite (shape_length _ _ _ Hw). eapply dot_shape'. exact Hw.
  - apply mmap_shape, eye_shape.
Qed.

Lemma at2_latent_cov st x r s :
  shape (m st) (nv st) (ws st) -> (r < m st)%nat -> (s < m st)%nat ->
  at2 (latent_cov st x) r s =
  sum_n (nv st) (fun i => at2 (ws st) r i * at2 (cross_moment st x) i s)
  + noise st ^ 2 * (if Nat.eqb r s then 1 else 0).
Proof.
  intros Hw Hr Hs. unfold latent_cov.
  rewrite (at2_mmap2 _ (m st) (m st)); try assumption.
  - rewrite (at2_dot_sum (m st) (nv st)); try assumption.
    + rewrite (at2_mmap _ (m st) (m st)), at2_eye; auto using eye_shape.
    + apply (shape_length _ _ _ (cross_moment_shape st x Hw)).
    + now rewrite (shape_length _ _ _ Hw).
  - rewrite (shape_length _ _ _ Hw). eapply dot_shape'. exact Hw.
  - apply mmap_shape, eye_shape.
Qed.

(** The quadratic form of the latent covariance: the mean square of the
    combined latent values plus the noise term. *)
Lemma latent_cov_quadratic st x n (v : nat -> R) :
  shape n (nv st) x -> shape (m st) (nv st) (ws st) ->
  sum_n (m st) (fun r => v r * sum_n (m st) (fun s => at2 (latent_cov st x) r s * v s)) =
  sum_n n (fun l => sum_n (m st) (fun r => v r * at2 (latent_values st x) l r)
                    * sum_n (m st) (fun r => v r * at2 (latent_values st x) l r)) / INR n
  + noise st ^ 2 * sum_n (m st) (fun r => v r * v r).
Proof.
  intros Hx Hw.
  set (Y := at2 (latent_values st x)).
  set (t := fun l => sum_n (m st) (fun r => v r * Y l r)).
  assert (Hrow : forall r, (r < m st)%nat ->
            sum_n (m st) (fun s => at2 (latent_cov st x) r s * v s)
            = sum_n n (fun l => Y l r * t l) / INR n + noise st ^ 2 * v r).
  { intros r Hr.
    rewrite (sum_n_ext _ _ (fun s =>
               sum_n (nv st) (fun i => at2 (ws st) r i * at2 (cross_moment st x) i s) * v s
               + noise st ^ 2 * ((if Nat.eqb r s then 1 else 0) * v s))).
    2:{ intros s Hs. rewrite at2_latent_cov by assumption. lra. }
    rewrite sum_n_plus, sum_n_scal, sum_n_delta by assumption. f_equal.
    rewrite <- (sum_n_bilinear (nv st) (m st) (at2 (ws st) r)
                  (fun i s => at2 (cross_moment st x) i s) v).
    rewrite (sum_n_ext (nv st) _ (fun i => at2 (ws st) r i * (sum_n n (fun l => at2 x l i * t l) / INR n))).
    2:{ intros i Hi. f_equal.
        rewrite (sum_n_ext _ _ (fun s =>
                   sum_n n (fun l => at2 x l i * Y l s) * (/ INR n * v s))).
        2:{ intros s Hs. rewrite (at2_cross_moment st x n) by assumption. fold Y.
            unfold Rdiv. lra. }
        rewrite <- (sum_n_bilinear n (m st) (fun l => at2 x l i) Y (fun s => / INR n * v s)).
        unfold Rdiv. rewrite <- sum_n_scal_r. apply sum_n_ext. intros l Hl.
        unfold t. rewrite Rmult_assoc. f_equal. rewrite <- sum_n_scal_r.
        apply sum_n_ext. intros s Hs. lra. }
    unfold Rdiv. rewrite <- sum_n_scal_r.
    rewrite (sum_n_ext (nv st) _ (fun i =>
               at2 (ws st) r i * sum_n n (fun l => at2 x l i * (t l * / INR n)))).
    2:{ intros i Hi. f_equal. rewrite <- sum_n_scal_r. apply sum_n_ext. intros l Hl. lra. }
    rewrite (sum_n_bilinear (nv st) n (at2 (ws st) r) (fun i l => at2 x l i)
               (fun l => t l * / INR n)).
    apply sum_n_ext. intros l Hl. unfold Y.
    rewrite (at2_latent_values st x n) by assumption.
    rewrite <- Rmult_assoc. f_equal. f_equal. apply sum_n_ext. intros i Hi. lra. }
  rewrite (sum_n_ext _ _ (fun r =>
             v r * (sum_n n (fun l => Y l r * (t l * / INR n))) + noise st ^ 2 * (v r * v r))).
  2:{ intros r Hr. rewrite Hrow by assumption. unfold Rdiv. rewrite <- sum_n_scal_r.
      rewrite (sum_n_ext n _ (fun l => Y l r * (t l * / INR n))); [lra|].
      intros l Hl. lra. }
  rewrite sum_n_plus, sum_n_scal. f_equal.
  rewrite (sum_n_bilinear (m st) n v (fun r l => Y l r) (fun l => t l * / INR n)).
  unfold Rdiv. rewrite <- sum_n_scal_r. apply sum_n_ext. intros l Hl.
  fold (t l). lra.
Qed.

Lemma inv_INR_nonneg n : 0 <= / INR n.
Proof.
  destruct n as [|n].
  - simpl. rewrite Rinv_0. lra.
  - left. apply Rinv_0_lt_compat. apply lt_0_INR. lia.
Qed.

Lemma quad_form_sum k A v :
  shape k k A -> length v = k ->
  quad_form A v = sum_n k (fun r => at1 v r * sum_n k (fun s => at2 A r s * at1 v s)).
Proof.
  intros HA Hv. unfold quad_form, mat_vec.
  rewrite (vdot_sum_n _ _ k); [|assumption|rewrite length_map; now destruct HA].
  apply sum_n_ext. intros r Hr. f_equal. unfold at1 at 1.
  rewrite (nth_map_in _ _ _ []) by (destruct HA; lia).
  apply vdot_sum_n; [eapply shape_row; eauto | assumption].
Qed.

Lemma nonzero_sum_sq v : nonzero v -> 0 < sum_n (length v) (fun r => at1 v r * at1 v r).
Proof.
  intros H.
  assert (Hge : 0 <= sum_n (length v) (fun r => at1 v r * at1 v r))
    by (apply sum_n_nonneg; intros; nra).
  destruct Hge as [Hgt|Heq]; [assumption|].
  exfalso. unfold nonzero in H. apply Exists_exists in H as (t & Hin & Ht).
  apply (In_nth _ _ 0) in Hin as (i & Hi & <-).
  apply Ht. symmetry in Heq. exact (sum_n_sq_zero _ (at1 v) Heq i Hi).
Qed.

Lemma not_nonzero_zero v : ~ nonzero v -> Forall (fun t => t = 0) v.
Proof.
  intros H. apply Forall_forall. intros t Ht.
  destruct (Req_dec_T t 0) as [|Hne]; [assumption|].
  exfalso. apply H. apply Exists_exists. eauto.
Qed.

Lemma latent_cov_quad_form st x n v :
  shape n (nv st) x -> shape (m st) (nv st) (ws st) -> length v = m st ->
  quad_form (latent_cov st x) v =
  sum_n n (fun l => sum_n (m st) (fun r => at1 v r * at2 (latent_values st x) l r)
                    * sum_n (m st) (fun r => at1 v r * at2 (latent_values st x) l r)) / INR n
  + noise st ^ 2 * sum_n (m st) (fun r => at1 v r * at1 v r).
Proof.
  intros Hx Hw Hv.
  rewrite (quad_form_sum (m st)) by auto using latent_cov_shape.
  now apply latent_cov_quadratic.
Qed.

Lemma latent_cov_positive_definite st x n :
  shape n (nv st) x -> shape (m st) (nv st) (ws st) -> noise st <> 0 ->
  positive_definite (m st) (latent_cov st x).
Proof.
  intros Hx Hw Hs v Hv Hnz.
  rewrite (latent_cov_quad_form st x n) by assumption.
  assert (H1 : 0 <= sum_n n (fun l =>
                  sum_n (m st) (fun r => at1 v r * at2 (latent_values st x) l r)
                  * sum_n (m st) (fun r => at1 v r * at2 (latent_values st x) l r)) / INR n).
  { apply Rmult_le_pos; [|apply inv_INR_nonneg]. apply sum_n_nonneg. intros. nra. }
  assert (H2 : 0 < sum_n (m st) (fun r => at1 v r * at1 v r))
    by (rewrite <- Hv; now apply nonzero_sum_sq).
  assert (H3 : 0 < noise st ^ 2) by (simpl; nra).
  nra.
Qed.

Lemma latent_cov_symmetric st x n :
  shape n (nv st) x -> shape (m st) (nv st) (ws st) ->
  symmetric (m st) (latent_cov st x).
Proof.
  intros Hx Hw r s Hr Hs.
  assert (Hgram : forall a b, (a < m st)%nat -> (b < m st)%nat ->
            sum_n (nv st) (fun i => at2 (ws st) a i * at2 (cross_moment st x) i b)
            = sum_n n (fun l => at2 (latent_values st x) l a * at2 (latent_values st x) l b) / INR n).
  { intros a b Ha Hb.
    rewrite (sum_n_ext _ _ (fun i => at2 (ws st) a i *
               sum_n n (fun l => at2 x l i * (at2 (latent_values st x) l b * / INR n)))).
    2:{ intros i Hi. f_equal. rewrite (at2_cross_moment st x n) by assumption.
        unfold Rdiv. rewrite <- sum_n_scal_r. apply sum_n_ext. intros l Hl. lra. }
    rewrite (sum_n_bilinear (nv st) n (at2 (ws st) a) (fun i l => at2 x l i)).
    unfold Rdiv. rewrite <- sum_n_scal_r. apply sum_n_ext. intros l Hl.
    rewrite (at2_latent_values st x n l a) by assumption.
    rewrite <- Rmult_assoc. f_equal. f_equal. apply sum_n_ext. intros i Hi. lra. }
  rewrite !at2_latent_cov, !Hgram by assumption.
  rewrite (Nat.eqb_sym s r). f_equal. f_equal. apply sum_n_ext. intros l Hl. lra.
Qed.

Lemma positive_definite_kernel k A v :
  shape k k A -> positive_definite k A -> length v = k ->
  (forall i, (i < k)%nat -> vdot (nth i A []) v = 0) ->
  Forall (fun t => t = 0) v.
Proof.
  intros HA Hpd Hv Hk. apply not_nonzero_zero. intros Hnz.
  specialize (Hpd v Hv Hnz).
  rewrite (quad_form_sum k) in Hpd by assumption.
  rewrite (sum_n_ext k _ (fun _ => 0)) in Hpd.
  - rewrite sum_n_zero in Hpd. lra.
  - intros r Hr. specialize (Hk r Hr).
    rewrite (vdot_sum_n _ _ k) in Hk; [|eapply shape_row; eauto|assumption].
    change (at1 v r * sum_n k (fun s => at1 (nth r A []) s * at1 v s) = 0).
    rewrite Hk. lra.
Qed.

Lemma positive_definite_solve k d A b :
  shape k k A -> positive_definite k A -> shape k d b ->
  exists Z, solve A b = Ok Z /\ shape k d Z /\ dot A Z d = b.
Proof.
  intros HA Hpd Hb.
  destruct (solve_complete A b k HA (shape_length _ _ _ Hb)) as [Z HZ].
  - intros v Hv Hk. eapply positive_definite_kernel; eauto.
  - exists Z. split; [assumption|]. eapply solve_sound; eauto.
Qed.

Lemma positive_definite_eigenvalue k A mu :
  shape k k A -> positive_definite k A -> eigenvalue k A mu -> 0 < mu.
Proof.
  intros HA Hpd (v & Hv & Hnz & He).
  specialize (Hpd v Hv Hnz). unfold quad_form in Hpd. rewrite He in Hpd.
  assert (Hsq : 0 < sum_n (length v) (fun r => at1 v r * at1 v r)) by now apply nonzero_sum_sq.
  rewrite (vdot_sum_n _ _ k) in Hpd; [|assumption|now rewrite vscale_length].
  rewrite (sum_n_ext k _ (fun r => mu * (at1 v r * at1 v r))) in Hpd.
  - rewrite sum_n_scal, <- Hv in Hpd. nra.
  - intros r Hr. rewrite at1_vscale. lra.
Qed.

Lemma calculate_moments_total st x n :
  shape n (nv st) x -> shape (m st) (nv st) (ws st) -> noise st <> 0 ->
  exists z,
    solve (latent_cov st x) (transpose (length (ws st)) (cross_moment st x)) = Ok z /\
    shape (m st) (nv st) z /\
    dot (latent_cov st x) z (nv st) = transpose (m st) (cross_moment st x).
Proof.
  intros Hx Hw Hs.
  rewrite (shape_length _ _ _ Hw).
  apply positive_definite_solve.
  - now apply latent_cov_shape.
  - now apply (latent_cov_positive_definite st x n).
  - apply transpose_shape', cross_moment_shape. assumption.
Qed.

Lemma variance_entry_length st x : cache_ok st -> length (variance_entry st x) = nv st.
Proof.
  unfold cache_ok, variance_entry, variance_of. intros Hc.
  destruct (moments st); [assumption|].
  unfold einsum_li_li_i. now rewrite !length_map, length_seq.
Qed.

(** The Gram matrix of the latent values, through the cross moment. *)
Lemma latent_gram st x n a b :
  shape n (nv st) x -> shape (m st) (nv st) (ws st) ->
  (a < m st)%nat -> (b < m st)%nat ->
  sum_n (nv st) (fun i => at2 (ws st) a i * at2 (cross_moment st x) i b)
  = sum_n n (fun l => at2 (latent_values st x) l a * at2 (latent_values st x) l b) / INR n.
Proof.
  intros Hx Hw Ha Hb.
  rewrite (sum_n_ext _ _ (fun i => at2 (ws st) a i *
             sum_n n (fun l => at2 x l i * (at2 (latent_values st x) l b * / INR n)))).
  2:{ intros i Hi. f_equal. rewrite (at2_cross_moment st x n) by assumption.
      unfold Rdiv. rewrite <- sum_n_scal_r. apply sum_n_ext. intros l Hl. lra. }
  rewrite (sum_n_bilinear (nv st) n (at2 (ws st) a) (fun i l => at2 x l i)).
  unfold Rdiv. rewrite <- sum_n_scal_r. apply sum_n_ext. intros l Hl.
  rewrite (at2_latent_values st x n l a) by assumption.
  rewrite <- Rmult_assoc. f_equal. f_equal. apply sum_n_ext. intros i Hi. lra.
Qed.

Lemma at1_variance_of x n d i :
  length x = n -> (i < d)%nat ->
  at1 (variance_of d x) i = sum_n n (fun l => at2 x l i * at2 x l i) / INR n.
Proof.
  intros Hx Hi. unfold variance_of, at1.
  rewrite (nth_map_in _ _ _ 0) by (unfold einsum_li_li_i; now rewrite length_map, length_seq).
  rewrite Hx. f_equal. now apply at1_einsum_li_li_i.
Qed.

(** ** C2 and C8: the bundle of the moment estimator *)

(** C2 (as amended).  For data [x] (n by d, n at least 1) and weights (m by
    d), [_calculate_moments] returns exactly when its linear solve of
    [cov Z = C^T] does, and raises nothing but the [LinAlgError] of that
    solve.  Every bundle it returns satisfies: the variance entry is the
    cached one when the model holds moments and [(1/n) sum_l X_{l,i}^2]
    otherwise; [Y = X W^T]; [C_{i,j} = (1/n) sum_l X_{l,i} Y_{l,j}];
    [cov = W C + sigma^2 I_m]; the stored cleaned cross-moment is the
    transpose of the [Z] returned by the solve (and that [Z] solves the
    system); [resid_i = var_i - sum_j Z_{j,i} C_{i,j}] over that variance
    entry; and the latent second moments are the diagonal of [cov]. *)
Theorem calculate_moments_bundle st x n :
  shape n (nv st) x -> (1 <= n)%nat -> shape (m st) (nv st) (ws st) -> cache_ok st ->
  ((exists mo, _calculate_moments st x = Ok mo) <->
   (exists Z, solve (latent_cov st x) (transpose (m st) (cross_moment st x)) = Ok Z)) /\
  (forall e, _calculate_moments st x = Raise e ->
     e = LinAlgError /\
     solve (latent_cov st x) (transpose (m st) (cross_moment st x)) = Raise LinAlgError) /\
  forall mo, _calculate_moments st x = Ok mo ->
  exists Z,
    (moments st = None ->
     forall i, (i < nv st)%nat ->
       at1 (X_i2 mo) i = 1 / INR n * sum_n n (fun l => at2 x l i * at2 x l i)) /\
    (forall mo0, moments st = Some mo0 -> X_i2 mo = X_i2 mo0) /\
    length (X_i2 mo) = nv st /\
    (forall l j, (l < n)%nat -> (j < m st)%nat ->
       at2 (latent_values st x) l j = sum_n (nv st) (fun i => at2 x l i * at2 (ws st) j i)) /\
    (forall i j, (i < nv st)%nat -> (j < m st)%nat ->
       at2 (X_i_Y_j mo) i j
       = 1 / INR n * sum_n n (fun l => at2 x l i * at2 (latent_values st x) l j)) /\
    (forall r s, (r < m st)%nat -> (s < m st)%nat ->
       at2 (cy mo) r s
       = sum_n (nv st) (fun i => at2 (ws st) r i * at2 (X_i_Y_j mo) i s)
         + noise st ^ 2 * (if Nat.eqb r s then 1 else 0)) /\
    solve (cy mo) (transpose (m st) (X_i_Y_j mo)) = Ok Z /\
    shape (m st) (nv st) Z /\
    dot (cy mo) Z (nv st) = transpose (m st) (X_i_Y_j mo) /\
    X_i_Z_j mo = transpose (nv st) Z /\
    (forall i, (i < nv st)%nat ->
       at1 (X_i2_given_Y mo) i
       = at1 (X_i2 mo) i - sum_n (m st) (fun j => at2 Z j i * at2 (X_i_Y_j mo) i j)) /\
    (forall j, (j < m st)%nat -> at1 (Y_j2 mo) j = at2 (cy mo) j j).
Proof.
  intros Hx Hn Hw Hc.
  assert (Hlw : length (ws st) = m st) by exact (shape_length _ _ _ Hw).
  split.
  { unfold _calculate_moments. rewrite Hlw. split.
    - intros (mo & Hmo). destruct (solve _ _) as [Z|e]; [eauto | discriminate].
    - intros (Z & HZ). rewrite HZ. cbn [bind]. eauto. }
  split.
  { intros e He. unfold _calculate_moments in He. rewrite Hlw in He.
    unfold solve in *. destruct (gauss _ _); cbn [bind] in He; [discriminate|].
    inversion He. auto. }
  intros mo Hmo.
  unfold _calculate_moments in Hmo.
  destruct (solve (latent_cov st x) (transpose (length (ws st)) (cross_moment st x)))
    as [Z|e] eqn:Hsolve; [|discriminate].
  cbn [bind] in Hmo. inversion Hmo; subst mo; clear Hmo. cbn [X_i2 X_i_Y_j cy X_i_Z_j X_i2_given_Y Y_j2].
  rewrite Hlw in Hsolve.
  destruct (solve_sound _ _ Z (m st) (nv st) (latent_cov_shape st x Hw)
              (transpose_shape' _ _ _ (cross_moment_shape st x Hw)) Hsolve) as (HZ & Hdot).
  assert (Hvar := variance_entry_length st x Hc).
  exists Z.
  split.
  { intros Hnone i Hi. unfold variance_entry. rewrite Hnone.
    rewrite (at1_variance_of x n) by (try assumption; now destruct Hx).
    unfold Rdiv. lra. }
  split.
  { intros mo0 Hsome. unfold variance_entry. now rewrite Hsome. }
  split; [exact Hvar|].
  split; [intros l j Hl Hj; now apply (at2_latent_values st x n)|].
  split.
  { intros i j Hi Hj. rewrite (at2_cross_moment st x n) by assumption. unfold Rdiv. lra. }
  split; [intros r s Hr Hs'; now apply at2_latent_cov|].
  split; [assumption|]. split; [assumption|]. split; [assumption|].
  split; [reflexivity|].
  split.
  { intros i Hi.
    rewrite at1_vsub.
    + f_equal. rewrite (at1_einsum_ij_ij_i (nv st) (m st)); try assumption.
      * apply sum_n_ext. intros j Hj. now rewrite at2_transpose.
      * now apply transpose_shape'.
      * now apply cross_moment_shape.
    + now rewrite Hvar.
    + rewrite einsum_ij_ij_i_length.
      * now rewrite (shape_length _ _ _ (transpose_shape _ _)).
      * rewrite (shape_length _ _ _ (transpose_shape _ _)).
        now rewrite (shape_length _ _ _ (cross_moment_shape st x Hw)). }
  intros j Hj. apply at1_diag.
  now rewrite (shape_length _ _ _ (latent_cov_shape st x Hw)).
Qed.

Lemma calculate_moments_bundle_witness :
  exists mo Z,
    _calculate_moments (model_1 1) data_pm1 = Ok mo /\
    (forall i, (i < 1)%nat ->
       at1 (X_i2 mo) i = 1 / INR 2 * sum_n 2 (fun l => at2 data_pm1 l i * at2 data_pm1 l i)) /\
    solve (cy mo) (transpose 1 (X_i_Y_j mo)) = Ok Z /\
    dot (cy mo) Z 1 = transpose 1 (X_i_Y_j mo).
Proof.
  destruct (calculate_moments_bundle (model_1 1) data_pm1 2) as (Hiff & _ & Hall).
  - split; [reflexivity | repeat constructor].
  - lia.
  - split; [reflexivity | repeat constructor].
  - exact I.
  - destruct (calculate_moments_total (model_1 1) data_pm1 2) as (Z0 & HZ0 & _).
    + split; [reflexivity | repeat constructor].
    + split; [reflexivity | repeat constructor].
    + simpl. lra.
    + destruct Hiff as (_ & Hex). destruct Hex as (mo & Hmo); [exists Z0; exact HZ0|].
      destruct (Hall mo Hmo) as (Z & H1 & _ & _ & _ & _ & _ & H7 & _ & H9 & _).
      exists mo, Z. split; [exact Hmo|]. split; [apply H1; reflexivity|].
      split; assumption.
Defined.

(** C2, the specification's statement fails where it says the estimator returns
    for every data and weight matrix: with a zero noise level and all-zero
    data the latent covariance is [[0]] and the linear solve raises. *)
Lemma calculate_moments_singular_raises :
  noise (model_1 0) = 0 /\
  shape 1 (nv (model_1 0)) [[0]] /\
  shape (m (model_1 0)) (nv (model_1 0)) (ws (model_1 0)) /\
  latent_cov (model_1 0) [[0]] = [[0]] /\
  _calculate_moments (model_1 0) [[0]] = Raise LinAlgError.
Proof.
  split; [reflexivity|].
  split; [split; [reflexivity | repeat constructor]|].
  split; [split; [reflexivity | repeat constructor]|].
  assert (Hcov : latent_cov (model_1 0) [[0]] = [[0]]).
  { unfold latent_cov, cross_moment, latent_values, dot, mmap, mmap2, map2, vdot,
      transpose, col, eye. simpl. f_equal. f_equal. lra. }
  split; [exact Hcov|].
  unfold _calculate_moments. rewrite Hcov. unfold solve. simpl.
  destruct (Req_dec_T 0 0) as [_|Hne]; [reflexivity | exfalso; apply Hne; reflexivity].
Qed.

(** C8 (as amended).  For every data matrix (n by d, n at least 1) and
    weight matrix the latent covariance [cov = W C + sigma^2 I_m] is
    symmetric and is the Gram matrix of the latent values plus the noise
    term, [cov_{r,s} = (1/n) sum_l Y_{l,r} Y_{l,s} + sigma^2 [r = s]]; its
    quadratic form is [v^T cov v = (1/n) sum_l (v . Y_l)^2 + sigma^2 |v|^2],
    a sum of two terms neither of which is negative.  So [cov] is positive
    semidefinite, and its quadratic form vanishes at [sigma = 0] as soon as
    the latent values are linearly dependent, which needs no rank-deficient
    weight matrix. *)
Theorem latent_cov_symmetric_psd st x n :
  shape n (nv st) x -> (1 <= n)%nat -> shape (m st) (nv st) (ws st) ->
  symmetric (m st) (latent_cov st x) /\
  (forall r s, (r < m st)%nat -> (s < m st)%nat ->
     at2 (latent_cov st x) r s
     = sum_n n (fun l => at2 (latent_values st x) l r * at2 (latent_values st x) l s) / INR n
       + noise st ^ 2 * (if Nat.eqb r s then 1 else 0)) /\
  (forall v, length v = m st ->
     quad_form (latent_cov st x) v
     = sum_n n (fun l => sum_n (m st) (fun r => at1 v r * at2 (latent_values st x) l r)
                         * sum_n (m st) (fun r => at1 v r * at2 (latent_values st x) l r))
       / INR n
       + noise st ^ 2 * sum_n (m st) (fun r => at1 v r * at1 v r) /\
     0 <= sum_n n (fun l => sum_n (m st) (fun r => at1 v r * at2 (latent_values st x) l r)
                            * sum_n (m st) (fun r => at1 v r * at2 (latent_values st x) l r))
          / INR n /\
     0 <= noise st ^ 2 * sum_n (m st) (fun r => at1 v r * at1 v r) /\
     0 <= quad_form (latent_cov st x) v) /\
  (noise st = 0 ->
   forall v, length v = m st ->
     (forall l, (l < n)%nat ->
        sum_n (m st) (fun r => at1 v r * at2 (latent_values st x) l r) = 0) ->
     quad_form (latent_cov st x) v = 0).
Proof.
  intros Hx Hn Hw.
  split; [now apply (latent_cov_symmetric st x n)|].
  split.
  { intros r s Hr Hs. rewrite at2_latent_cov by assumption.
    now rewrite (latent_gram st x n) by assumption. }
  split.
  { intros v Hv. split; [now apply latent_cov_quad_form|].
    rewrite (latent_cov_quad_form st x n) by assumption.
    assert (H1 : 0 <= sum_n n (fun l =>
                    sum_n (m st) (fun r => at1 v r * at2 (latent_values st x) l r)
                    * sum_n (m st) (fun r => at1 v r * at2 (latent_values st x) l r)) / INR n).
    { apply Rmult_le_pos; [|apply inv_INR_nonneg]. apply sum_n_nonneg. intros. nra. }
    assert (H2 : 0 <= noise st ^ 2 * sum_n (m st) (fun r => at1 v r * at1 v r)).
    { apply Rmult_le_pos; [simpl; nra|]. apply sum_n_nonneg. intros. nra. }
    split; [exact H1|]. split; [exact H2 | lra]. }
  intros Hs v Hv Hker.
  rewrite (latent_cov_quad_form st x n) by assumption.
  rewrite Hs. rewrite (sum_n_ext n _ (fun _ => 0)).
  - rewrite sum_n_zero. simpl. lra.
  - intros l Hl. rewrite (Hker l Hl). lra.
Qed.

Lemma latent_cov_symmetric_psd_witness :
  symmetric 1 (latent_cov (model_1 1) data_pm1) /\
  0 <= quad_form (latent_cov (model_1 1) data_pm1) [1].
Proof.
  destruct (latent_cov_symmetric_psd (model_1 1) data_pm1 2) as (Hsym & _ & Hq & _).
  - split; [reflexivity | repeat constructor].
  - lia.
  - split; [reflexivity | repeat constructor].
  - split; [exact Hsym|]. apply (Hq [1]). reflexivity.
Defined.

(** C8, the specification's statement fails in its last clause: with a zero noise
    level the latent covariance of the all-zero data is not positive
    definite although the weight matrix [[1]] has full rank. *)
Lemma latent_cov_zero_noise_full_rank :
  noise (model_1 0) = 0 /\
  shape 1 1 [[0]] /\ shape 1 1 (ws (model_1 0)) /\
  ~ rank_deficient 1 1 (ws (model_1 0)) /\
  ~ positive_definite 1 (latent_cov (model_1 0) [[0]]).
Proof.
  split; [reflexivity|].
  split; [split; [reflexivity | repeat constructor]|].
  split; [split; [reflexivity | repeat constructor]|].
  split.
  - intros (v & Hv & Hnz & H).
    destruct v as [|a [|b v]]; try discriminate.
    unfold vec_mat, vdot, map2 in H. simpl in H.
    inversion H as [Ha]. inversion Hnz as [? ? Hne|? ? Hne]; subst.
    + apply Hne. lra.
    + inversion Hne.
  - intros Hpd. specialize (Hpd [1] eq_refl).
    assert (Hnz : nonzero [1]) by (constructor; lra).
    specialize (Hpd Hnz).
    unfold quad_form, mat_vec, latent_cov, cross_moment, latent_values, dot, mmap, mmap2,
      map2, vdot, transpose, col, eye in Hpd. simpl in Hpd. lra.
Qed.

(** ** The weight updater *)

Lemma Q_of_shape st mo :
  shape (m st) (nv st) (ws st) -> moments_shape (m st) (nv st) mo ->
  shape (m st) (nv st) (Q_of st mo).
Proof.
  intros Hw (Hv & Hxy & _ & _ & _ & Hy). unfold Q_of.
  rewrite (shape_length _ _ _ Hw).
  apply mmap2_shape.
  - now apply transpose_shape'.
  - apply mmap2_shape.
    + rewrite <- Hv, <- Hy. apply row_col_shape.
    + apply transpose_shape'. now apply mmap_shape.
Qed.

Lemma at2_Q_of st mo j i :
  shape (m st) (nv st) (ws st) -> moments_shape (m st) (nv st) mo ->
  (j < m st)%nat -> (i < nv st)%nat ->
  at2 (Q_of st mo) j i = spec_Q mo j i.
Proof.
  intros Hw (Hv & Hxy & _ & _ & _ & Hy) Hj Hi. unfold Q_of, spec_Q.
  rewrite (shape_length _ _ _ Hw).
  assert (H1 : shape (m st) (nv st) (transpose (m st) (X_i_Y_j mo)))
    by now apply transpose_shape'.
  assert (H2 : shape (m st) (nv st) (row_col Rmult (X_i2 mo) (Y_j2 mo)))
    by (rewrite <- Hv, <- Hy; apply row_col_shape).
  assert (H3 : shape (m st) (nv st) (transpose (m st) (mmap (fun t => t ^ 2) (X_i_Y_j mo))))
    by (apply transpose_shape'; now apply mmap_shape).
  rewrite (at2_mmap2 _ (m st) (nv st)); auto using mmap2_shape.
  rewrite (at2_mmap2 _ (m st) (nv st)); auto.
  rewrite !at2_transpose by assumption.
  rewrite at2_row_col by lia.
  rewrite (at2_mmap _ (nv st) (m st)) by assumption.
  reflexivity.
Qed.

Lemma R_of_shape st mo :
  shape (m st) (nv st) (ws st) -> moments_shape (m st) (nv st) mo ->
  shape (m st) (nv st) (R_of st mo).
Proof.
  intros Hw (_ & _ & _ & Hxz & Hr & _). unfold R_of.
  rewrite (shape_length _ _ _ Hw).
  apply mat_row_shape; [now apply transpose_shape' | assumption].
Qed.

Lemma at2_R_of st mo j i :
  shape (m st) (nv st) (ws st) -> moments_shape (m st) (nv st) mo ->
  (j < m st)%nat -> (i < nv st)%nat ->
  at2 (R_of st mo) j i = spec_R mo j i.
Proof.
  intros Hw (_ & _ & _ & Hxz & Hr & _) Hj Hi. unfold R_of, spec_R.
  rewrite (shape_length _ _ _ Hw).
  rewrite (at2_mat_row _ (m st) (nv st)); try assumption.
  - now rewrite at2_transpose.
  - now apply transpose_shape'.
Qed.

Lemma H_of_shape st mo l : shape (length (ws st)) (length (ws st)) (H_of st mo l).
Proof. unfold H_of. apply fill_diagonal_0_shape, einsum_ir_i_is_i_rs_shape. Qed.

Lemma at2_H_of st mo l r s :
  shape (m st) (nv st) (ws st) -> moments_shape (m st) (nv st) mo ->
  length l = nv st -> (r < m st)%nat -> (s < m st)%nat ->
  at2 (H_of st mo l) r s = spec_H mo l (nv st) r s.
Proof.
  intros Hw (_ & _ & _ & Hxz & Hr & _) Hl Hr' Hs. unfold H_of, spec_H.
  rewrite (shape_length _ _ _ Hw).
  rewrite at2_fill_diagonal_0
    by now rewrite (shape_length _ _ _ (einsum_ir_i_is_i_rs_shape _ _ _ _ _)).
  destruct (Nat.eqb r s); [reflexivity|].
  rewrite (at2_einsum_ir_i_is_i_rs _ (nv st));
    try assumption; try (now rewrite length_map); try exact (shape_length _ _ _ Hxz).
  apply sum_n_ext. intros i Hi. unfold at1.
  rewrite (nth_map_in (fun r0 => 1 / r0) _ _ 0) by lia.
  rewrite (nth_map_in (fun t => 1 - t) _ _ 0) by lia.
  reflexivity.
Qed.

Lemma expit_range t : 0 < expit t < 1.
Proof.
  unfold expit. pose proof (exp_pos (- t)) as He.
  split.
  - apply Rdiv_lt_0_compat; lra.
  - apply (Rmult_lt_reg_r (1 + exp (- t))); [lra|].
    unfold Rdiv. rewrite Rmult_assoc, Rinv_l by lra. lra.
Qed.

Lemma additivity_ok st mo :
  moments st = Some mo -> moments_shape (m st) (nv st) mo ->
  exists ad, additivity st = Ok ad /\ length ad = nv st.
Proof.
  intros Hm (Hv & Hxy & _ & _ & Hr & Hy). unfold additivity, mis, get_moments.
  rewrite Hm. simpl. eexists. split; [reflexivity|].
  unfold vsub. rewrite !map2_length. unfold sum_axis0.
  rewrite length_map, length_seq, Hv, Hr. lia.
Qed.

Lemma lam_update_ok st mo :
  moments st = Some mo -> moments_shape (m st) (nv st) mo ->
  exists l, lam_update st mo = Ok l /\ length l = nv st /\
            Forall (fun t => 0 <= t <= 1) l.
Proof.
  intros Hm Hs. destruct (additivity_ok st mo Hm Hs) as (ad & Had & Hlen).
  unfold lam_update. rewrite Had. simpl. eexists. split; [reflexivity|]. split.
  - rewrite !map2_length. unfold einsum_ji_ij_i. rewrite !length_map, !length_seq. lia.
  - apply Forall_forall. intros t Ht. unfold map2 in Ht at 1.
    apply in_map_iff in Ht as ([a e] & <- & Hin). simpl.
    destruct (Rlt_dec a 0); [|lra].
    apply in_combine_r in Hin. unfold map2 in Hin.
    apply in_map_iff in Hin as ([b a'] & <- & _). simpl.
    pose proof (expit_range (0.5 * ln (Rabs (b / a')))). lra.
Qed.

Lemma new_ws_shape st mo l :
  shape (m st) (nv st) (ws st) -> moments_shape (m st) (nv st) mo ->
  length l = nv st ->
  shape (m st) (nv st) (new_ws st mo l).
Proof.
  intros Hw Hs Hl. unfold new_ws.
  apply mmap_shape, mmap2_shape; [assumption|].
  apply mmap_shape, mmap2_shape.
  - apply mmap2_shape; apply mat_row_shape;
      auto using Q_of_shape, R_of_shape. now rewrite length_map.
  - eapply dot_shape'. rewrite <- (shape_length _ _ _ Hw) at 1. apply H_of_shape.
Qed.

Lemma at2_new_ws st mo l j i :
  shape (m st) (nv st) (ws st) -> moments_shape (m st) (nv st) mo ->
  length l = nv st -> (j < m st)%nat -> (i < nv st)%nat ->
  at2 (new_ws st mo l) j i = spec_update (noise st) (ws st) mo l (nv st) (m st) j i.
Proof.
  intros Hw Hs Hl Hj Hi. unfold new_ws, spec_update.
  assert (HQ := Q_of_shape st mo Hw Hs).
  assert (HR := R_of_shape st mo Hw Hs).
  assert (HH : shape (m st) (m st) (H_of st mo l))
    by (rewrite <- (shape_length _ _ _ Hw); apply H_of_shape).
  assert (HS : shape (m st) (nv st) (dot (H_of st mo l) (ws st) (nv st)))
    by (eapply dot_shape'; exact HH).
  assert (Hl1 : length (map (fun t => 1 - t) l) = nv st) by now rewrite length_map.
  assert (HlQ := mat_row_shape (fun q t => t * q) _ _ _ l HQ Hl).
  assert (HlR := mat_row_shape (fun r t => t * r) _ _ _ _ HR Hl1).
  rewrite (at2_mmap _ (m st) (nv st)); auto using mmap_shape, mmap2_shape.
  rewrite (at2_mmap2 _ (m st) (nv st)); auto using mmap_shape, mmap2_shape.
  rewrite (at2_mmap _ (m st) (nv st)); auto using mmap_shape, mmap2_shape.
  rewrite (at2_mmap2 _ (m st) (nv st)); auto using mmap_shape, mmap2_shape.
  rewrite (at2_mmap2 _ (m st) (nv st)); auto.
  rewrite !(at2_mat_row _ (m st) (nv st)) by assumption.
  rewrite at2_Q_of, at2_R_of by assumption.
  rewrite (at2_dot_sum (m st) (m st) (nv st)); try assumption;
    [|exact (shape_length _ _ _ Hw)].
  unfold spec_S.
  rewrite (sum_n_ext (m st) _ (fun s => spec_H mo l (nv st) j s * at2 (ws st) s i)).
  - replace (at1 (map (fun t => 1 - t) l) i) with (1 - at1 l i); [reflexivity|].
    unfold at1. rewrite (nth_map_in (fun t => 1 - t) _ _ 0) by lia. reflexivity.
  - intros s Hs'. now rewrite at2_H_of.
Qed.

(** [_update_ws] succeeds on a well-shaped state; [l'] is the value it
    leaves in [self.lam]. *)
Lemma update_ws_ok st mo :
  moments st = Some mo ->
  shape (m st) (nv st) (ws st) -> moments_shape (m st) (nv st) mo ->
  (additive st = false -> exists l, lam st = LamArray l /\ length l = nv st) ->
  exists l',
    _update_ws st
    = Ok (set_ws (if additive st then set_lam st (LamArray l') else st) (new_ws st mo l')) /\
    length l' = nv st /\
    (additive st = false -> lam st = LamArray l') /\
    (additive st = true -> lam_update st mo = Ok l').
Proof.
  intros Hm Hw Hs Hlam. unfold _update_ws, get_moments. rewrite Hm. cbn [bind].
  destruct (additive st) eqn:Ha.
  - destruct (lam_update_ok st mo Hm Hs) as (l' & Hl' & Hlen & _).
    rewrite Hl'. cbn [bind lam set_lam]. exists l'.
    split; [reflexivity|]. split; [assumption|]. split; [discriminate | auto].
  - destruct (Hlam eq_refl) as (l & Hl & Hlen). cbn [bind]. rewrite Hl.
    exists l. split; [reflexivity|]. split; [assumption|]. split; [auto | discriminate].
Qed.

(** ** C1: the weight update *)

(** C1 (as amended).  For every moments bundle, weights [W] and multipliers,
    [_update_ws] replaces [W] by
    [0.5 (W + sigma^2 (lam * Q + (1 - lam) * R - S))] with [Q], [R], [H]
    (diagonal zeroed) and [S = H W] as the specification defines them, where
    [lam] is the multiplier vector the method leaves in [self.lam]: the
    current one when additivity enforcement is off, the one it has just
    recomputed when it is on. *)
Theorem update_ws_formula st mo :
  moments st = Some mo ->
  shape (m st) (nv st) (ws st) -> moments_shape (m st) (nv st) mo ->
  (additive st = false -> exists l, lam st = LamArray l /\ length l = nv st) ->
  exists l' st',
    _update_ws st = Ok st' /\
    lam st' = LamArray l' /\ length l' = nv st /\
    (additive st = false -> lam st = LamArray l') /\
    (additive st = true -> lam_update st mo = Ok l') /\
    shape (m st) (nv st) (ws st') /\
    (forall j i, (j < m st)%nat -> (i < nv st)%nat ->
       at2 (ws st') j i = spec_update (noise st) (ws st) mo l' (nv st) (m st) j i).
Proof.
  intros Hm Hw Hs Hlam.
  destruct (update_ws_ok st mo Hm Hw Hs Hlam) as (l' & Hup & Hlen & Hoff & Hon).
  exists l'. eexists. split; [exact Hup|]. cbn [lam ws set_ws].
  split.
  { destruct (additive st); [reflexivity | auto]. }
  split; [assumption|]. split; [assumption|]. split; [assumption|].
  split; [now apply new_ws_shape|].
  intros j i Hj Hi. now apply at2_new_ws.
Qed.

Lemma update_ws_formula_witness :
  exists l' st',
    _update_ws model_c1 = Ok st' /\ lam st' = LamArray l' /\
    at2 (ws st') 0 0 = spec_update 1 [[0]] bundle_c1 l' 1 1 0 0.
Proof.
  destruct (update_ws_formula model_c1 bundle_c1) as (l' & st' & H1 & H2 & _ & _ & _ & _ & H3).
  - reflexivity.
  - split; [reflexivity | repeat constructor].
  - unfold moments_shape, bundle_c1. simpl.
    repeat split; repeat constructor.
  - discriminate.
  - exists l', st'. split; [assumption|]. split; [assumption|].
    apply (H3 0%nat 0%nat); simpl; lia.
Defined.

(** C1, the specification's statement fails when additivity enforcement is on: the
    update uses the recomputed multiplier (here 0), not the current one
    (here 1).  The code yields 1/8 where the formula over the current
    multiplier gives 0. *)
Lemma update_ws_uses_recomputed_lam :
  exists st',
    _update_ws model_c1 = Ok st' /\
    lam model_c1 = LamArray [1] /\
    at2 (ws st') 0 0 = 1 / 8 /\
    spec_update (noise model_c1) (ws model_c1) bundle_c1 [1] 1 1 0 0 = 0.
Proof.
  assert (Hl : lam_update model_c1 bundle_c1 = Ok [0]).
  { unfold lam_update, additivity, mis, get_moments. simpl.
    unfold calculate_mi, bundle_c1. simpl.
    unfold vsub, map2, sum_axis0, col, transpose. simpl.
    replace (1 - 0 * (0 * 1) / (1 * 4)) with 1 by lra. rewrite ln_1.
    destruct (Rlt_dec _ 0) as [Hlt|_]; [exfalso; lra | reflexivity]. }
  unfold _update_ws. change (get_moments model_c1) with (Ok bundle_c1).
  cbn [bind]. change (additive model_c1) with true. cbv iota.
  rewrite Hl. cbn [bind set_lam lam].
  eexists. split; [reflexivity|]. split; [reflexivity|]. split.
  - unfold at2, new_ws, H_of, Q_of, R_of, einsum_ir_i_is_i_rs, fill_diagonal_0, dot,
      mmap, mmap2, mat_row, row_col, map2, vdot, transpose, col. simpl. lra.
  - unfold spec_update, spec_S, spec_H, spec_Q, spec_R, sum_n, at1, at2. simpl. lra.
Qed.

(** ** Frames: what each step leaves alone *)

Lemma update_ws_frame st st' :
  _update_ws st = Ok st' ->
  m st' = m st /\ nv st' = nv st /\ noise st' = noise st /\ tol st' = tol st /\
  max_iter st' = max_iter st /\ additive st' = additive st /\
  moments st' = moments st /\ mean_x st' = mean_x st /\
  tc_history st' = tc_history st /\ copy st' = copy st /\
  gaussianize_marginals st' = gaussianize_marginals st /\
  (additive st = false -> lam st' = lam st).
Proof.
  unfold _update_ws. intros H.
  destruct (get_moments st) as [mo|e]; [|discriminate]. simpl in H.
  destruct (additive st) eqn:Ha.
  - destruct (lam_update st mo) as [l|e]; [|discriminate]. simpl in H.
    inversion H; subst. simpl. repeat split; auto. discriminate.
  - simpl in H. destruct (lam st) as [r|l] eqn:Hl; [discriminate|].
    inversion H; subst. simpl. repeat split; auto.
Qed.

Lemma calculate_moments_inv st x mo :
  _calculate_moments st x = Ok mo ->
  X_i2 mo = variance_entry st x /\
  X_i_Y_j mo = cross_moment st x /\
  cy mo = latent_cov st x /\
  Y_j2 mo = diag (latent_cov st x) /\
  exists z, solve (latent_cov st x) (transpose (length (ws st)) (cross_moment st x)) = Ok z /\
            X_i_Z_j mo = transpose (nv st) z /\
            X_i2_given_Y mo = vsub (X_i2 mo) (einsum_ij_ij_i (X_i_Z_j mo) (X_i_Y_j mo)).
Proof.
  unfold _calculate_moments. intros H.
  destruct (solve _ _) as [z|e]; [|discriminate]. simpl in H.
  inversion H; subst; clear H. simpl. repeat split; auto.
  exists z. repeat split; auto.
Qed.

Lemma calculate_moments_ok st x n :
  shape n (nv st) x -> shape (m st) (nv st) (ws st) -> cache_ok st ->
  noise st <> 0 ->
  exists mo, _calculate_moments st x = Ok mo /\ moments_shape (m st) (nv st) mo.
Proof.
  intros Hx Hw Hc Hs.
  destruct (calculate_moments_total st x n Hx Hw Hs) as (Z & Hsolve & HZ & Hdot).
  unfold _calculate_moments. rewrite Hsolve. simpl.
  eexists. split; [reflexivity|].
  assert (Hvar := variance_entry_length st x Hc).
  unfold moments_shape. simpl.
  repeat split.
  - assumption.
  - exact (shape_length _ _ _ (cross_moment_shape st x Hw)).
  - now destruct (cross_moment_shape st x Hw).
  - exact (shape_length _ _ _ (latent_cov_shape st x Hw)).
  - now destruct (latent_cov_shape st x Hw).
  - exact (shape_length _ _ _ (transpose_shape' _ _ _ HZ)).
  - now destruct (transpose_shape' _ _ _ HZ).
  - unfold vsub, einsum_ij_ij_i. rewrite !map2_length, Hvar.
    rewrite (shape_length _ _ _ (transpose_shape' _ _ _ HZ)).
    rewrite (shape_length _ _ _ (cross_moment_shape st x Hw)). lia.
  - rewrite diag_length. exact (shape_length _ _ _ (latent_cov_shape st x Hw)).
Qed.

Lemma tcs_ok st mo :
  moments st = Some mo -> moments_shape (m st) (nv st) mo ->
  exists t, tcs st = Ok t /\ length t = m st.
Proof.
  intros Hm (_ & _ & _ & _ & _ & Hy). unfold tcs, mis, get_moments. rewrite Hm. simpl.
  eexists. split; [reflexivity|].
  unfold vsub, sum_axis1, calculate_mi, transpose.
  rewrite map2_length, !length_map, length_seq, Hy. lia.
Qed.

Lemma tc_ok st mo :
  moments st = Some mo -> moments_shape (m st) (nv st) mo ->
  exists t, tc st = Ok t.
Proof.
  intros Hm Hs. destruct (tcs_ok st mo Hm Hs) as (t & Ht & _).
  unfold tc. rewrite Ht. simpl. eauto.
Qed.

(** ** The loop of [fit] *)

Lemma same_config_refl st : same_config st st.
Proof. unfold same_config. repeat split. Qed.

Lemma same_config_trans a b c : same_config a b -> same_config b c -> same_config a c.
Proof. unfold same_config. intuition congruence. Qed.

Lemma last_delta_snoc h t :
  h <> [] -> last_delta (h ++ [t]) = Ok (t - last h 0).
Proof.
  intros Hh. unfold last_delta. rewrite rev_app_distr. simpl.
  destruct (rev h) as [|a r] eqn:E.
  - exfalso. apply Hh. apply (f_equal (@rev R)) in E. now rewrite rev_involutive in E.
  - apply (f_equal (@rev R)) in E. rewrite rev_involutive in E. simpl in E.
    subst h. now rewrite last_last.
Qed.

(** One pass through the body of the loop. *)
Lemma iteration_ok st x n :
  shape n (nv st) x -> loop_inv st -> noise st <> 0 ->
  exists mo t st3,
    _calculate_moments st x = Ok mo /\
    moments_shape (m st) (nv st) mo /\
    X_i2 mo = variance_entry st x /\
    tc (set_moments st mo) = Ok t /\
    _update_ws (set_tc_history (set_moments st mo) (tc_history st ++ [t])) = Ok st3 /\
    last_delta (tc_history st3) = Ok (t - last (tc_history st) 0) /\
    loop_inv st3 /\ same_config st st3 /\
    tc_history st3 = tc_history st ++ [t] /\
    moments st3 = Some mo /\
    (additive st = false -> lam st3 = lam st) /\
    (additive st = true -> exists l, lam st3 = LamArray l /\ Forall in_unit l).
Proof.
  intros Hx (Hw & Hc & (l & Hl & Hlen) & Hh) Hs.
  destruct (calculate_moments_ok st x n Hx Hw Hc Hs) as (mo & Hmo & Hshape).
  destruct (calculate_moments_inv st x mo Hmo) as (Hvar & _).
  destruct (tc_ok (set_moments st mo) mo eq_refl Hshape) as (t & Ht).
  set (st2 := set_tc_history (set_moments st mo) (tc_history st ++ [t])).
  assert (Hupd : exists l' st3,
             _update_ws st2 = Ok st3 /\ lam st3 = LamArray l' /\ length l' = nv st /\
             (additive st = false -> lam st = LamArray l') /\
             (additive st = true -> lam_update st2 mo = Ok l') /\
             shape (m st) (nv st) (ws st3)).
  { destruct (update_ws_ok st2 mo eq_refl Hw Hshape) as (l' & Hup & Hlen' & Hoff & Hon).
    { intros _. exists l. split; assumption. }
    exists l'. eexists. split; [exact Hup|].
    pose proof (new_ws_shape st2 mo l' Hw Hshape Hlen') as Hnew.
    subst st2. simpl in *.
    split; [destruct (additive st); [reflexivity | auto]|].
    split; [assumption|]. split; [assumption|]. split; assumption. }
  destruct Hupd as (l' & st3 & Hup & Hl' & Hlen' & Hoff & Hon & Hw3).
  destruct (update_ws_frame st2 st3 Hup)
    as (F1 & F2 & F3 & F4 & F5 & F6 & F7 & F8 & F9 & F10 & F11 & F12).
  subst st2. simpl in *.
  exists mo, t, st3.
  split; [exact Hmo|]. split; [exact Hshape|]. split; [exact Hvar|].
  split; [exact Ht|]. split; [exact Hup|].
  split. { rewrite F9. now apply last_delta_snoc. }
  split.
  { unfold loop_inv. rewrite F1, F2. split; [exact Hw3|]. split.
    - unfold cache_ok. rewrite F7, F2. destruct Hshape as (Hv & _). exact Hv.
    - split; [exists l'; split; assumption|].
      rewrite F9. intros E. now destruct (tc_history st). }
  split. { unfold same_config. repeat split; assumption. }
  split; [exact F9|]. split; [exact F7|].
  split. { intros Ha. now apply F12. }
  intros Ha. specialize (Hon Ha).
  destruct (lam_update_ok (set_tc_history (set_moments st mo) (tc_history st ++ [t]))
              mo eq_refl Hshape) as (l2 & Hl2 & _ & Hunit).
  exists l'. split; [assumption|].
  assert (l2 = l') by congruence. subst l2. exact Hunit.
Qed.

Lemma for_loop_spec x n : forall todo bound st,
  shape n (nv st) x -> loop_inv st -> noise st <> 0 ->
  exists st' bound' b new,
    for_loop todo bound x st = Ok (st', bound', b) /\
    loop_outcome st todo bound st' bound' b new /\
    loop_inv st' /\ same_config st st' /\
    (todo = [] -> st' = st) /\
    (todo <> [] -> exists mo, moments st' = Some mo /\
                     moments_shape (m st) (nv st) mo /\
                     X_i2 mo = variance_entry st x) /\
    (additive st = false -> lam st' = lam st) /\
    (additive st = true -> todo <> [] ->
       exists l, lam st' = LamArray l /\ Forall in_unit l).
Proof.
  induction todo as [|i rest IH]; intros bound st Hx Hinv Hs.
  - exists st, bound, false, []. simpl.
    split; [reflexivity|]. split.
    { unfold loop_outcome. simpl. rewrite app_nil_r.
      repeat split; auto; try discriminate; try constructor; congruence. }
    split; [assumption|]. split; [apply same_config_refl|].
    split; [reflexivity|]. split; [congruence|]. split; [reflexivity|]. congruence.
  - destruct (iteration_ok st x n Hx Hinv Hs)
      as (mo & t & st3 & Hmo & Hshape & Hvar & Ht & Hup & Hd & Hinv3 & Hcfg & Hh3 & Hm3 & Hoff & Hon).
    assert (Hcfg' := Hcfg). destruct Hcfg' as (C1 & C2 & C3 & C4 & C5 & C6 & _).
    cbn [for_loop]. rewrite Hmo. cbn [bind]. rewrite Ht. cbn [bind].
    change (tc_history (set_moments st mo)) with (tc_history st).
    rewrite Hup. cbn [bind]. rewrite Hd. cbn [bind].
    destruct (Rlt_dec (Rabs (t - last (tc_history st) 0)) (tol st3)) as [Hlt|Hge].
    + exists st3, (Some i), true, [t].
      split; [reflexivity|]. split.
      { unfold loop_outcome. simpl.
        split; [assumption|]. split; [lia|]. split; [discriminate|].
        split; [discriminate|]. split; [reflexivity|]. split; [constructor|].
        split; [|discriminate].
        intros _. split; [discriminate|]. now rewrite <- C4. }
      split; [assumption|]. split; [assumption|]. split; [discriminate|].
      split; [intros _; exists mo; auto|]. split; [assumption|]. auto.
    + assert (Hx3 : shape n (nv st3) x) by now rewrite C2.
      assert (Hs3 : noise st3 <> 0) by now rewrite C3.
      destruct (IH (Some i) st3 Hx3 Hinv3 Hs3)
        as (st' & bound' & b & new & Hrun & Hout & Hinv' & Hcfg2 & Hnil & Hsome & Hoff2 & Hon2).
      exists st', bound', b, (t :: new).
      split; [exact Hrun|].
      destruct Hout as (O1 & O2 & O3 & O4 & O5 & O6 & O7 & O8).
      rewrite Hh3, last_last in *. rewrite C4 in *.
      split.
      { unfold loop_outcome.
        split; [rewrite O1, <- app_assoc; reflexivity|].
        split; [simpl; lia|].
        split; [intros Hb; simpl; rewrite (O3 Hb); reflexivity|].
        split; [discriminate|].
        split.
        { rewrite O5. destruct new as [|t' new']; [reflexivity|].
          simpl. now rewrite Nat.sub_0_r. }
        split.
        { simpl. destruct (deltas t new) eqn:E; [constructor|].
          constructor; [assumption|]. simpl in O6. exact O6. }
        split.
        { intros Hb. destruct (O7 Hb) as (Hne & Hlast). split; [discriminate|].
          simpl. destruct (deltas t new) eqn:E.
          - destruct new; [contradiction | discriminate].
          - exact Hlast. }
        intros Hb. simpl. constructor; [assumption | auto]. }
      split; [assumption|].
      split; [eapply same_config_trans; eassumption|].
      split; [discriminate|].
      split.
      { intros _. destruct rest as [|i' rest'].
        - rewrite (Hnil eq_refl). exists mo. auto.
        - destruct (Hsome ltac:(discriminate)) as (mo' & M1 & M2 & M3).
          exists mo'. rewrite C1, C2 in M2. split; [assumption|]. split; [assumption|].
          rewrite M3. unfold variance_entry at 1. rewrite Hm3. assumption. }
      split.
      { intros Ha. rewrite Hoff2 by congruence. auto. }
      intros Ha _. destruct rest as [|i' rest'].
      * rewrite (Hnil eq_refl). auto.
      * apply Hon2; [congruence | discriminate].
Qed.

(** ** Reordering *)

Lemma insert_by_perm key i l : Permutation (insert_by key i l) (i :: l).
Proof.
  induction l as [|j l IH]; simpl; [apply Permutation_refl|].
  destruct (Rle_dec (key i) (key j)); [apply Permutation_refl|].
  rewrite IH. apply perm_swap.
Qed.

Lemma argsort_perm v : Permutation (argsort v) (seq 0 (length v)).
Proof.
  unfold argsort. induction (seq 0 (length v)) as [|i l IH]; simpl; [constructor|].
  rewrite insert_by_perm. now constructor.
Qed.

Lemma take_rows_seq A : take_rows A (seq 0 (length A)) = A.
Proof.
  unfold take_rows. apply (list_ext []).
  - now rewrite length_map, length_seq.
  - intros i Hi. rewrite length_map, length_seq in Hi.
    now rewrite (nth_map_seq (fun j => nth j A [])).
Qed.

Lemma take_rows_perm A order :
  Permutation order (seq 0 (length A)) -> Permutation (take_rows A order) A.
Proof.
  intros H. rewrite <- (take_rows_seq A) at 2. unfold take_rows.
  now apply Permutation_map.
Qed.

Lemma take_rows_shape r c A order :
  shape r c A -> Permutation order (seq 0 r) -> shape r c (take_rows A order).
Proof.
  intros [Hl Hf] Hp. rewrite <- Hl in Hp. apply take_rows_perm in Hp. split.
  - apply Permutation_length in Hp. lia.
  - eapply Permutation_Forall; [apply Permutation_sym; exact Hp | exact Hf].
Qed.

Lemma insert_by_sorted key i l :
  StronglySorted (fun a b => key a <= key b) l ->
  StronglySorted (fun a b => key a <= key b) (insert_by key i l).
Proof.
  induction l as [|j l IH]; intros Hs; simpl.
  - constructor; constructor.
  - inversion Hs as [|? ? Hl Hj]; subst.
    destruct (Rle_dec (key i) (key j)) as [Hle|Hnle].
    + constructor; [assumption|]. constructor; [assumption|].
      eapply Forall_impl; [|exact Hj]. intros a Ha. simpl in Ha. lra.
    + constructor; [now apply IH|].
      apply Forall_forall. intros a Ha.
      apply (Permutation_in _ (insert_by_perm key i l)) in Ha.
      destruct Ha as [<-|Ha]; [lra|].
      rewrite Forall_forall in Hj. now apply Hj.
Qed.

Lemma argsort_sorted v :
  StronglySorted (fun a b => at1 v a <= at1 v b) (argsort v).
Proof.
  unfold argsort. induction (seq 0 (length v)) as [|i l IH]; simpl.
  - constructor.
  - now apply insert_by_sorted.
Qed.

Lemma StronglySorted_nth (rel : nat -> nat -> Prop) l :
  StronglySorted rel l ->
  forall p q, (p < q)%nat -> (q < length l)%nat -> rel (nth p l 0%nat) (nth q l 0%nat).
Proof.
  induction 1 as [|a l Hs IH Hall]; intros p q Hpq Hq; simpl in Hq; [lia|].
  destruct q as [|q]; [lia|]. destruct p as [|p]; simpl.
  - rewrite Forall_forall in Hall. apply Hall, nth_In. lia.
  - apply IH; lia.
Qed.

Lemma at1_map_opp t a : at1 (map Ropp t) a = - at1 t a.
Proof.
  unfold at1. destruct (Nat.lt_ge_cases a (length t)) as [H|H].
  - now rewrite (nth_map_in _ _ _ 0).
  - rewrite !nth_overflow by (rewrite ?length_map; lia). lra.
Qed.

(** [argsort(-t)] lists the indices by non-increasing [t]. *)
Lemma argsort_opp_descending t : descending_by t (argsort (map Ropp t)).
Proof.
  intros p q Hpq Hq.
  pose proof (StronglySorted_nth _ _ (argsort_sorted (map Ropp t)) p q Hpq Hq) as H.
  simpl in H. rewrite !at1_map_opp in H. lra.
Qed.

Lemma reorder_ok st mo x n i :
  shape n (nv st) x -> loop_inv st -> noise st <> 0 ->
  moments st = Some mo -> moments_shape (m st) (nv st) mo ->
  exists t mo',
    tcs st = Ok t /\
    Permutation (argsort (map Ropp t)) (seq 0 (m st)) /\
    _calculate_moments (set_ws st (take_rows (ws st) (argsort (map Ropp t)))) x = Ok mo' /\
    moments_shape (m st) (nv st) mo' /\
    X_i2 mo' = X_i2 mo /\
    reorder st (Some i) x
    = Ok (set_n_loops
            (set_moments (set_ws st (take_rows (ws st) (argsort (map Ropp t)))) mo') i).
Proof.
  intros Hx (Hw & Hc & Hl & Hh) Hs Hm Hshape.
  destruct (tcs_ok st mo Hm Hshape) as (t & Ht & Hlen).
  assert (Hp : Permutation (argsort (map Ropp t)) (seq 0 (m st))).
  { rewrite <- Hlen, <- (length_map Ropp). apply argsort_perm. }
  set (st1 := set_ws st (take_rows (ws st) (argsort (map Ropp t)))).
  assert (Hw1 : shape (m st1) (nv st1) (ws st1)) by (apply take_rows_shape; assumption).
  destruct (calculate_moments_ok st1 x n Hx Hw1 Hc Hs) as (mo' & Hmo' & Hshape').
  destruct (calculate_moments_inv st1 x mo' Hmo') as (Hvar & _).
  exists t, mo'.
  split; [assumption|]. split; [assumption|]. split; [assumption|].
  split; [assumption|]. split.
  - rewrite Hvar. unfold variance_entry. subst st1. simpl. now rewrite Hm.
  - unfold reorder. rewrite Ht. cbn [bind]. fold st1. rewrite Hmo'. reflexivity.
Qed.

Lemma sym_decorrelation_shape W eig c :
  shape (length (snd eig)) c (_sym_decorrelation W eig c).
Proof.
  unfold _sym_decorrelation.
  replace (length (snd eig)) with
    (length (dot (mat_row Rmult (snd eig) (map (fun t => 1 / sqrt t) (fst eig)))
                 (transpose (length W) (snd eig)) (length W))).
  - apply dot_shape.
  - unfold dot, mat_row. now rewrite !length_map.
Qed.

Section FitProperties.

Variable norm_ppf : R -> R.

Lemma gaussianize_shape x : shape (length x) (ncols x) (gaussianize norm_ppf x).
Proof.
  unfold gaussianize.
  replace (ncols x) with
    (length (map (fun x_i => map norm_ppf
                               (map (fun r => (r - 0.5) / INR (length x_i)) (rankdata x_i)))
                 (transpose (ncols x) x))) at 1.
  - apply transpose_shape.
  - rewrite length_map. apply (shape_length _ _ _ (transpose_shape _ _)).
Qed.

Lemma lam_times_ones_ok l d :
  match l with LamScalar _ => True | LamArray v => length v = d end ->
  exists v, lam_times_ones l d = Ok v /\ length v = d /\
            (forall lo hi, match l with
                           | LamScalar r => lo <= r <= hi
                           | LamArray w => Forall (fun t => lo <= t <= hi) w
                           end -> Forall (fun t => lo <= t <= hi) v) /\
            (forall i, (i < d)%nat ->
               at1 v i = match l with LamScalar r => r | LamArray w => at1 w i end).
Proof.
  destruct l as [r|w]; simpl; intros H.
  - eexists. split; [reflexivity|]. split; [now rewrite length_map, repeat_length|]. split.
    + intros lo hi Hr. apply Forall_forall. intros t Ht.
      apply in_map_iff in Ht as (o & <- & Ho). apply repeat_spec in Ho. subst. lra.
    + intros i Hi. unfold at1. rewrite (nth_map_in _ _ _ 1) by now rewrite repeat_length.
      rewrite nth_repeat. lra.
  - rewrite H, Nat.eqb_refl. eexists. split; [reflexivity|].
    split; [rewrite map2_length, repeat_length; lia|]. split.
    + intros lo hi Hw. apply Forall_forall. intros t Ht. unfold map2 in Ht.
      apply in_map_iff in Ht as ([a o] & <- & Hin). simpl.
      pose proof (in_combine_r _ _ _ _ Hin) as Ho. apply repeat_spec in Ho. subst.
      rewrite Forall_forall in Hw. specialize (Hw a (in_combine_l _ _ _ _ Hin)). lra.
    + intros i Hi. unfold at1.
      rewrite (nth_map2 Rmult w (repeat 1 d) i 0 1 0) by (rewrite ?repeat_length; lia).
      rewrite nth_repeat. lra.
Qed.

Lemma fit_init_ok st rnd eig x :
  fit_ready st rnd eig x ->
  exists st1 x1 l,
    fit_init norm_ppf st rnd eig x = Ok (st1, x1) /\
    shape (length x) (nv st1) x1 /\ loop_inv st1 /\
    nv st1 = ncols x /\ m st1 = m st /\ noise st1 = noise st /\ tol st1 = tol st /\
    max_iter st1 = max_iter st /\ additive st1 = additive st /\ copy st1 = copy st /\
    gaussianize_marginals st1 = gaussianize_marginals st /\
    moments st1 = moments st /\ tc_history st1 = tc_history st /\
    lam st1 = LamArray l /\ lam_times_ones (lam st) (ncols x) = Ok l /\
    mean_x st1 = (if gaussianize_marginals st then mean_x st
                  else Some (map (fun s => s / INR (length x)) (sum_axis0 (ncols x) x))) /\
    x1 = (if gaussianize_marginals st then gaussianize norm_ppf x
          else center x (map (fun s => s / INR (length x)) (sum_axis0 (ncols x) x))).
Proof.
  intros (Hx & Hrnd & Hs & Hu & Hlam & Hcache & Hh).
  destruct (lam_times_ones_ok (lam st) (ncols x) Hlam) as (l & Hl & Hlen & _).
  unfold fit_init.
  destruct (gaussianize_marginals st) eqn:Hg; simpl; rewrite Hg; simpl; rewrite Hl; simpl.
  - eexists. eexists. exists l. split; [reflexivity|]. simpl.
    split; [apply gaussianize_shape|]. split.
    + unfold loop_inv. simpl. split.
      * apply mat_row_shape.
        -- apply mmap_shape. rewrite <- (shape_length _ _ _ Hu) at 1.
           apply sym_decorrelation_shape.
        -- unfold einsum_li_li_i. now rewrite !length_map, length_seq.
      * split; [exact Hcache|]. split; [eauto | assumption].
    + repeat split; auto.
  - eexists. eexists. exists l. split; [reflexivity|]. simpl.
    split.
    { unfold center. apply mat_row_shape; [assumption|].
      unfold sum_axis0. now rewrite !length_map, length_seq. }
    split.
    + unfold loop_inv. simpl. split.
      * apply mat_row_shape.
        -- apply mmap_shape. rewrite <- (shape_length _ _ _ Hu) at 1.
           apply sym_decorrelation_shape.
        -- unfold einsum_li_li_i. now rewrite !length_map, length_seq.
      * split; [exact Hcache|]. split; [eauto | assumption].
    + repeat split; auto.
Qed.

(** A successful run of [fit], step by step: the initialisation, the loop
    (at least one pass), the reordering and the refreshed moments. *)
Lemma fit_run st rnd eig x :
  fit_ready st rnd eig x -> noise st <> 0 -> (1 <= max_iter st)%nat ->
  exists st1 x1 stL b new moL t mo',
    fit_init norm_ppf st rnd eig x = Ok (st1, x1) /\
    for_loop (seq 0 (max_iter st)) None x1 st1 = Ok (stL, Some (length new - 1)%nat, b) /\
    loop_outcome st1 (seq 0 (max_iter st)) None stL (Some (length new - 1)%nat) b new /\
    new <> [] /\
    loop_inv stL /\ same_config st1 stL /\
    moments stL = Some moL /\ moments_shape (m st) (ncols x) moL /\
    X_i2 moL = variance_entry st1 x1 /\
    (additive st = false -> lam stL = lam st1) /\
    (additive st = true -> exists l, lam stL = LamArray l /\ Forall in_unit l) /\
    tcs stL = Ok t /\
    Permutation (argsort (map Ropp t)) (seq 0 (m st)) /\
    _calculate_moments (set_ws stL (take_rows (ws stL) (argsort (map Ropp t)))) x1 = Ok mo' /\
    moments_shape (m st) (ncols x) mo' /\
    X_i2 mo' = X_i2 moL /\
    fit norm_ppf st rnd eig x
    = Ok (set_n_loops
            (set_moments (set_ws stL (take_rows (ws stL) (argsort (map Ropp t)))) mo')
            (length new - 1)).
Proof.
  intros Hready Hs Hmax.
  destruct (fit_init_ok st rnd eig x Hready)
    as (st1 & x1 & l & Hinit & Hx1 & Hinv1 & I1 & I2 & I3 & I4 & I5 & I6 & _).
  assert (Hs1 : noise st1 <> 0) by now rewrite I3.
  destruct (for_loop_spec x1 (length x) (seq 0 (max_iter st)) None st1 Hx1 Hinv1 Hs1)
    as (stL & bound & b & new & Hrun & Hout & HinvL & Hcfg & _ & Hsome & Hoff & Hon).
  assert (Hne : seq 0 (max_iter st) <> []).
  { destruct (max_iter st); [lia | discriminate]. }
  destruct (Hsome Hne) as (moL & HmL & HshL & HvarL).
  assert (Hcfg' := Hcfg). destruct Hcfg' as (C1 & C2 & C3 & _).
  assert (Hnew : new <> []) by (destruct Hout as (_ & _ & _ & O4 & _); auto).
  assert (Hbound : bound = Some (length new - 1)%nat).
  { destruct Hout as (_ & O2 & _ & _ & O5 & _). rewrite O5.
    destruct new as [|t0 new0]; [contradiction|].
    rewrite length_seq in O2. now rewrite seq_nth by (simpl in *; lia). }
  subst bound.
  assert (HxL : shape (length x) (nv stL) x1) by now rewrite C2.
  assert (HsL : noise stL <> 0) by now rewrite C3.
  rewrite <- C1, <- C2 in HshL.
  destruct (reorder_ok stL moL x1 (length x) (length new - 1) HxL HinvL HsL HmL HshL)
    as (t & mo' & Ht & Hperm & Hmo' & Hsh' & Hvar' & Hre).
  exists st1, x1, stL, b, new, moL, t, mo'.
  rewrite C1, C2, ?I1, ?I2 in *.
  split; [assumption|]. split; [assumption|]. split; [assumption|].
  split; [assumption|]. split; [assumption|]. split; [assumption|].
  split; [assumption|]. split; [assumption|]. split; [assumption|].
  split; [intros Ha; apply Hoff; congruence|].
  split; [intros Ha; apply Hon; [congruence | assumption]|].
  split; [assumption|]. split; [assumption|]. split; [assumption|].
  split; [assumption|]. split; [assumption|].
  unfold fit. rewrite Hinit. cbn [bind fst snd]. rewrite I5, Hrun. cbn [bind fst snd].
  exact Hre.
Qed.

Lemma last_in (l : list R) d : l <> [] -> In (last l d) l.
Proof.
  intros H. rewrite (app_removelast_last d H) at 2.
  apply in_or_app. right. now left.
Qed.

Lemma deltas_nonempty prev new : new <> [] -> deltas prev new <> [].
Proof. destruct new; [contradiction | discriminate]. Qed.

(** ** C6: the iteration budget *)

(** C6.  With an iteration budget of at least one (the configuration asks
    for a positive integer) and a nonzero noise level, [fit] returns the
    trained instance for every rectangular input: the loop makes between 1
    and [max_iter] passes, one trace entry each; every pass before the last
    saw a trace difference not below [tol]; the loop ends in [break] exactly
    when the last difference is below [tol], and otherwise it has made all
    [max_iter] passes; in both cases [fit] then reorders the rows of the
    weights by [order = argsort(-tcs)], row [p] of the result being row
    [order[p]] of the weights the loop left, with [order] a permutation of
    the factors in which no factor comes before one whose total
    correlation, read after the loop, is larger; it recomputes the moments under the new order and records
    the index of the last pass. *)
Theorem fit_iteration_budget st rnd eig x :
  fit_ready st rnd eig x -> noise st <> 0 -> (1 <= max_iter st)%nat ->
  exists st1 x1 stL b new t st',
    fit norm_ppf st rnd eig x = Ok st' /\
    fit_init norm_ppf st rnd eig x = Ok (st1, x1) /\
    for_loop (seq 0 (max_iter st)) None x1 st1 = Ok (stL, Some (length new - 1)%nat, b) /\
    tc_history st' = tc_history st ++ new /\
    (1 <= length new <= max_iter st)%nat /\
    n_loops st' = Some (length new - 1)%nat /\
    Forall (fun d => ~ Rabs d < tol st)
      (removelast (deltas (last (tc_history st) 0) new)) /\
    (b = true <-> Rabs (last (deltas (last (tc_history st) 0) new) 0) < tol st) /\
    (b = false -> length new = max_iter st) /\
    tcs stL = Ok t /\ length t = m st /\
    ws st' = take_rows (ws stL) (argsort (map Ropp t)) /\
    Permutation (ws st') (ws stL) /\
    Permutation (argsort (map Ropp t)) (seq 0 (m st)) /\
    (forall p q, (p < q)%nat -> (q < m st)%nat ->
       ~ at1 t (nth p (argsort (map Ropp t)) 0%nat)
         < at1 t (nth q (argsort (map Ropp t)) 0%nat)) /\
    (forall p, (p < m st)%nat ->
       nth p (ws st') [] = nth (nth p (argsort (map Ropp t)) 0%nat) (ws stL) []) /\
    exists mo', moments st' = Some mo' /\
                _calculate_moments (set_ws stL (ws st')) x1 = Ok mo'.
Proof.
  intros Hready Hs Hmax.
  destruct (fit_run st rnd eig x Hready Hs Hmax)
    as (st1 & x1 & stL & b & new & moL & t & mo' & Hinit & Hrun & Hout & Hnew & HinvL
        & Hcfg & HmL & HshL & HvarL & Hoff & Hon & Ht & Hperm & Hmo' & Hsh' & Hvar' & Hfit).
  destruct (fit_init_ok st rnd eig x Hready)
    as (st1' & x1' & l & Hinit' & _ & _ & I1 & I2 & I3 & I4 & I5 & I6 & I7 & I8 & I9 & I10 & _).
  rewrite Hinit in Hinit'. inversion Hinit'; subst st1' x1'; clear Hinit'.
  destruct Hout as (O1 & O2 & O3 & O4 & O5 & O6 & O7 & O8).
  rewrite I10, I4, length_seq in *.
  assert (Hlen : (1 <= length new)%nat) by (destruct new; [contradiction | simpl; lia]).
  assert (Hol : length (argsort (map Ropp t)) = m st).
  { rewrite (Permutation_length Hperm). apply length_seq. }
  exists st1, x1, stL, b, new, t. eexists.
  split; [exact Hfit|]. cbn [tc_history n_loops ws moments set_n_loops set_moments set_ws].
  split; [assumption|]. split; [assumption|]. split; [assumption|].
  split; [lia|]. split; [reflexivity|]. split; [assumption|].
  split.
  { split; [intros Hb; now apply O7|].
    intros Hlt. destruct b; [reflexivity|]. exfalso.
    specialize (O8 eq_refl). rewrite Forall_forall in O8.
    apply (O8 _ (last_in _ 0 (deltas_nonempty _ _ Hnew))). exact Hlt. }
  split; [assumption|]. split; [assumption|].
  split.
  { rewrite <- Hol, (Permutation_length (argsort_perm (map Ropp t))), length_seq.
    now rewrite length_map. }
  split; [reflexivity|].
  split.
  { apply take_rows_perm. destruct HinvL as (HwL & _).
    destruct Hcfg as (C1 & _).
    rewrite (shape_length _ _ _ HwL), C1, I2. exact Hperm. }
  split; [assumption|].
  split.
  { intros p q Hpq Hq. apply Rle_not_lt.
    apply (argsort_opp_descending t p q Hpq). now rewrite Hol. }
  split.
  { intros p Hp. unfold take_rows.
    now rewrite (nth_map_in (fun j => nth j (ws stL) []) _ _ 0%nat) by now rewrite Hol. }
  exists mo'. split; [reflexivity | exact Hmo'].
Qed.

(** Outside the configured domain: with an iteration budget of zero the
    loop body never runs, and on a model just built the line after the loop
    reads the empty moments dictionary. *)
Remark fit_zero_budget_raises st rnd eig x :
  fit_ready st rnd eig x -> max_iter st = 0%nat -> moments st = None ->
  fit norm_ppf st rnd eig x = Raise KeyError.
Proof.
  intros Hready Hmax Hnone.
  destruct (fit_init_ok st rnd eig x Hready)
    as (st1 & x1 & l & Hinit & _ & _ & _ & _ & _ & _ & I5 & _ & _ & _ & I9 & _).
  unfold fit. rewrite Hinit. cbn [bind fst snd]. rewrite I5, Hmax. cbn [seq for_loop bind fst snd].
  unfold reorder, tcs, get_moments. now rewrite I9, Hnone.
Qed.

(** ** C7: the multipliers *)

(** The multipliers [lam_update] returns, entry by entry. *)
Lemma lam_update_entries s mo :
  moments s = Some mo -> shape (m s) (nv s) (ws s) -> moments_shape (m s) (nv s) mo ->
  exists ad l,
    additivity s = Ok ad /\ length ad = nv s /\
    lam_update s mo = Ok l /\ length l = nv s /\
    forall i, (i < nv s)%nat ->
      at1 l i = spec_lam (at1 ad i) (spec_a (noise s) (ws s) mo (m s) i)
                         (spec_b (noise s) (ws s) mo (m s) i).
Proof.
  intros Hm Hw Hsh.
  destruct (additivity_ok s mo Hm Hsh) as (ad & Had & Hadl).
  assert (HQ := Q_of_shape s mo Hw Hsh).
  assert (HR := R_of_shape s mo Hw Hsh).
  assert (Hxy : shape (nv s) (m s) (X_i_Y_j mo)) by (destruct Hsh as (_ & H & _); exact H).
  set (A := mmap2 Rminus (mmap (Rmult (noise s ^ 2)) (Q_of s mo)) (ws s)).
  set (B := mmap2 Rminus (mmap (Rmult (noise s ^ 2)) (R_of s mo)) (ws s)).
  assert (HA : shape (m s) (nv s) A) by (apply mmap2_shape; [now apply mmap_shape | assumption]).
  assert (HB : shape (m s) (nv s) B) by (apply mmap2_shape; [now apply mmap_shape | assumption]).
  assert (Hal : length (einsum_ji_ij_i (nv s) A (X_i_Y_j mo)) = nv s)
    by (unfold einsum_ji_ij_i; now rewrite length_map, length_seq).
  assert (Hbl : length (einsum_ji_ij_i (nv s) B (X_i_Y_j mo)) = nv s)
    by (unfold einsum_ji_ij_i; now rewrite length_map, length_seq).
  exists ad. eexists.
  split; [exact Had|]. split; [exact Hadl|].
  split. { unfold lam_update. rewrite Had. cbn [bind]. reflexivity. }
  fold A. fold B.
  split. { rewrite !map2_length, Hadl, Hal, Hbl. lia. }
  intros i Hi. unfold at1 at 1.
  rewrite (nth_map2 (fun a t => if Rlt_dec a 0 then t else 0) _ _ i 0 0 0)
    by (rewrite ?map2_length, ?Hadl, ?Hal, ?Hbl; lia).
  rewrite (nth_map2 (fun b a => expit (0.5 * ln (Rabs (b / a)))) _ _ i 0 0 0)
    by (rewrite ?Hal, ?Hbl; lia).
  change (nth i ad 0) with (at1 ad i).
  change (nth i (einsum_ji_ij_i (nv s) A (X_i_Y_j mo)) 0)
    with (at1 (einsum_ji_ij_i (nv s) A (X_i_Y_j mo)) i).
  change (nth i (einsum_ji_ij_i (nv s) B (X_i_Y_j mo)) 0)
    with (at1 (einsum_ji_ij_i (nv s) B (X_i_Y_j mo)) i).
  rewrite (at1_einsum_ji_ij_i (m s) (nv s) A) by (try assumption; exact (shape_length _ _ _ HA)).
  rewrite (at1_einsum_ji_ij_i (m s) (nv s) B) by (try assumption; exact (shape_length _ _ _ HB)).
  unfold spec_lam, spec_a, spec_b.
  rewrite (sum_n_ext (m s) (fun j => at2 A j i * at2 (X_i_Y_j mo) i j)
             (fun j => (noise s ^ 2 * spec_Q mo j i - at2 (ws s) j i) * at2 (X_i_Y_j mo) i j)).
  2:{ intros j Hj. unfold A.
      rewrite (at2_mmap2 _ (m s) (nv s)) by (try assumption; now apply mmap_shape).
      rewrite (at2_mmap _ (m s) (nv s)) by assumption.
      now rewrite at2_Q_of. }
  rewrite (sum_n_ext (m s) (fun j => at2 B j i * at2 (X_i_Y_j mo) i j)
             (fun j => (noise s ^ 2 * spec_R mo j i - at2 (ws s) j i) * at2 (X_i_Y_j mo) i j)).
  2:{ intros j Hj. unfold B.
      rewrite (at2_mmap2 _ (m s) (nv s)) by (try assumption; now apply mmap_shape).
      rewrite (at2_mmap _ (m s) (nv s)) by assumption.
      now rewrite at2_R_of. }
  reflexivity.
Qed.

Lemma spec_lam_range ad a b : in_unit (spec_lam ad a b).
Proof.
  unfold spec_lam, in_unit. destruct (Rlt_dec ad 0); [|lra].
  pose proof (expit_range (0.5 * ln (Rabs (b / a)))). lra.
Qed.

(** The state on which the loop made its last call of [_update_ws]. *)
Lemma for_loop_last_update x n : forall todo bound st st' bound' b,
  shape n (nv st) x -> loop_inv st -> noise st <> 0 -> todo <> [] ->
  for_loop todo bound x st = Ok (st', bound', b) ->
  exists s mo,
    _update_ws s = Ok st' /\ moments s = Some mo /\
    moments_shape (m st) (nv st) mo /\ shape (m st) (nv st) (ws s) /\
    m s = m st /\ nv s = nv st /\ noise s = noise st /\ additive s = additive st.
Proof.
  induction todo as [|i rest IH]; intros bound st st' bound' b Hx Hinv Hs Hne Hrun;
    [contradiction|].
  destruct (iteration_ok st x n Hx Hinv Hs)
    as (mo & t & st3 & Hmo & Hshape & Hvar & Ht & Hup & Hd & Hinv3 & Hcfg & Hh3 & Hm3 & _).
  assert (Hcfg' := Hcfg). destruct Hcfg' as (C1 & C2 & C3 & C4 & C5 & C6 & _).
  assert (Hhere : exists s mo0,
            _update_ws s = Ok st3 /\ moments s = Some mo0 /\
            moments_shape (m st) (nv st) mo0 /\ shape (m st) (nv st) (ws s) /\
            m s = m st /\ nv s = nv st /\ noise s = noise st /\ additive s = additive st).
  { exists (set_tc_history (set_moments st mo) (tc_history st ++ [t])), mo.
    split; [exact Hup|]. cbn [moments ws m nv noise additive set_tc_history set_moments].
    destruct Hinv as (Hw & _).
    split; [reflexivity|]. split; [exact Hshape|]. split; [exact Hw|].
    repeat split; reflexivity. }
  cbn [for_loop] in Hrun. rewrite Hmo in Hrun. cbn [bind] in Hrun.
  rewrite Ht in Hrun. cbn [bind] in Hrun.
  change (tc_history (set_moments st mo)) with (tc_history st) in Hrun.
  rewrite Hup in Hrun. cbn [bind] in Hrun. rewrite Hd in Hrun. cbn [bind] in Hrun.
  destruct (Rlt_dec (Rabs (t - last (tc_history st) 0)) (tol st3)) as [Hlt|Hge].
  - injection Hrun as E1 E2 E3. subst st'. exact Hhere.
  - destruct rest as [|i' rest'].
    + cbn [for_loop] in Hrun. injection Hrun as E1 E2 E3. subst st'. exact Hhere.
    + assert (Hx3 : shape n (nv st3) x) by now rewrite C2.
      assert (Hs3 : noise st3 <> 0) by now rewrite C3.
      destruct (IH (Some i) st3 st' bound' b Hx3 Hinv3 Hs3 ltac:(discriminate) Hrun)
        as (s & mo0 & U1 & U2 & U3 & U4 & U5 & U6 & U7 & U8).
      exists s, mo0. rewrite C1, C2 in U3, U4.
      split; [exact U1|]. split; [exact U2|]. split; [exact U3|]. split; [exact U4|].
      repeat split; congruence.
Qed.

(** C7 (as amended).  [fit] broadcasts the initial multiplier unchanged, one
    copy per variable.  With additivity enforcement off, [_update_ws]
    leaves the multipliers alone, so after [fit] they are the initial ones,
    whatever their value, and lie in [0,1] exactly when the initial ones
    do.  With enforcement on, every call of [_update_ws] on a model holding
    moments sets [lam_i] to 0 when the additivity statistic of the variable
    is not negative and to [expit(0.5 log|b_i / a_i|)] otherwise, with
    [a_i = sum_j (sigma^2 Q_ji - W_ji) C_ij] and [b_i] the same over [R];
    the value lies in [0,1] when the denominators of [Q] and [R] are
    positive and neither [a_i] nor [b_i] is zero; and the multipliers
    [fit] returns are those of the last such call of its loop. *)
Theorem lam_unit_interval st rnd eig x :
  fit_ready st rnd eig x -> noise st <> 0 -> (1 <= max_iter st)%nat ->
  exists st1 x1 st' l0 l',
    fit_init norm_ppf st rnd eig x = Ok (st1, x1) /\
    fit norm_ppf st rnd eig x = Ok st' /\
    lam st1 = LamArray l0 /\ length l0 = ncols x /\
    (forall i, (i < ncols x)%nat ->
       at1 l0 i = match lam st with LamScalar r => r | LamArray w => at1 w i end) /\
    lam st' = LamArray l' /\ length l' = ncols x /\
    (forall s mo, additive s = true -> moments s = Some mo ->
       shape (m s) (nv s) (ws s) -> moments_shape (m s) (nv s) mo ->
       exists ad l s',
         additivity s = Ok ad /\ _update_ws s = Ok s' /\
         lam s' = LamArray l /\ length l = nv s /\
         forall i, (i < nv s)%nat ->
           at1 l i = spec_lam (at1 ad i) (spec_a (noise s) (ws s) mo (m s) i)
                              (spec_b (noise s) (ws s) mo (m s) i) /\
           (~ at1 ad i < 0 -> at1 l i = 0) /\
           (at1 ad i < 0 ->
              at1 l i = expit (0.5 * ln (Rabs (spec_b (noise s) (ws s) mo (m s) i
                                               / spec_a (noise s) (ws s) mo (m s) i)))) /\
           (ratios_defined mo (m s) i ->
            0 < Rabs (spec_a (noise s) (ws s) mo (m s) i) ->
            0 < Rabs (spec_b (noise s) (ws s) mo (m s) i) ->
            in_unit (at1 l i))) /\
    (forall s s', additive s = false -> _update_ws s = Ok s' -> lam s' = lam s) /\
    (additive st = false -> l' = l0 /\ (Forall in_unit l0 <-> Forall in_unit l')) /\
    (additive st = true ->
       exists s sL mo,
         _update_ws s = Ok sL /\ lam sL = LamArray l' /\
         additive s = true /\ moments s = Some mo /\
         shape (m s) (nv s) (ws s) /\ moments_shape (m s) (nv s) mo /\
         m s = m st /\ nv s = ncols x /\ noise s = noise st).
Proof.
  intros Hready Hs Hmax.
  destruct (fit_run st rnd eig x Hready Hs Hmax)
    as (st1 & x1 & stL & b & new & moL & t & mo' & Hinit & Hrun & Hout & Hnew & HinvL
        & Hcfg & HmL & HshL & HvarL & Hoff & Hon & Ht & Hperm & Hmo' & Hsh' & Hvar' & Hfit).
  destruct (fit_init_ok st rnd eig x Hready)
    as (st1' & x1' & l0 & Hinit' & Hx1 & Hinv1 & I1 & I2 & I3 & I4 & I5 & I6 & I7 & I8 & I9 & I10
        & I11 & I12 & _).
  rewrite Hinit in Hinit'. inversion Hinit'; subst st1' x1'; clear Hinit'.
  destruct Hready as (_ & _ & _ & _ & Hlam & _).
  destruct (lam_times_ones_ok (lam st) (ncols x) Hlam) as (v & Hv & Hvlen & _ & Hentries).
  rewrite I12 in Hv. inversion Hv; subst v; clear Hv.
  assert (HinvL' := HinvL). destruct HinvL' as (_ & _ & (lL & HlL & HlLlen) & _).
  assert (Hcfg' := Hcfg). destruct Hcfg' as (C1 & C2 & C3 & C4 & C5 & C6 & _).
  exists st1, x1. eexists. exists l0, lL.
  split; [assumption|]. split; [exact Hfit|].
  cbn [lam set_n_loops set_moments set_ws].
  split; [assumption|]. split; [assumption|]. split; [assumption|].
  split; [assumption|]. split; [congruence|].
  split.
  { intros s mo Ha Hm Hw Hsh.
    destruct (lam_update_entries s mo Hm Hw Hsh) as (ad & l & Had & Hadl & Hl & Hll & Hent).
    destruct (update_ws_ok s mo Hm Hw Hsh) as (l2 & Hup & _ & _ & Hon2).
    { intros Hf. congruence. }
    specialize (Hon2 Ha). assert (l2 = l) by congruence. subst l2.
    rewrite Ha in Hup.
    exists ad, l. eexists. split; [exact Had|]. split; [exact Hup|].
    cbn [lam set_ws set_lam]. split; [reflexivity|]. split; [exact Hll|].
    intros i Hi. rewrite (Hent i Hi).
    split; [reflexivity|].
    split. { intros Hge. unfold spec_lam. now destruct (Rlt_dec (at1 ad i) 0). }
    split. { intros Hlt. unfold spec_lam. now destruct (Rlt_dec (at1 ad i) 0). }
    intros _ _ _. apply spec_lam_range. }
  split.
  { intros s s' Ha Hup. now apply (update_ws_frame s s' Hup). }
  split.
  { intros Ha. specialize (Hoff Ha). assert (lL = l0) by congruence. subst lL.
    split; [reflexivity | tauto]. }
  intros Ha.
  assert (Hne : seq 0 (max_iter st) <> []).
  { destruct (max_iter st); [lia | discriminate]. }
  rewrite <- I5 in Hrun, Hne.
  assert (Hs1 : noise st1 <> 0) by now rewrite I3.
  destruct (for_loop_last_update x1 (length x) _ _ st1 stL _ _ Hx1 Hinv1 Hs1 Hne Hrun)
    as (s & mo & U1 & U2 & U3 & U4 & U5 & U6 & U7 & U8).
  exists s, stL, mo.
  split; [exact U1|]. split; [exact HlL|]. split; [congruence|]. split; [exact U2|].
  split; [now rewrite U5, U6|]. split; [now rewrite U5, U6|].
  split; [congruence|]. split; congruence.
Qed.

(** ** [transform] and [predict] *)

(** The array [transform] works on after its preprocessing. *)
Lemma transform_inv st x details out :
  transform norm_ppf st x details = Ok out ->
  nv st = ncols x /\
  exists x1,
    (if gaussianize_marginals st then x1 = gaussianize norm_ppf x
     else exists mu, mean_x st = Some mu /\ x1 = center x mu) /\
    latent out = dot x1 (transpose (nv st) (ws st)) (length (ws st)) /\
    caller_array out = (if copy st || gaussianize_marginals st then x else x1) /\
    (if details
     then exists mo, details_moments out = Some mo /\ _calculate_moments st x1 = Ok mo
     else details_moments out = None).
Proof.
  unfold transform. intros H.
  destruct (Nat.eqb_spec (nv st) (ncols x)) as [Hnv|Hnv]; [|discriminate].
  simpl in H. split; [assumption|].
  destruct (gaussianize_marginals st) eqn:Hg.
  - cbn [bind] in H. exists (gaussianize norm_ppf x). split; [reflexivity|].
    destruct details.
    + destruct (_calculate_moments st (gaussianize norm_ppf x)) as [mo|e] eqn:E; [|discriminate].
      cbn [bind] in H. inversion H; subst; clear H. simpl.
      rewrite orb_true_r. repeat split; eauto.
    + inversion H; subst; clear H. simpl. rewrite orb_true_r. repeat split; eauto.
  - destruct (mean_x st) as [mu|]; [|discriminate]. cbn [bind] in H.
    exists (center x mu). split; [eauto|].
    destruct details.
    + destruct (_calculate_moments st (center x mu)) as [mo|e] eqn:E; [|discriminate].
      cbn [bind] in H. inversion H; subst; clear H. simpl. repeat split; eauto.
    + inversion H; subst; clear H. simpl. repeat split; eauto.
Qed.

Lemma transform_ok st x details :
  nv st = ncols x -> shape (length x) (ncols x) x ->
  shape (m st) (nv st) (ws st) -> cache_ok st -> noise st <> 0 ->
  (gaussianize_marginals st = false -> exists mu, mean_x st = Some mu /\ length mu = nv st) ->
  exists out, transform norm_ppf st x details = Ok out.
Proof.
  intros Hnv Hx Hw Hc Hs Hmu. unfold transform.
  rewrite Hnv, Nat.eqb_refl. simpl.
  destruct (gaussianize_marginals st) eqn:Hg; cbn [bind].
  - destruct details; [|eauto].
    destruct (calculate_moments_ok st (gaussianize norm_ppf x) (length x)) as (mo & Hmo & _);
      auto.
    + rewrite Hnv. apply gaussianize_shape.
    + rewrite Hmo. cbn [bind]. eauto.
  - destruct (Hmu eq_refl) as (mu & Hmean & Hlen). rewrite Hmean. cbn [bind].
    destruct details; [|eauto].
    destruct (calculate_moments_ok st (center x mu) (length x)) as (mo & Hmo & _); auto.
    + unfold center. apply mat_row_shape; [rewrite Hnv|]; assumption.
    + rewrite Hmo. cbn [bind]. eauto.
Qed.

(** The state [fit] returns: shapes, cached variance, stored mean. *)
Lemma fit_result st rnd eig x :
  fit_ready st rnd eig x -> noise st <> 0 -> (1 <= max_iter st)%nat ->
  exists st1 x1 st' mo,
    fit_init norm_ppf st rnd eig x = Ok (st1, x1) /\
    fit norm_ppf st rnd eig x = Ok st' /\
    m st' = m st /\ nv st' = ncols x /\ noise st' = noise st /\
    copy st' = copy st /\ gaussianize_marginals st' = gaussianize_marginals st /\
    shape (m st') (nv st') (ws st') /\
    moments st' = Some mo /\ moments_shape (m st') (nv st') mo /\
    X_i2 mo = variance_entry st1 x1 /\
    mean_x st' = mean_x st1.
Proof.
  intros Hready Hs Hmax.
  destruct (fit_run st rnd eig x Hready Hs Hmax)
    as (st1 & x1 & stL & b & new & moL & t & mo' & Hinit & Hrun & Hout & Hnew & HinvL
        & Hcfg & HmL & HshL & HvarL & Hoff & Hon & Ht & Hperm & Hmo' & Hsh' & Hvar' & Hfit).
  destruct (fit_init_ok st rnd eig x Hready)
    as (st1' & x1' & l0 & Hinit' & _ & _ & I1 & I2 & I3 & I4 & I5 & I6 & I7 & I8 & _).
  rewrite Hinit in Hinit'. inversion Hinit'; subst st1' x1'; clear Hinit'.
  destruct Hcfg as (C1 & C2 & C3 & C4 & C5 & C6 & C7 & C8 & C9).
  destruct HinvL as (HwL & _).
  exists st1, x1. eexists. exists mo'.
  split; [assumption|]. split; [exact Hfit|]. simpl.
  split; [congruence|]. split; [congruence|]. split; [congruence|].
  split; [congruence|]. split; [congruence|].
  split; [apply take_rows_shape; [assumption | now rewrite C1, I2]|].
  split; [reflexivity|].
  split; [now rewrite C1, C2, I1, I2|].
  split; [congruence | assumption].
Qed.

(** In the moments [transform] returns with [details], the variance entry
    is the one cached by [fit]: the variance of the preprocessed training
    data, whatever the new data. *)
Lemma transform_details_variance st rnd eig x x2 :
  fit_ready st rnd eig x -> noise st <> 0 -> (1 <= max_iter st)%nat ->
  shape (length x2) (ncols x2) x2 -> ncols x2 = ncols x ->
  exists st1 x1 st' mo out mo2,
    fit_init norm_ppf st rnd eig x = Ok (st1, x1) /\
    fit norm_ppf st rnd eig x = Ok st' /\
    moments st' = Some mo /\
    transform norm_ppf st' x2 true = Ok out /\
    details_moments out = Some mo2 /\
    X_i2 mo2 = X_i2 mo /\
    (moments st = None -> X_i2 mo2 = variance_of (ncols x) x1).
Proof.
  intros Hready Hs Hmax Hx2 Hnc.
  destruct (fit_result st rnd eig x Hready Hs Hmax)
    as (st1 & x1 & st' & mo & Hinit & Hfit & F1 & F2 & F3 & F4 & F5 & Hw & Hm & Hsh & Hvar & Hmean).
  destruct (fit_init_ok st rnd eig x Hready)
    as (st1' & x1' & l0 & Hinit' & _ & _ & I1 & I2 & I3 & I4 & I5 & I6 & I7 & I8 & I9 & I10
        & I11 & I12 & I13 & I14).
  rewrite Hinit in Hinit'. inversion Hinit'; subst st1' x1'; clear Hinit'.
  destruct (transform_ok st' x2 true) as (out & Hout); try assumption; try congruence.
  - unfold cache_ok. rewrite Hm. now destruct Hsh.
  - rewrite F5, Hmean, I13. intros Hg. rewrite Hg. eexists. split; [reflexivity|].
    unfold sum_axis0. rewrite !length_map, length_seq. congruence.
  - destruct (transform_inv st' x2 true out Hout) as (_ & x2' & _ & _ & _ & mo2 & Hd & Hcalc).
    destruct (calculate_moments_inv st' x2' mo2 Hcalc) as (Hv2 & _).
    unfold variance_entry in Hv2. rewrite Hm in Hv2.
    exists st1, x1, st', mo, out, mo2.
    repeat split; try assumption.
    intros Hnone. rewrite Hv2, Hvar. unfold variance_entry. rewrite I9, Hnone.
    now rewrite I1.
Qed.

(** [predict] on a model holding moments: entry [(l, i)] of the result is
    [sum_j y[l][j] * Z[i][j]] over the stored cleaned cross-moment [Z]. *)
Lemma predict_entries st mo y n :
  moments st = Some mo -> shape (nv st) (m st) (X_i_Z_j mo) -> shape n (m st) y ->
  (1 <= n)%nat ->
  exists out,
    predict st y = Ok out /\ shape n (nv st) out /\
    forall l i, (l < n)%nat -> (i < nv st)%nat ->
      at2 out l i = sum_n (m st) (fun j => at2 y l j * at2 (X_i_Z_j mo) i j).
Proof.
  intros Hm Hz Hy Hn. unfold predict, get_moments. rewrite Hm. cbn [bind].
  assert (Hnc : ncols y = m st).
  { destruct y as [|r y']; [destruct Hy; simpl in *; lia|].
    simpl. destruct Hy as [_ Hf]. now inversion Hf. }
  rewrite Hnc, (shape_length _ _ _ Hy).
  eexists. split; [reflexivity|]. split.
  - apply transpose_shape'. eapply dot_shape'. exact Hz.
  - intros l i Hl Hi. rewrite at2_transpose by assumption.
    rewrite (at2_dot_sum (nv st) (m st) n); try assumption.
    + apply sum_n_ext. intros j Hj. rewrite at2_transpose by assumption. lra.
    + apply (shape_length _ _ _ (transpose_shape _ _)).
Qed.

End FitProperties.

(** ** A run of [fit], evaluated *)

Ltac unfold_arrays :=
  unfold latent_cov, cross_moment, latent_values, variance_entry, variance_of,
    einsum_li_li_i, einsum_ij_ij_i, einsum_ji_ij_i, einsum_ir_i_is_i_rs,
    fill_diagonal_0, sum_axis0, sum_axis1, center, diag, at2, at1,
    dot, transpose, col, mmap, mmap2, mat_row, row_col, eye, vsub, vscale, vdot, map2.

Ltac arr_eq :=
  repeat match goal with
         | |- @eq (list _) (_ :: _) (_ :: _) => f_equal
         | |- @eq (result _) (Ok _) (Ok _) => f_equal
         | |- @eq Moments _ _ => f_equal
         | |- @eq transformed _ _ => f_equal
         | |- @eq (prod _ _) (_, _) (_, _) => f_equal
         end;
  try reflexivity; try lra.

Lemma fit_init_1 ppf st l :
  gaussianize_marginals st = false -> noise st = 1 -> lam st = LamScalar l ->
  fit_init ppf st rnd_1 eig_1 data_13
  = Ok (set_lam (set_ws (set_ws (set_mean_x (set_shape st 2 1) [2]) rnd_1) [[1]])
          (LamArray [l]),
        [[-1]; [1]]).
Proof.
  intros Hg Hs Hl. unfold fit_init.
  change (gaussianize_marginals (set_shape st (length data_13) (ncols data_13)))
    with (gaussianize_marginals st).
  rewrite Hg.
  change (nv (set_shape st (length data_13) (ncols data_13))) with 1%nat.
  assert (Hmu : map (fun s => s / INR (length data_13)) (sum_axis0 1 data_13) = [2]).
  { unfold data_13. unfold_arrays. simpl. arr_eq. }
  rewrite Hmu.
  assert (Hc : center data_13 [2] = [[-1]; [1]]).
  { unfold data_13. unfold_arrays. simpl. arr_eq. }
  rewrite Hc.
  cbn [nv ws noise lam set_ws set_mean_x set_shape].
  assert (Hw : mat_row Rdiv
                 (mmap (fun t => t * noise st ^ 2)
                    (_sym_decorrelation rnd_1 eig_1 (ncols data_13)))
                 (map sqrt
                    (map (fun s => s / INR (length data_13))
                       (einsum_li_li_i (ncols data_13) [[-1]; [1]] [[-1]; [1]])))
               = [[1]]).
  { rewrite Hs. unfold _sym_decorrelation, rnd_1, eig_1, data_13. unfold_arrays. simpl.
    replace ((-1 * -1 + (1 * 1 + 0)) / (1 + 1)) with 1 by lra.
    rewrite sqrt_1. arr_eq. }
  rewrite Hw, Hl. unfold lam_times_ones, data_13. cbn [ncols length repeat map bind].
  replace (l * 1) with l by lra. reflexivity.
Qed.

Lemma calculate_moments_1 st :
  nv st = 1%nat -> m st = 1%nat -> ws st = [[1]] -> noise st = 1 ->
  variance_entry st [[-1]; [1]] = [1] ->
  _calculate_moments st [[-1]; [1]] = Ok moments_1.
Proof.
  intros Hnv Hm Hw Hs Hv.
  assert (Hxy : cross_moment st [[-1]; [1]] = [[1]]).
  { unfold cross_moment, latent_values. rewrite Hnv, Hw. unfold_arrays. simpl.
    arr_eq. }
  assert (Hcy : latent_cov st [[-1]; [1]] = [[2]]).
  { unfold latent_cov. rewrite Hxy, Hw, Hm, Hs. unfold_arrays. simpl.
    arr_eq. }
  unfold _calculate_moments. rewrite Hv, Hxy, Hcy, Hw, Hnv.
  unfold solve. simpl.
  destruct (Req_dec_T 2 0) as [H0|_]; [lra|]. simpl.
  unfold moments_1, sub_combo. unfold_arrays. simpl.
  arr_eq.
Qed.

Lemma variance_1 : variance_of 1 [[-1]; [1]] = [1].
Proof. unfold_arrays. simpl. arr_eq. Qed.

Lemma tc_1 st :
  moments st = Some moments_1 -> noise st = 1 -> tcs st = Ok [0] /\ tc st = Ok 0.
Proof.
  intros Hm Hs.
  assert (Ht : tcs st = Ok [0]).
  { unfold tcs, mis, get_moments. rewrite Hm, Hs. simpl.
    unfold calculate_mi, moments_1. unfold_arrays. simpl.
    replace (1 - 1 * (1 * 1) / (2 * 1)) with (/ 2) by lra.
    replace (1 * (1 * 1)) with 1 by lra.
    rewrite ln_Rinv, ln_1 by lra.
    arr_eq. }
  split; [assumption|]. unfold tc. rewrite Ht. simpl. arr_eq.
Qed.

Lemma new_ws_1 st l :
  nv st = 1%nat -> ws st = [[1]] -> noise st = 1 ->
  new_ws st moments_1 [l] = [[1]].
Proof.
  intros Hnv Hw Hs. unfold new_ws, H_of, Q_of, R_of. rewrite Hnv, Hw, Hs.
  unfold moments_1. unfold_arrays. simpl.
  arr_eq.
Qed.

Lemma update_ws_1 st l :
  moments st = Some moments_1 -> additive st = false -> lam st = LamArray [l] ->
  nv st = 1%nat -> ws st = [[1]] -> noise st = 1 ->
  _update_ws st = Ok (set_ws st [[1]]).
Proof.
  intros Hm Ha Hl Hnv Hw Hs. unfold _update_ws, get_moments.
  rewrite Hm. cbn [bind]. rewrite Ha. cbn [bind]. rewrite Hl.
  now rewrite new_ws_1.
Qed.

Lemma reorder_1 st i :
  moments st = Some moments_1 -> nv st = 1%nat -> m st = 1%nat ->
  ws st = [[1]] -> noise st = 1 ->
  reorder st (Some i) [[-1]; [1]]
  = Ok (set_n_loops (set_moments (set_ws st [[1]]) moments_1) i).
Proof.
  intros Hm Hnv Hm1 Hw Hs. unfold reorder.
  destruct (tc_1 st Hm Hs) as [Htcs _]. rewrite Htcs. cbn [bind map].
  unfold argsort. cbn [length seq fold_right insert_by take_rows map]. rewrite Hw.
  cbn [nth].
  rewrite calculate_moments_1;
    [reflexivity | exact Hnv | exact Hm1 | reflexivity | exact Hs |].
  unfold variance_entry. cbn [moments set_ws]. now rewrite Hm.
Qed.

Lemma fit_fresh_1 ppf l c :
  fit ppf (fresh_1 l c) rnd_1 eig_1 data_13 = Ok (fitted_1 l c).
Proof.
  unfold fit. rewrite (fit_init_1 ppf (fresh_1 l c) l) by reflexivity.
  cbn [bind fst snd].
  change (max_iter _) with 1%nat. cbn [seq for_loop].
  rewrite calculate_moments_1;
    [| reflexivity | reflexivity | reflexivity | reflexivity | exact variance_1].
  cbn [bind].
  destruct (tc_1 (set_moments
                    (set_lam (set_ws (set_ws (set_mean_x (set_shape (fresh_1 l c) 2 1) [2])
                                        rnd_1) [[1]]) (LamArray [l])) moments_1)
              eq_refl eq_refl) as [_ Htc].
  rewrite Htc. cbn [bind].
  rewrite (update_ws_1 _ l) by reflexivity. cbn [bind].
  cbn [tc_history set_ws set_tc_history set_moments set_lam set_mean_x set_shape
       fresh_1 __init__ app tol].
  unfold last_delta. cbn [rev app bind].
  destruct (Rlt_dec (Rabs (0 - 0)) (1 / 100000)) as [_|Hn].
  2:{ exfalso. apply Hn. replace (0 - 0) with 0 by lra. rewrite Rabs_R0. lra. }
  cbn [bind fst snd].
  rewrite reorder_1 by reflexivity.
  reflexivity.
Qed.

(** A run that leaves the loop before its budget is used up: with a budget
    of 5 the first pass already sees a difference below [tol], so the loop
    breaks with [i_loop = 0] and one new trace entry. *)
Lemma fit_breaks_early ppf :
  exists st',
    fit ppf fresh_1_5 rnd_1 eig_1 data_13 = Ok st' /\
    max_iter st' = 5%nat /\ n_loops st' = Some 0%nat /\
    tc_history st' = [0; 0] /\ ws st' = [[1]] /\ moments st' = Some moments_1.
Proof.
  unfold fit. rewrite (fit_init_1 ppf fresh_1_5 0) by reflexivity.
  cbn [bind fst snd].
  change (max_iter (set_lam _ _)) with 5%nat. cbn [seq for_loop].
  rewrite calculate_moments_1;
    [| reflexivity | reflexivity | reflexivity | reflexivity | exact variance_1].
  cbn [bind].
  destruct (tc_1 (set_moments
                    (set_lam (set_ws (set_ws (set_mean_x (set_shape fresh_1_5 2 1) [2])
                                        rnd_1) [[1]]) (LamArray [0])) moments_1)
              eq_refl eq_refl) as [_ Htc].
  rewrite Htc. cbn [bind].
  rewrite (update_ws_1 _ 0) by reflexivity. cbn [bind].
  cbn [tc_history set_ws set_tc_history set_moments set_lam set_mean_x set_shape
       fresh_1_5 __init__ app tol].
  unfold last_delta. cbn [rev app bind].
  destruct (Rlt_dec (Rabs (0 - 0)) (1 / 100000)) as [_|Hn].
  2:{ exfalso. apply Hn. replace (0 - 0) with 0 by lra. rewrite Rabs_R0. lra. }
  cbn [bind fst snd].
  rewrite reorder_1 by reflexivity.
  eexists. split; [reflexivity|]. repeat split.
Qed.

Lemma fit_ready_fresh_1 l c : fit_ready (fresh_1 l c) rnd_1 eig_1 data_13.
Proof.
  unfold fit_ready, fresh_1, rnd_1, eig_1, data_13. simpl.
  repeat split; try reflexivity; try (repeat constructor); discriminate.
Qed.

(** [eig_1] is the eigendecomposition of the Gram matrix of [rnd_1]. *)
Lemma eig_1_decomposes_gram :
  dot (mat_row Rmult (snd eig_1) (fst eig_1)) (transpose 1 (snd eig_1)) 1
  = dot rnd_1 (transpose 1 rnd_1) 1.
Proof. unfold eig_1, rnd_1. unfold_arrays. simpl. arr_eq. Qed.

Section TransformProperties.

Variable norm_ppf : R -> R.

(** ** C9: calling [transform] twice *)

(** Reading the store after an allocation or a write. *)
Lemma read_app_old (h ext : list matrix) r :
  (r < length h)%nat -> read (h ++ ext) r = read h r.
Proof. intros H. unfold read. now rewrite app_nth1. Qed.

Lemma read_alloc_new (h : list matrix) a : read (h ++ [a]) (length h) = a.
Proof. unfold read. now rewrite nth_middle. Qed.

Lemma write_length (h : list matrix) r a : length (write h r a) = length h.
Proof.
  revert r. induction h as [|b h IH]; intros r; [reflexivity|].
  destruct r; simpl; [reflexivity | now rewrite IH].
Qed.

Lemma read_write_same (h : list matrix) r a :
  (r < length h)%nat -> read (write h r a) r = a.
Proof.
  revert r. induction h as [|b h IH]; intros r H; simpl in H; [lia|].
  destruct r; [reflexivity|]. simpl. apply IH. lia.
Qed.

Lemma read_write_other (h : list matrix) r r' a :
  r' <> r -> read (write h r a) r' = read h r'.
Proof.
  revert r r'. induction h as [|b h IH]; intros r r' H; [reflexivity|].
  destruct r, r'; simpl; try reflexivity; try contradiction.
  apply IH. congruence.
Qed.

Lemma write_last (h : list matrix) a b : write (h ++ [a]) (length h) b = h ++ [b].
Proof. induction h as [|c h IH]; simpl; [reflexivity | now rewrite IH]. Qed.

Lemma load_app_old (h ext : list matrix) o :
  (ws_at o < length h)%nat -> load (h ++ ext) o = load h o.
Proof. intros H. unfold load. now rewrite read_app_old. Qed.

(** What a call computes from the array it works on. *)
Lemma returned_transform st x details :
  returned (transform norm_ppf st x details)
  = if negb (Nat.eqb (nv st) (ncols x)) then Raise AssertionError
    else
      x1 <- (if gaussianize_marginals st then Ok (gaussianize norm_ppf x)
             else match mean_x st with
                  | Some mu => Ok (center x mu)
                  | None => Raise TypeError
                  end) ;;
      if details
      then mo <- _calculate_moments st x1 ;;
           Ok (dot x1 (transpose (nv st) (ws st)) (length (ws st)), Some mo)
      else Ok (dot x1 (transpose (nv st) (ws st)) (length (ws st)), None).
Proof.
  unfold transform. destruct (negb (Nat.eqb (nv st) (ncols x))); [reflexivity|].
  destruct (gaussianize_marginals st); cbn [bind].
  - destruct details; [|reflexivity].
    now destruct (_calculate_moments st (gaussianize norm_ppf x)).
  - destruct (mean_x st) as [mu|]; [|reflexivity]. cbn [bind].
    destruct details; [|reflexivity].
    now destruct (_calculate_moments st (center x mu)).
Qed.

(** With a copy, or with gaussianization, the call only allocates: the
    store it leaves is the one it found followed by new arrays, and what it
    returns is what the call computes from the caller's array as it was. *)
Lemma transform_store_pure o (h : list matrix) r details :
  (r < length h)%nat -> (ws_at o < length h)%nat ->
  copy (fields o) = true \/ gaussianize_marginals (fields o) = true ->
  (exists ext, fst (transform_store norm_ppf o h r details) = h ++ ext) /\
  snd (transform_store norm_ppf o h r details)
  = returned (transform norm_ppf (load h o) (read h r) details).
Proof.
  intros Hr Hw Hor. rewrite returned_transform.
  change (nv (load h o)) with (nv (fields o)).
  change (gaussianize_marginals (load h o)) with (gaussianize_marginals (fields o)).
  change (mean_x (load h o)) with (mean_x (fields o)).
  unfold transform_store, np_array.
  destruct (copy (fields o)) eqn:Hcp.
  - cbn [alloc]. rewrite read_alloc_new.
    destruct (negb (Nat.eqb (nv (fields o)) (ncols (read h r)))).
    { split; [exists [read h r]; reflexivity | reflexivity]. }
    destruct (gaussianize_marginals (fields o)) eqn:Hg.
    + cbn [alloc bind fst snd].
      rewrite read_alloc_new, load_app_old, load_app_old
        by (rewrite ?length_app; simpl; lia).
      split; [|reflexivity].
      exists [read h r; gaussianize norm_ppf (read h r)].
      now rewrite <- app_assoc.
    + destruct (mean_x (fields o)) as [mu|]; cbn [bind fst snd].
      * rewrite write_last, read_alloc_new, load_app_old by assumption.
        split; [|reflexivity]. now exists [center (read h r) mu].
      * split; [exists [read h r]; reflexivity | reflexivity].
  - destruct Hor as [Hf|Hg]; [discriminate|]. rewrite Hg.
    destruct (negb (Nat.eqb (nv (fields o)) (ncols (read h r)))).
    { split; [exists []; now rewrite app_nil_r | reflexivity]. }
    cbn [alloc bind fst snd].
    rewrite read_alloc_new, load_app_old by assumption.
    split; [|reflexivity]. now exists [gaussianize norm_ppf (read h r)].
Qed.

(** Without a copy and without gaussianization, the call writes the
    centered values into the caller's array. *)
Lemma transform_store_in_place o (h : list matrix) r details mu :
  (r < length h)%nat ->
  copy (fields o) = false -> gaussianize_marginals (fields o) = false ->
  mean_x (fields o) = Some mu -> nv (fields o) = ncols (read h r) ->
  fst (transform_store norm_ppf o h r details) = write h r (center (read h r) mu) /\
  (r <> ws_at o ->
   snd (transform_store norm_ppf o h r details)
   = returned (transform norm_ppf (load h o) (read h r) details)).
Proof.
  intros Hr Hcp Hg Hmu Hnv. rewrite returned_transform.
  change (nv (load h o)) with (nv (fields o)).
  change (gaussianize_marginals (load h o)) with (gaussianize_marginals (fields o)).
  change (mean_x (load h o)) with (mean_x (fields o)).
  unfold transform_store, np_array. rewrite Hcp, Hg, Hmu, <- Hnv, Nat.eqb_refl.
  cbn [negb bind fst snd].
  split; [reflexivity|].
  intros Hne. rewrite read_write_same by assumption.
  unfold load. rewrite read_write_other by congruence. reflexivity.
Qed.

(** C9 (as amended).  The caller's array is the one at address [r] of the
    store, the model's weights the one at [ws_at].  With [copy=True] (the
    default), or with marginal gaussianization, a call of [transform] only
    allocates new arrays: every array that existed before, the caller's
    and the model's among them, holds what it held; the call returns what
    the method computes from the model and the array as they were; and a
    second call on the resulting store returns the same value.  With
    [copy=False] and no gaussianization the call subtracts the stored mean
    from the caller's array in place and touches no other array: if that
    array is the model's weight array, the model's weights are overwritten;
    otherwise the model is left as it was, and a second call with the same
    array returns latent values lowered by [sum_i mean_i W_ji]. *)
Theorem transform_twice o (h : list matrix) r details :
  (r < length h)%nat -> (ws_at o < length h)%nat ->
  (copy (fields o) = true \/ gaussianize_marginals (fields o) = true ->
     exists ext,
       fst (transform_store norm_ppf o h r details) = h ++ ext /\
       (forall r', (r' < length h)%nat -> read (h ++ ext) r' = read h r') /\
       load (h ++ ext) o = load h o /\
       snd (transform_store norm_ppf o h r details)
       = returned (transform norm_ppf (load h o) (read h r) details) /\
       snd (transform_store norm_ppf o (h ++ ext) r details)
       = snd (transform_store norm_ppf o h r details)) /\
  (copy (fields o) = false -> gaussianize_marginals (fields o) = false ->
   forall mu n,
     mean_x (fields o) = Some mu -> length mu = nv (fields o) ->
     shape n (nv (fields o)) (read h r) -> (1 <= n)%nat ->
     fst (transform_store norm_ppf o h r details) = write h r (center (read h r) mu) /\
     read (write h r (center (read h r) mu)) r = center (read h r) mu /\
     (forall r', r' <> r -> read (write h r (center (read h r) mu)) r' = read h r') /\
     (r = ws_at o ->
        ws (load (write h r (center (read h r) mu)) o) = center (ws (load h o)) mu) /\
     (r <> ws_at o -> shape (m (fields o)) (nv (fields o)) (read h (ws_at o)) ->
        load (write h r (center (read h r) mu)) o = load h o /\
        exists y1 y2,
          snd (transform_store norm_ppf o h r false) = Ok (y1, None) /\
          snd (transform_store norm_ppf o (write h r (center (read h r) mu)) r false)
          = Ok (y2, None) /\
          forall l j, (l < n)%nat -> (j < m (fields o))%nat ->
            at2 y2 l j
            = at2 y1 l j
              - sum_n (nv (fields o)) (fun i => at1 mu i * at2 (read h (ws_at o)) j i))).
Proof.
  intros Hr Hw. split.
  - intros Hor.
    destruct (transform_store_pure o h r details Hr Hw Hor) as ((ext & Hext) & Hret).
    exists ext.
    split; [exact Hext|].
    split; [intros r' Hr'; now apply read_app_old|].
    split; [now apply load_app_old|].
    split; [exact Hret|].
    destruct (transform_store_pure o (h ++ ext) r details) as (_ & Hret2);
      try (rewrite length_app; lia); try assumption.
    rewrite Hret2, Hret, load_app_old, read_app_old by assumption. reflexivity.
  - intros Hcp Hg mu n Hmu Hlen Hx Hn.
    set (c := center (read h r) mu).
    assert (Hnv : nv (fields o) = ncols (read h r))
      by (symmetry; exact (shape_ncols _ _ _ Hx Hn)).
    assert (Hc : shape n (nv (fields o)) c) by now apply center_shape.
    assert (Hnc : nv (fields o) = ncols c) by (symmetry; exact (shape_ncols _ _ _ Hc Hn)).
    destruct (transform_store_in_place o h r details mu Hr Hcp Hg Hmu Hnv) as (Hfst & _).
    split; [exact Hfst|].
    split; [now apply read_write_same|].
    split; [intros r' Hne; now apply read_write_other|].
    split.
    { intros ->. unfold load. cbn [ws set_ws]. now rewrite read_write_same. }
    intros Hne Hws.
    assert (Hload : load (write h r c) o = load h o).
    { unfold load. now rewrite read_write_other by congruence. }
    split; [exact Hload|].
    assert (Hw1 : shape (m (load h o)) (nv (load h o)) (ws (load h o))) by exact Hws.
    destruct (transform_store_in_place o h r false mu Hr Hcp Hg Hmu Hnv) as (_ & H1).
    assert (Hr' : (r < length (write h r c))%nat) by now rewrite write_length.
    assert (Hnv' : nv (fields o) = ncols (read (write h r c) r))
      by now rewrite read_write_same.
    destruct (transform_store_in_place o (write h r c) r false mu Hr' Hcp Hg Hmu Hnv')
      as (_ & H2).
    rewrite (H1 Hne), returned_transform. rewrite (H2 Hne), returned_transform.
    rewrite Hload, read_write_same by assumption. fold c.
    change (nv (load h o)) with (nv (fields o)).
    change (gaussianize_marginals (load h o)) with (gaussianize_marginals (fields o)).
    change (mean_x (load h o)) with (mean_x (fields o)).
    replace (Nat.eqb (nv (fields o)) (ncols (read h r))) with true
      by (symmetry; apply Nat.eqb_eq; exact Hnv).
    replace (Nat.eqb (nv (fields o)) (ncols c)) with true
      by (symmetry; apply Nat.eqb_eq; exact Hnc).
    rewrite Hg, Hmu.
    cbn [negb bind].
    eexists. eexists. split; [reflexivity|]. split; [reflexivity|].
    intros l j Hl Hj.
    change (dot (center c mu) (transpose (nv (fields o)) (ws (load h o)))
              (length (ws (load h o))))
      with (latent_values (load h o) (center c mu)).
    change (dot c (transpose (nv (fields o)) (ws (load h o))) (length (ws (load h o))))
      with (latent_values (load h o) c).
    assert (Hcc : shape n (nv (load h o)) (center c mu)) by now apply center_shape.
    rewrite (at2_latent_values (load h o) (center c mu) n) by assumption.
    rewrite (at2_latent_values (load h o) c n) by assumption.
    change (nv (load h o)) with (nv (fields o)).
    change (ws (load h o)) with (read h (ws_at o)).
    rewrite <- sum_n_minus. apply sum_n_ext. intros i Hi.
    rewrite (at2_center c mu n (nv (fields o))) by assumption. ring.
Qed.

(** ** C10: [predict] *)

(** C10.  After [fit], [predict(Y)] for an n by m array [Y] returns the n by
    d array with entries [sum_j Y_{l,j} Z_{i,j}], the product of [Y] with the
    transpose of the cleaned cross-moment [Z] of the moments [fit] stored;
    the result does not depend on the stored mean vector: nothing is added
    back. *)
Theorem predict_formula st rnd eig x y n :
  fit_ready st rnd eig x -> noise st <> 0 -> (1 <= max_iter st)%nat ->
  shape n (m st) y -> (1 <= n)%nat ->
  exists st' mo out,
    fit norm_ppf st rnd eig x = Ok st' /\
    moments st' = Some mo /\
    predict st' y = Ok out /\
    shape n (ncols x) out /\
    (forall l i, (l < n)%nat -> (i < ncols x)%nat ->
       at2 out l i = sum_n (m st) (fun j => at2 y l j * at2 (X_i_Z_j mo) i j)) /\
    (forall mu, predict (set_mean_x st' mu) y = Ok out).
Proof.
  intros Hready Hs Hmax Hy Hn.
  destruct (fit_result norm_ppf st rnd eig x Hready Hs Hmax)
    as (st1 & x1 & st' & mo & _ & Hfit & F1 & F2 & _ & _ & _ & _ & Hm & Hsh & _).
  destruct Hsh as (_ & _ & _ & Hz & _).
  rewrite <- F1 in Hy.
  destruct (predict_entries st' mo y n Hm Hz Hy Hn) as (out & Hp & Hso & He).
  exists st', mo, out. rewrite F1, F2 in *.
  repeat split; try assumption; try (now destruct Hso).
Qed.

End TransformProperties.

(** ** Instances and evaluated examples *)

Lemma fit_ready_fresh_5 : fit_ready fresh_5 rnd_2 eig_2 data_2.
Proof.
  unfold fit_ready, fresh_5, rnd_2, eig_2, data_2. simpl.
  repeat split; try reflexivity; try (repeat constructor); discriminate.
Qed.

Lemma fit_iteration_budget_witness :
  exists stL b new t st',
    fit identity_quantile fresh_5 rnd_2 eig_2 data_2 = Ok st' /\
    tc_history st' = tc_history fresh_5 ++ new /\
    (1 <= length new <= 5)%nat /\
    (b = false -> length new = 5%nat) /\
    tcs stL = Ok t /\
    ~ at1 t (nth 0 (argsort (map Ropp t)) 0%nat)
      < at1 t (nth 1 (argsort (map Ropp t)) 0%nat) /\
    (forall p, (p < 2)%nat ->
       nth p (ws st') [] = nth (nth p (argsort (map Ropp t)) 0%nat) (ws stL) []).
Proof.
  destruct (fit_iteration_budget identity_quantile fresh_5 rnd_2 eig_2 data_2)
    as (st1 & x1 & stL & b & new & t & st' & H1 & _ & _ & H4 & H5 & _ & _ & _ & H9 & H10
        & _ & _ & _ & _ & H15 & H16 & _).
  - apply fit_ready_fresh_5.
  - simpl. lra.
  - simpl. lia.
  - exists stL, b, new, t, st'.
    split; [exact H1|]. split; [exact H4|]. split; [exact H5|]. split; [exact H9|].
    split; [exact H10|]. split; [apply H15; simpl; lia | exact H16].
Defined.

Lemma fit_ready_fresh_a : fit_ready fresh_a rnd_2 eig_2 data_2.
Proof.
  unfold fit_ready, fresh_a, rnd_2, eig_2, data_2. simpl.
  repeat split; try reflexivity; try (repeat constructor); discriminate.
Qed.

Lemma lam_unit_interval_witness :
  exists st' l' s sL mo ad,
    fit identity_quantile fresh_a rnd_2 eig_2 data_2 = Ok st' /\
    lam st' = LamArray l' /\ length l' = 3%nat /\
    additive s = true /\ moments s = Some mo /\
    _update_ws s = Ok sL /\ lam sL = LamArray l' /\
    additivity s = Ok ad /\
    at1 l' 0 = spec_lam (at1 ad 0) (spec_a (noise s) (ws s) mo (m s) 0)
                        (spec_b (noise s) (ws s) mo (m s) 0).
Proof.
  destruct (lam_unit_interval identity_quantile fresh_a rnd_2 eig_2 data_2)
    as (st1 & x1 & st' & l0 & l' & _ & H2 & _ & _ & _ & H6 & H7 & H8 & _ & _ & H11).
  - apply fit_ready_fresh_a.
  - simpl. lra.
  - simpl. lia.
  - destruct (H11 eq_refl) as (s & sL & mo & U1 & U2 & U3 & U4 & U5 & U6 & U7 & U8 & U9).
    destruct (H8 s mo U3 U4 U5 U6) as (ad & l & s' & V1 & V2 & V3 & V4 & V5).
    assert (s' = sL) by congruence. subst s'.
    assert (l = l') by congruence. subst l.
    exists st', l', s, sL, mo, ad.
    split; [exact H2|]. split; [exact H6|]. split; [exact H7|]. split; [exact U3|].
    split; [exact U4|]. split; [exact U1|]. split; [exact U2|]. split; [exact V1|].
    apply V5. rewrite U8. simpl. lia.
Defined.

(** C7, the specification's statement fails for an initial multiplier outside [0,1]
    with additivity enforcement off: [fit] leaves every multiplier at the
    initial value, here 2. *)
Lemma lam_init_outside_unit_interval :
  (forall ppf, fit ppf (fresh_1 2 true) rnd_1 eig_1 data_13 = Ok (fitted_1 2 true)) /\
  additive (fresh_1 2 true) = false /\
  lam (fitted_1 2 true) = LamArray [2] /\
  ~ in_unit 2.
Proof.
  split; [intros ppf; apply fit_fresh_1|].
  split; [reflexivity|]. split; [reflexivity|].
  unfold in_unit. lra.
Qed.

(** The multiplier update evaluated with additivity enforcement on:
    [model_a] holds the moments of its weights on [data_a]; the additivity
    statistic of the first variable is positive, so its multiplier becomes
    0; that of the second is negative, with [a = -1/6] and [b = -1/8], so
    its multiplier becomes [expit(0.5 log(3/4))]. *)
Lemma calculate_moments_a : _calculate_moments model_a data_a = Ok moments_a.
Proof.
  assert (Hxy : cross_moment model_a data_a = [[1 / 2; 1 / 2]; [0; 1 / 2]]).
  { unfold cross_moment, latent_values, model_a, data_a. cbn [nv ws length].
    unfold_arrays. simpl. arr_eq. }
  assert (Hcy : latent_cov model_a data_a = [[3 / 2; 1 / 2]; [1 / 2; 2]]).
  { unfold latent_cov. rewrite Hxy. unfold model_a. cbn [nv ws m noise length].
    unfold_arrays. simpl. arr_eq. }
  unfold _calculate_moments. rewrite Hxy, Hcy.
  unfold variance_entry, model_a. cbn [moments ws nv length].
  unfold solve. simpl.
  destruct (Req_dec_T (3 / 2) 0) as [H0|_]; [lra|]. simpl.
  unfold eliminate, vsub, vscale, map2. simpl.
  destruct (Req_dec_T _ 0) as [H0|_]; [lra|]. simpl.
  unfold moments_a, sub_combo. unfold_arrays. simpl.
  arr_eq.
Qed.

Lemma ln_quot a b : 0 < a -> 0 < b -> ln (a / b) = ln a - ln b.
Proof.
  intros Ha Hb. unfold Rdiv.
  rewrite ln_mult, ln_Rinv; [lra | | | apply Rinv_0_lt_compat]; lra.
Qed.

Lemma additivity_a :
  exists a0 a1, additivity model_a = Ok [a0; a1] /\ 0 < a0 /\ a1 < 0.
Proof.
  unfold additivity, mis, get_moments, model_a. cbn [moments bind nv].
  unfold calculate_mi, moments_a. cbn [X_i2 X_i_Y_j Y_j2 X_i2_given_Y length].
  unfold_arrays. simpl.
  eexists. eexists. split; [reflexivity|].
  replace (1 - 1 / 2 * (1 / 2 * 1) / (3 / 2 * (1 / 2))) with (2 / 3) by lra.
  replace (1 - 1 / 2 * (1 / 2 * 1) / (2 * (1 / 2))) with (3 / (2 * 2)) by lra.
  replace (1 - 0 * (0 * 1) / (3 / 2 * (1 / 2))) with 1 by lra.
  replace (4 / 11) with (2 * 2 / 11) by lra.
  rewrite ln_1, !ln_quot, !ln_mult, ln_1 by lra.
  assert (H12 : ln 11 < ln (2 * 2 * 3)) by (apply ln_increasing; lra).
  assert (H33 : ln (2 * 2 * 2 * 2 * 2) < ln (3 * 11)) by (apply ln_increasing; lra).
  assert (E12 : ln (2 * 2 * 3) = ln 2 + ln 2 + ln 3) by (repeat rewrite ln_mult by lra; lra).
  assert (E32 : ln (2 * 2 * 2 * 2 * 2) = ln 2 + ln 2 + ln 2 + ln 2 + ln 2)
    by (repeat rewrite ln_mult by lra; lra).
  assert (E33 : ln (3 * 11) = ln 3 + ln 11) by (rewrite ln_mult by lra; lra).
  split; lra.
Qed.

Lemma spec_ab_a :
  spec_a (noise model_a) (ws model_a) moments_a (m model_a) 0 = - 1 / 6 /\
  spec_b (noise model_a) (ws model_a) moments_a (m model_a) 0 = - 1 / 6 /\
  spec_a (noise model_a) (ws model_a) moments_a (m model_a) 1 = - 1 / 6 /\
  spec_b (noise model_a) (ws model_a) moments_a (m model_a) 1 = - 1 / 8.
Proof.
  unfold spec_a, spec_b, spec_Q, spec_R, model_a, moments_a, sum_n, rsum, at2, at1.
  simpl. repeat split; lra.
Qed.

Lemma lam_update_a :
  lam_update model_a moments_a = Ok [0; expit (0.5 * ln (3 / 4))].
Proof.
  destruct additivity_a as (a0 & a1 & Had & H0 & H1).
  unfold lam_update. rewrite Had. cbn [bind].
  unfold Q_of, R_of, model_a, moments_a.
  cbn [nv ws noise X_i2 X_i_Y_j Y_j2 X_i2_given_Y X_i_Z_j length].
  unfold_arrays. simpl.
  destruct (Rlt_dec a0 0) as [Hl|_]; [lra|].
  destruct (Rlt_dec a1 0) as [_|Hn]; [|lra].
  do 5 f_equal. f_equal.
  match goal with |- Rabs ?e = _ => replace e with (3 / 4) by lra end.
  apply Rabs_pos_eq. lra.
Qed.

Lemma update_ws_recomputes_lam :
  _calculate_moments model_a data_a = Ok moments_a /\
  additive model_a = true /\
  (exists a0 a1, additivity model_a = Ok [a0; a1] /\ 0 < a0 /\ a1 < 0) /\
  spec_a (noise model_a) (ws model_a) moments_a (m model_a) 1 = - 1 / 6 /\
  spec_b (noise model_a) (ws model_a) moments_a (m model_a) 1 = - 1 / 8 /\
  ratios_defined moments_a (m model_a) 1 /\
  exists s', _update_ws model_a = Ok s' /\
             lam s' = LamArray [0; expit (0.5 * ln (3 / 4))] /\
             0 < expit (0.5 * ln (3 / 4)) < 1.
Proof.
  split; [exact calculate_moments_a|]. split; [reflexivity|].
  split; [exact additivity_a|].
  destruct spec_ab_a as (_ & _ & Ha & Hb).
  split; [exact Ha|]. split; [exact Hb|].
  split.
  { split.
    - unfold moments_a, at1. simpl. lra.
    - intros j Hj. simpl in Hj.
      destruct j as [|[|j]]; [| |lia]; unfold moments_a, at2, at1; simpl; lra. }
  destruct (update_ws_ok model_a moments_a) as (l & Hup & _ & _ & Hon).
  - reflexivity.
  - split; [reflexivity | repeat constructor].
  - unfold moments_shape, moments_a. simpl. repeat split; repeat constructor.
  - discriminate.
  - specialize (Hon eq_refl). rewrite lam_update_a in Hon.
    injection Hon as Hl. subst l.
    eexists. split; [exact Hup|]. split; [reflexivity|]. apply expit_range.
Qed.

Lemma transform_twice_witness :
  exists ext,
    fst (transform_store identity_quantile (object_1 true) store_1 1 false) = store_1 ++ ext /\
    load (store_1 ++ ext) (object_1 true) = load store_1 (object_1 true) /\
    read (store_1 ++ ext) 1 = read store_1 1 /\
    snd (transform_store identity_quantile (object_1 true) (store_1 ++ ext) 1 false)
    = snd (transform_store identity_quantile (object_1 true) store_1 1 false).
Proof.
  destruct (transform_twice identity_quantile (object_1 true) store_1 1 false) as (Ha & _).
  - simpl. lia.
  - simpl. lia.
  - destruct (Ha (or_introl eq_refl)) as (ext & H1 & H2 & H3 & _ & H5).
    exists ext. split; [exact H1|]. split; [exact H3|].
    split; [apply H2; simpl; lia | exact H5].
Defined.

(** C9, the specification's statement fails with [copy=False]: on the model fitted
    above, whose stored mean is 2, a first [transform] of the array [[5]]
    returns [[3]] and leaves [[3]] in the caller's array; the second call
    on that same array returns [[1]]. *)
Lemma transform_copy_false_not_idempotent :
  (forall ppf, fit ppf (fresh_1 0 false) rnd_1 eig_1 data_13 = Ok (fitted_1 0 false)) /\
  (forall ppf,
     transform ppf (fitted_1 0 false) [[5]] false
     = Ok {| latent := [[3]]; details_moments := None; caller_array := [[3]] |}) /\
  (forall ppf,
     transform ppf (fitted_1 0 false) [[3]] false
     = Ok {| latent := [[1]]; details_moments := None; caller_array := [[1]] |}).
Proof.
  split; [intros ppf; apply fit_fresh_1|].
  split; intros ppf; unfold transform, fitted_1; simpl; unfold_arrays; simpl; arr_eq.
Qed.

(** The same two calls on the store, and a call whose argument is the
    model's own weight array: with [copy=False] the first call turns the
    caller's [[5]] into [[3]] and returns [[3]], the second turns it into
    [[1]] and returns [[1]]; [transform(self.ws)] overwrites the weight 1
    by [1 - 2]. *)
Lemma transform_store_copy_false :
  (forall ppf,
     transform_store ppf (object_1 false) store_1 1 false
     = ([[[1]]; [[3]]], Ok ([[3]], None))) /\
  (forall ppf,
     transform_store ppf (object_1 false) [[[1]]; [[3]]] 1 false
     = ([[[1]]; [[1]]], Ok ([[1]], None))) /\
  (forall ppf,
     fst (transform_store ppf (object_1 false) store_1 0 false) = [[[-1]]; [[5]]]).
Proof.
  repeat split; intros ppf;
    unfold transform_store, np_array, object_1, store_1, fitted_1, load, read; simpl;
    unfold_arrays; simpl; arr_eq.
Qed.

Lemma predict_formula_witness :
  exists st' out,
    fit identity_quantile (fresh_1 0 true) rnd_1 eig_1 data_13 = Ok st' /\
    predict st' [[4]] = Ok out /\
    forall mu, predict (set_mean_x st' mu) [[4]] = Ok out.
Proof.
  destruct (predict_formula identity_quantile (fresh_1 0 true) rnd_1 eig_1 data_13 [[4]] 1)
    as (st' & mo & out & H1 & _ & H3 & _ & _ & H6).
  - apply fit_ready_fresh_1.
  - simpl. lra.
  - simpl. lia.
  - split; [reflexivity | repeat constructor].
  - lia.
  - exists st', out. auto.
Defined.

Ltac decide_reals :=
  repeat match goal with
         | |- context [Rlt_dec ?a ?b] => destruct (Rlt_dec a b); try (exfalso; lra)
         | |- context [Req_dec_T ?a ?b] => destruct (Req_dec_T a b); try (exfalso; lra)
         end.

(** C4, evaluated where the code departs from the specification.  The model is
    fitted on [[1],[3]] (centered: -1, 1; variance 1).  [transform] with
    [details] of the new data [[5],[-1]] (centered by the stored mean 2:
    3, -3; variance 9) returns moments whose variance entry is the cached
    1 of the training data, not the 9 of the new data. *)
Theorem transform_details_keeps_fit_variance :
  forall ppf, exists out mo2,
    fit ppf (fresh_1 0 true) rnd_1 eig_1 data_13 = Ok (fitted_1 0 true) /\
    transform ppf (fitted_1 0 true) [[5]; [-1]] true = Ok out /\
    details_moments out = Some mo2 /\
    X_i2 mo2 = [1] /\
    variance_of 1 (center [[5]; [-1]] [2]) = [9].
Proof.
  intros ppf.
  destruct (transform_ok ppf (fitted_1 0 true) [[5]; [-1]] true) as (out & Hout).
  - reflexivity.
  - split; [reflexivity | repeat constructor].
  - split; [reflexivity | repeat constructor].
  - reflexivity.
  - simpl. lra.
  - intros _. exists [2]. split; reflexivity.
  - destruct (transform_inv ppf _ _ _ _ Hout) as (_ & x1 & _ & _ & _ & mo2 & Hd & Hcalc).
    destruct (calculate_moments_inv _ _ _ Hcalc) as (Hv & _).
    exists out, mo2.
    split; [apply fit_fresh_1|]. split; [assumption|]. split; [assumption|].
    split; [exact Hv|].
    unfold_arrays. simpl. arr_eq.
Qed.

(** The moments of the model fitted above on the new data 5, -1 (centered by
    the stored mean: 3, -3). *)
Lemma calculate_moments_fitted_1_new st :
  nv st = 1%nat -> m st = 1%nat -> ws st = [[1]] -> noise st = 1 ->
  moments st = Some moments_1 ->
  _calculate_moments st [[3]; [-3]]
  = Ok {| X_i2 := [1]; X_i_Y_j := [[9]]; cy := [[10]]; X_i_Z_j := [[9 / 10]];
          X_i2_given_Y := [- (71 / 10)]; Y_j2 := [10] |}.
Proof.
  intros Hnv Hm Hw Hs Hmo.
  assert (Hv : variance_entry st [[3]; [-3]] = [1]).
  { unfold variance_entry. now rewrite Hmo. }
  assert (Hxy : cross_moment st [[3]; [-3]] = [[9]]).
  { unfold cross_moment, latent_values. rewrite Hnv, Hw. unfold_arrays. simpl. arr_eq. }
  assert (Hcy : latent_cov st [[3]; [-3]] = [[10]]).
  { unfold latent_cov. rewrite Hxy, Hw, Hm, Hs. unfold_arrays. simpl. arr_eq. }
  unfold _calculate_moments. rewrite Hv, Hxy, Hcy, Hw, Hnv.
  unfold solve. simpl.
  destruct (Req_dec_T 10 0) as [H0|_]; [lra|]. simpl.
  unfold sub_combo. unfold_arrays. simpl.
  arr_eq.
Qed.

(** C10, the specification's statement fails where it takes the cleaned cross-moment
    from the last-computed moments.  On the model fitted on [[1],[3]] the
    stored cleaned cross-moment is 1/2.  [transform] with [details] of the
    new data [[5],[-1]] computes moments whose cleaned cross-moment is
    9/10, returns them and stores nothing; [predict] of the latent value 4
    is 4 * 1/2 = 2, not 4 * 9/10. *)
Lemma predict_ignores_transform_moments :
  (forall ppf, fit ppf (fresh_1 0 true) rnd_1 eig_1 data_13 = Ok (fitted_1 0 true)) /\
  X_i_Z_j moments_1 = [[1 / 2]] /\
  (forall ppf, exists out mo2,
     transform ppf (fitted_1 0 true) [[5]; [-1]] true = Ok out /\
     details_moments out = Some mo2 /\
     X_i_Z_j mo2 = [[9 / 10]]) /\
  predict (fitted_1 0 true) [[4]] = Ok [[2]] /\
  4 * (9 / 10) <> 2.
Proof.
  split; [intros ppf; apply fit_fresh_1|].
  split; [reflexivity|].
  split.
  { intros ppf. unfold transform.
    change (nv (fitted_1 0 true)) with 1%nat.
    change (gaussianize_marginals (fitted_1 0 true)) with false.
    change (mean_x (fitted_1 0 true)) with (Some [2]).
    cbn [ncols length Nat.eqb negb bind].
    assert (Hc : center [[5]; [-1]] [2] = [[3]; [-3]]).
    { unfold_arrays. simpl. arr_eq. }
    rewrite Hc.
    rewrite (calculate_moments_fitted_1_new (fitted_1 0 true)) by reflexivity.
    cbn [bind]. eexists. eexists. split; [reflexivity|]. split; reflexivity. }
  split; [|lra].
  unfold predict, get_moments. cbn [moments fitted_1 bind].
  unfold moments_1. cbn [X_i_Z_j ncols length]. unfold_arrays. simpl. arr_eq.
Qed.

Lemma fit_ready_fresh_g : fit_ready fresh_g rnd_1 eig_1 data_012.
Proof.
  unfold fit_ready, fresh_g, rnd_1, eig_1, data_012. simpl.
  repeat split; try reflexivity; try (repeat constructor); discriminate.
Qed.

Lemma gaussianize_012 ppf :
  gaussianize ppf data_012 = [[ppf (1 / 6)]; [ppf (1 / 2)]; [ppf (5 / 6)]].
Proof.
  unfold gaussianize, data_012, rankdata. unfold_arrays. simpl.
  decide_reals. simpl.
  repeat (f_equal; try lra).
Qed.

Lemma gaussianize_single ppf v : gaussianize ppf [[v]] = [[ppf (1 / 2)]].
Proof.
  unfold gaussianize, rankdata. unfold_arrays. simpl.
  decide_reals. simpl.
  repeat (f_equal; try lra).
Qed.

(** C5, evaluated where the code departs from the specification.  The model is
    fitted with marginal gaussianization on the samples 0, 1, 2, which the
    fit-time gaussianization sends to [ppf(1/6)], [ppf(1/2)], [ppf(5/6)].
    [transform] of the single new sample 2 preprocesses it to [ppf(1/2)],
    its rank within the new data alone, not to its fit-time image
    [ppf(5/6)]; every single sample gets the same latent value. *)
Theorem transform_gaussianizes_new_data_alone :
  forall ppf, exists st1 st' out,
    fit_init ppf fresh_g rnd_1 eig_1 data_012
    = Ok (st1, [[ppf (1 / 6)]; [ppf (1 / 2)]; [ppf (5 / 6)]]) /\
    fit ppf fresh_g rnd_1 eig_1 data_012 = Ok st' /\
    transform ppf st' [[2]] false = Ok out /\
    latent out = dot [[ppf (1 / 2)]] (transpose 1 (ws st')) (length (ws st')) /\
    forall v, exists out',
      transform ppf st' [[v]] false = Ok out' /\ latent out' = latent out.
Proof.
  intros ppf.
  assert (Hs : noise fresh_g <> 0) by (simpl; lra).
  assert (Hmax : (1 <= max_iter fresh_g)%nat) by (simpl; lia).
  destruct (fit_result ppf fresh_g rnd_1 eig_1 data_012 fit_ready_fresh_g Hs Hmax)
    as (st1 & x1 & st' & mo & Hinit & Hfit & F1 & F2 & F3 & F4 & F5 & Hw & Hm & Hsh & _).
  destruct (fit_init_ok ppf fresh_g rnd_1 eig_1 data_012 fit_ready_fresh_g)
    as (st1' & x1' & l0 & Hinit' & _ & _ & _ & _ & _ & _ & _ & _ & _ & _ & _ & _ & _ & _ & _ & Hx1).
  rewrite Hinit in Hinit'. injection Hinit' as E1 E2.
  rewrite <- E2 in Hx1. clear E1 E2. simpl in Hx1. rewrite gaussianize_012 in Hx1.
  rewrite Hx1 in Hinit.
  assert (Htr : forall v, exists out,
             transform ppf st' [[v]] false = Ok out /\
             latent out = dot [[ppf (1 / 2)]] (transpose 1 (ws st')) (length (ws st'))).
  { intros v.
    destruct (transform_ok ppf st' [[v]] false) as (out & Hout).
    - exact F2.
    - split; [reflexivity | repeat constructor].
    - exact Hw.
    - unfold cache_ok. rewrite Hm. now destruct Hsh.
    - rewrite F3. exact Hs.
    - rewrite F5. discriminate.
    - exists out. split; [assumption|].
      destruct (transform_inv ppf _ _ _ _ Hout) as (_ & x2 & Hx2 & Hl & _).
      rewrite F5 in Hx2. simpl in Hx2. subst x2.
      rewrite gaussianize_single in Hl. rewrite Hl, F2. reflexivity. }
  destruct (Htr 2) as (out & Hout & Hl).
  exists st1, st', out.
  split; [assumption|]. split; [assumption|]. split; [assumption|]. split; [assumption|].
  intros v. destruct (Htr v) as (out' & Hout' & Hl'). exists out'.
  split; [assumption | congruence].
Qed.

(** ** A run of [fit] whose returned factors are not in descending order *)

Lemma eig_2_decomposes_gram :
  dot (mat_row Rmult (snd eig_2) (fst eig_2)) (transpose 2 (snd eig_2)) 2
  = dot rnd_2 (transpose 3 rnd_2) 2.
Proof. unfold eig_2, rnd_2. unfold_arrays. simpl. arr_eq. Qed.

Lemma fit_ready_fresh_2 : fit_ready fresh_2 rnd_2 eig_2 data_2.
Proof.
  unfold fit_ready, fresh_2, rnd_2, eig_2, data_2. simpl.
  repeat split; try reflexivity; try (repeat constructor); discriminate.
Qed.

Lemma fit_init_2 ppf :
  fit_init ppf fresh_2 rnd_2 eig_2 data_2
  = Ok (set_lam (set_ws (set_ws (set_mean_x (set_shape fresh_2 4 3) [0; 0; 0]) rnd_2)
                   ws_start_2)
          (LamArray [1; 1; 1]),
        data_2).
Proof.
  unfold fit_init.
  change (gaussianize_marginals (set_shape fresh_2 (length data_2) (ncols data_2)))
    with false.
  cbv iota.
  change (nv (set_shape fresh_2 (length data_2) (ncols data_2))) with 3%nat.
  assert (Hmu : map (fun s => s / INR (length data_2)) (sum_axis0 3 data_2) = [0; 0; 0]).
  { unfold data_2. unfold_arrays. simpl. arr_eq. }
  rewrite Hmu.
  assert (Hc : center data_2 [0; 0; 0] = data_2).
  { unfold data_2. unfold_arrays. simpl. arr_eq. }
  rewrite Hc.
  cbn [nv ws noise lam set_ws set_mean_x set_shape].
  assert (Hv : map (fun s => s / INR (length data_2))
                 (einsum_li_li_i (ncols data_2) data_2 data_2) = [1; 1; 1]).
  { unfold data_2. unfold_arrays. simpl. arr_eq. }
  rewrite Hv.
  assert (Hw : mat_row Rdiv
                 (mmap (fun t => t * noise fresh_2 ^ 2)
                    (_sym_decorrelation rnd_2 eig_2 (ncols data_2)))
                 (map sqrt [1; 1; 1])
               = ws_start_2).
  { unfold _sym_decorrelation, rnd_2, eig_2, data_2, ws_start_2, fresh_2, __init__.
    cbn [noise ncols length fst snd map]. rewrite sqrt_1.
    unfold_arrays. simpl. arr_eq. }
  rewrite Hw.
  unfold lam_times_ones, data_2, fresh_2, __init__. cbn [lam ncols length repeat map bind].
  replace (1 * 1) with 1 by lra. reflexivity.
Qed.

Lemma cross_start_2 st :
  nv st = 3%nat -> ws st = ws_start_2 ->
  cross_moment st data_2 = [[6; 3]; [9; 0]; [9; 0]].
Proof.
  intros Hnv Hw. unfold cross_moment, latent_values. rewrite Hnv, Hw.
  unfold ws_start_2, data_2. unfold_arrays. simpl. arr_eq.
Qed.

Lemma cov_start_2 st :
  nv st = 3%nat -> m st = 2%nat -> ws st = ws_start_2 -> noise st = 3 ->
  latent_cov st data_2 = [[126; 18]; [18; 18]].
Proof.
  intros Hnv Hm Hw Hs. unfold latent_cov. rewrite (cross_start_2 st Hnv Hw), Hw, Hm, Hs.
  unfold ws_start_2. unfold_arrays. simpl. arr_eq.
Qed.

Lemma cross_returned_2 st :
  nv st = 3%nat -> ws st = ws_returned_2 ->
  cross_moment st data_2 = [[3; 33 / 10]; [0; 63 / 10]; [0; 63 / 10]].
Proof.
  intros Hnv Hw. unfold cross_moment, latent_values. rewrite Hnv, Hw.
  unfold ws_returned_2, data_2. unfold_arrays. simpl. arr_eq.
Qed.

Lemma cov_returned_2 st :
  nv st = 3%nat -> m st = 2%nat -> ws st = ws_returned_2 -> noise st = 3 ->
  latent_cov st data_2 = [[18; 99 / 10]; [99 / 10; 2979 / 50]].
Proof.
  intros Hnv Hm Hw Hs. unfold latent_cov. rewrite (cross_returned_2 st Hnv Hw), Hw, Hm, Hs.
  unfold ws_returned_2. unfold_arrays. simpl. arr_eq.
Qed.

(** The total correlation of one factor over three variables as a single
    logarithm. *)
Lemma tc_as_log a b c y s :
  0 < a -> 0 < b -> 0 < c -> 0 < y -> 0 < s ->
  - 0.5 * ln a + (- 0.5 * ln b + (- 0.5 * ln c + 0)) - (0.5 * ln y - 0.5 * ln s)
  = - 0.5 * ln (a * b * c * y / s).
Proof.
  intros Ha Hb Hc Hy Hs. unfold Rdiv.
  assert (Hab : 0 < a * b) by (apply Rmult_lt_0_compat; assumption).
  assert (Habc : 0 < a * b * c) by (apply Rmult_lt_0_compat; assumption).
  assert (Habcy : 0 < a * b * c * y) by (apply Rmult_lt_0_compat; assumption).
  assert (His : 0 < / s) by now apply Rinv_0_lt_compat.
  rewrite (ln_mult (a * b * c * y)), (ln_mult (a * b * c)), (ln_mult (a * b)), (ln_mult a),
    ln_Rinv by assumption.
  lra.
Qed.

Lemma half_log_lt A B : 0 < B -> B < A -> - 0.5 * ln A < - 0.5 * ln B.
Proof. intros HB HAB. pose proof (ln_increasing B A HB HAB). lra. Qed.

Lemma tcs_three_by_two st mo c00 c01 c10 c11 c20 c21 y0 y1 :
  moments st = Some mo -> X_i2 mo = [1; 1; 1] ->
  X_i_Y_j mo = [[c00; c01]; [c10; c11]; [c20; c21]] -> Y_j2 mo = [y0; y1] ->
  tcs st
  = Ok [- 0.5 * ln (1 - c00 * c00 / y0)
        + (- 0.5 * ln (1 - c10 * c10 / y0) + (- 0.5 * ln (1 - c20 * c20 / y0) + 0))
        - (0.5 * ln y0 - 0.5 * ln (noise st * noise st));
        - 0.5 * ln (1 - c01 * c01 / y1)
        + (- 0.5 * ln (1 - c11 * c11 / y1) + (- 0.5 * ln (1 - c21 * c21 / y1) + 0))
        - (0.5 * ln y1 - 0.5 * ln (noise st * noise st))].
Proof.
  intros Hm Hv Hc Hy. unfold tcs, mis, get_moments. rewrite Hm. cbn [bind].
  unfold calculate_mi. rewrite Hv, Hc, Hy. unfold_arrays. simpl.
  replace (c00 * (c00 * 1) / (y0 * 1)) with (c00 * c00 / y0) by (unfold Rdiv; rewrite !Rmult_1_r; reflexivity).
  replace (c10 * (c10 * 1) / (y0 * 1)) with (c10 * c10 / y0) by (unfold Rdiv; rewrite !Rmult_1_r; reflexivity).
  replace (c20 * (c20 * 1) / (y0 * 1)) with (c20 * c20 / y0) by (unfold Rdiv; rewrite !Rmult_1_r; reflexivity).
  replace (c01 * (c01 * 1) / (y1 * 1)) with (c01 * c01 / y1) by (unfold Rdiv; rewrite !Rmult_1_r; reflexivity).
  replace (c11 * (c11 * 1) / (y1 * 1)) with (c11 * c11 / y1) by (unfold Rdiv; rewrite !Rmult_1_r; reflexivity).
  replace (c21 * (c21 * 1) / (y1 * 1)) with (c21 * c21 / y1) by (unfold Rdiv; rewrite !Rmult_1_r; reflexivity).
  replace (noise st * (noise st * 1)) with (noise st * noise st) by (rewrite Rmult_1_r; reflexivity).
  reflexivity.
Qed.

Lemma tcs_start_2 st mo :
  moments st = Some mo -> noise st = 3 -> X_i2 mo = [1; 1; 1] ->
  X_i_Y_j mo = [[6; 3]; [9; 0]; [9; 0]] -> Y_j2 mo = [126; 18] ->
  exists t0 t1, tcs st = Ok [t0; t1] /\ t0 < t1.
Proof.
  intros Hm Hs Hv Hc Hy.
  rewrite (tcs_three_by_two st mo _ _ _ _ _ _ _ _ Hm Hv Hc Hy), Hs.
  eexists. eexists. split; [reflexivity|].
  rewrite !tc_as_log by lra.
  apply half_log_lt; lra.
Qed.

Lemma tcs_returned_2 st mo :
  moments st = Some mo -> noise st = 3 -> X_i2 mo = [1; 1; 1] ->
  X_i_Y_j mo = [[3; 33 / 10]; [0; 63 / 10]; [0; 63 / 10]] -> Y_j2 mo = [18; 2979 / 50] ->
  exists t0 t1, tcs st = Ok [t0; t1] /\ t0 < t1.
Proof.
  intros Hm Hs Hv Hc Hy.
  rewrite (tcs_three_by_two st mo _ _ _ _ _ _ _ _ Hm Hv Hc Hy), Hs.
  eexists. eexists. split; [reflexivity|].
  rewrite !tc_as_log by lra.
  apply half_log_lt; lra.
Qed.

Lemma argsort_ascending_pair t0 t1 : t0 < t1 -> argsort (map Ropp [t0; t1]) = [1; 0]%nat.
Proof.
  intros H. unfold argsort. cbn [map length seq fold_right insert_by].
  unfold at1. cbn [nth].
  destruct (Rle_dec (- t0) (- t1)) as [Hle|_]; [exfalso; lra | reflexivity].
Qed.

(** With every multiplier at 1 the update is [0.5 (W + sigma^2 Q)]. *)
Lemma new_ws_lam_one st mo j i :
  shape (m st) (nv st) (ws st) -> moments_shape (m st) (nv st) mo ->
  (j < m st)%nat -> (i < nv st)%nat ->
  at2 (new_ws st mo (repeat 1 (nv st))) j i
  = 0.5 * (at2 (ws st) j i + noise st ^ 2 * spec_Q mo j i).
Proof.
  intros Hw Hs Hj Hi.
  rewrite at2_new_ws by (try assumption; apply repeat_length).
  unfold spec_update, spec_S.
  assert (Hl : forall q, (q < nv st)%nat -> at1 (repeat 1 (nv st)) q = 1).
  { intros q Hq. unfold at1. apply nth_repeat_lt. assumption. }
  rewrite (sum_n_ext (m st) _ (fun _ => 0)).
  - rewrite sum_n_zero, Hl by assumption. lra.
  - intros s Hs'. unfold spec_H. destruct (Nat.eqb j s); [lra|].
    rewrite (sum_n_ext (nv st) _ (fun _ => 0)).
    + rewrite sum_n_zero. lra.
    + intros q Hq. rewrite Hl by assumption. lra.
Qed.

Lemma new_ws_2 st mo :
  nv st = 3%nat -> m st = 2%nat -> ws st = ws_start_2 -> noise st = 3 ->
  moments_shape 2 3 mo -> X_i2 mo = [1; 1; 1] ->
  X_i_Y_j mo = [[6; 3]; [9; 0]; [9; 0]] -> Y_j2 mo = [126; 18] ->
  new_ws st mo [1; 1; 1] = ws_updated_2.
Proof.
  intros Hnv Hm Hw Hs Hsh Hv Hc Hy.
  assert (Hshape : shape (m st) (nv st) (ws st)).
  { rewrite Hnv, Hm, Hw. split; [reflexivity | repeat constructor]. }
  assert (Hsh' : moments_shape (m st) (nv st) mo) by now rewrite Hnv, Hm.
  apply (matrix_ext 2 3).
  - assert (Hl : length [1; 1; 1] = nv st) by now rewrite Hnv.
    pose proof (new_ws_shape st mo [1; 1; 1] Hshape Hsh' Hl) as Hn.
    now rewrite Hm, Hnv in Hn.
  - split; [reflexivity | repeat constructor].
  - intros j i Hj Hi.
    replace [1; 1; 1] with (repeat 1 (nv st)) by now rewrite Hnv.
    rewrite new_ws_lam_one by (try assumption; lia).
    unfold spec_Q. rewrite Hw, Hs, Hv, Hc, Hy. unfold ws_start_2, ws_updated_2.
    destruct j as [|[|j]]; [| |lia];
      (destruct i as [|[|[|i]]]; [| | |lia]); unfold at1, at2; simpl; lra.
Qed.

Lemma moments_fields_2 st mo W :
  nv st = 3%nat -> m st = 2%nat -> ws st = W -> noise st = 3 ->
  variance_entry st data_2 = [1; 1; 1] ->
  _calculate_moments st data_2 = Ok mo ->
  X_i2 mo = [1; 1; 1] /\ X_i_Y_j mo = cross_moment st data_2 /\
  Y_j2 mo = diag (latent_cov st data_2).
Proof.
  intros Hnv Hm Hw Hs Hv Hmo.
  destruct (calculate_moments_inv st data_2 mo Hmo) as (H1 & H2 & _ & H4 & _).
  rewrite H1, Hv. auto.
Qed.

Lemma data_2_shape : shape 4 3 data_2.
Proof. split; [reflexivity | repeat constructor]. Qed.

(** C3, evaluated where the code departs from the specification.  On the model
    [fresh_2] and the data [data_2], [fit] makes its single pass: the moments
    are taken at the starting weights, where factor 1 has the larger total
    correlation; the weights are then updated; [argsort(-tcs)] still reads
    the moments of the starting weights and puts factor 1 first.  At the
    moments [fit] returns, computed from the updated and reordered weights,
    the first factor has the smaller total correlation: the returned order
    is ascending, not descending. *)
Theorem fit_returns_ascending_tcs :
  forall ppf, exists st' t0 t1,
    fit ppf fresh_2 rnd_2 eig_2 data_2 = Ok st' /\
    ws st' = ws_returned_2 /\
    tcs st' = Ok [t0; t1] /\
    t0 < t1.
Proof.
  intros ppf. unfold fit. rewrite fit_init_2. cbn [bind fst snd].
  set (st0 := set_lam (set_ws (set_ws (set_mean_x (set_shape fresh_2 4 3) [0; 0; 0]) rnd_2)
                         ws_start_2) (LamArray [1; 1; 1])).
  change (max_iter st0) with 1%nat. cbn [seq for_loop].
  assert (Hw0 : shape (m st0) (nv st0) (ws st0))
    by (split; [reflexivity | repeat constructor]).
  assert (Hs0 : noise st0 <> 0) by (simpl; lra).
  destruct (calculate_moments_ok st0 data_2 4 data_2_shape Hw0 I Hs0) as (mo & Hmo & Hsh).
  assert (Hvar : variance_entry st0 data_2 = [1; 1; 1]).
  { unfold variance_entry. cbn [moments st0 set_lam set_ws set_mean_x set_shape fresh_2 __init__].
    unfold data_2. unfold_arrays. simpl. arr_eq. }
  destruct (moments_fields_2 st0 mo ws_start_2 eq_refl eq_refl eq_refl eq_refl Hvar Hmo)
    as (Hv & Hc & Hy).
  rewrite (cross_start_2 st0 eq_refl eq_refl) in Hc.
  rewrite (cov_start_2 st0 eq_refl eq_refl eq_refl eq_refl) in Hy.
  change (diag [[126; 18]; [18; 18]]) with [126; 18] in Hy.
  rewrite Hmo. cbn [bind].
  destruct (tc_ok (set_moments st0 mo) mo eq_refl Hsh) as (t & Ht).
  rewrite Ht. cbn [bind].
  set (st2 := set_tc_history (set_moments st0 mo) (tc_history (set_moments st0 mo) ++ [t])).
  assert (Hup : _update_ws st2 = Ok (set_ws st2 ws_updated_2)).
  { unfold _update_ws. change (get_moments st2) with (Ok mo). cbn [bind].
    change (additive st2) with false. cbv iota. cbn [bind].
    change (lam st2) with (LamArray [1; 1; 1]). cbv iota.
    now rewrite (new_ws_2 st2 mo eq_refl eq_refl eq_refl eq_refl Hsh Hv Hc Hy). }
  rewrite Hup. cbn [bind].
  set (st3 := set_ws st2 ws_updated_2).
  assert (Hd : exists d, last_delta (tc_history st3) = Ok d).
  { change (tc_history st3) with ([0] ++ [t]). unfold last_delta. simpl. eauto. }
  destruct Hd as (d & Hd). rewrite Hd. cbn [bind].
  assert (Hq : exists b,
             (if Rlt_dec (Rabs d) (tol st3)
              then Ok (st3, Some 0%nat, true)
              else Ok (st3, Some 0%nat, false)) = Ok (st3, Some 0%nat, b)).
  { destruct (Rlt_dec (Rabs d) (tol st3)); simpl; eauto. }
  destruct Hq as (b & Hq). rewrite Hq. cbn [bind fst snd].
  unfold reorder.
  destruct (tcs_start_2 st3 mo eq_refl eq_refl Hv Hc Hy) as (s0 & s1 & Hstale & Hlt).
  rewrite Hstale. cbn [bind]. rewrite (argsort_ascending_pair s0 s1 Hlt).
  change (take_rows (ws st3) [1%nat; 0%nat]) with ws_returned_2.
  set (st4 := set_ws st3 ws_returned_2).
  assert (Hw4 : shape (m st4) (nv st4) (ws st4))
    by (split; [reflexivity | repeat constructor]).
  assert (Hc4 : cache_ok st4) by (unfold cache_ok; simpl; now destruct Hsh).
  destruct (calculate_moments_ok st4 data_2 4 data_2_shape Hw4 Hc4 Hs0) as (mo' & Hmo' & Hsh').
  assert (Hvar4 : variance_entry st4 data_2 = [1; 1; 1]) by exact Hv.
  destruct (moments_fields_2 st4 mo' ws_returned_2 eq_refl eq_refl eq_refl eq_refl Hvar4 Hmo')
    as (Hv' & Hc' & Hy').
  rewrite (cross_returned_2 st4 eq_refl eq_refl) in Hc'.
  rewrite (cov_returned_2 st4 eq_refl eq_refl eq_refl eq_refl) in Hy'.
  change (diag [[18; 99 / 10]; [99 / 10; 2979 / 50]]) with [18; 2979 / 50] in Hy'.
  rewrite Hmo'. cbn [bind].
  destruct (tcs_returned_2 (set_n_loops (set_moments st4 mo') 0) mo' eq_refl eq_refl Hv' Hc' Hy')
    as (t0 & t1 & Hfresh & Hlt').
  eexists. exists t0, t1.
  split; [reflexivity|]. split; [reflexivity|]. split; assumption.
Qed.

(** * Further properties of the code *)

(** ** Ranks and [gaussianize] *)

Lemma rankdata_length v : length (rankdata v) = length v.
Proof. unfold rankdata. apply length_map. Qed.

Lemma at1_rankdata v l :
  (l < length v)%nat ->
  at1 (rankdata v) l
  = INR (length (filter (fun b => if Rlt_dec b (at1 v l) then true else false) v))
    + (INR (length (filter (fun b => if Req_dec_T b (at1 v l) then true else false) v)) + 1) / 2.
Proof.
  intros Hl. unfold at1, rankdata.
  now rewrite (nth_map_in _ _ _ 0) by assumption.
Qed.

Lemma count_below_and_equal v a :
  (length (filter (fun b => if Rlt_dec b a then true else false) v)
   + length (filter (fun b => if Req_dec_T b a then true else false) v)
   <= length v)%nat.
Proof.
  induction v as [|b v IH]; simpl; [lia|].
  destruct (Rlt_dec b a) as [Hlt|Hlt]; destruct (Req_dec_T b a) as [He|He]; simpl; try lia.
  exfalso. lra.
Qed.

Lemma count_equal_pos v a :
  In a v -> (1 <= length (filter (fun b => if Req_dec_T b a then true else false) v))%nat.
Proof.
  intros Hin.
  assert (Hf : In a (filter (fun b => if Req_dec_T b a then true else false) v)).
  { apply filter_In. split; [assumption|]. destruct (Req_dec_T a a); [reflexivity | contradiction]. }
  destruct (filter _ v); [contradiction | simpl; lia].
Qed.

(** A rank lies between 1 and the number of samples. *)
Lemma rankdata_bounds v l :
  (l < length v)%nat -> 1 <= at1 (rankdata v) l <= INR (length v).
Proof.
  intros Hl. rewrite at1_rankdata by assumption.
  set (a := at1 v l).
  pose proof (count_below_and_equal v a) as Hle.
  pose proof (count_equal_pos v a (nth_In v 0 Hl)) as Hpos.
  set (L := length (filter (fun b => if Rlt_dec b a then true else false) v)) in *.
  set (E := length (filter (fun b => if Req_dec_T b a then true else false) v)) in *.
  apply le_INR in Hle. rewrite plus_INR in Hle.
  apply le_INR in Hpos. change (INR 1) with 1 in Hpos.
  pose proof (pos_INR L). lra.
Qed.

(** Counting through a map. *)
Lemma filter_map_length {A B : Type} (f : A -> B) (p : B -> bool) l :
  length (filter p (map f l)) = length (filter (fun a => p (f a)) l).
Proof.
  induction l as [|a l IH]; simpl; [reflexivity|].
  destruct (p (f a)); simpl; now rewrite IH.
Qed.

Lemma increasing_lt f a b : increasing f -> (f a < f b <-> a < b).
Proof.
  intros Hf. split; [|apply Hf].
  intros H. destruct (Rtotal_order a b) as [Hlt|[Heq|Hgt]]; [assumption| |].
  - subst. lra.
  - apply Hf in Hgt. lra.
Qed.

Lemma increasing_eq f a b : increasing f -> (f a = f b <-> a = b).
Proof.
  intros Hf. split; [|now intros ->].
  intros H. destruct (Rtotal_order a b) as [Hlt|[Heq|Hgt]]; [|assumption|].
  - apply Hf in Hlt. lra.
  - apply Hf in Hgt. lra.
Qed.

(** Ranks only depend on the order of the samples. *)
Lemma rankdata_increasing f v : increasing f -> rankdata (map f v) = rankdata v.
Proof.
  intros Hf. unfold rankdata. rewrite map_map. apply map_ext. intros a.
  rewrite !filter_map_length.
  rewrite (filter_ext (fun b => if Rlt_dec (f b) (f a) then true else false)
             (fun b => if Rlt_dec b a then true else false)).
  2:{ intros b. pose proof (increasing_lt f b a Hf) as [H1 H2].
      destruct (Rlt_dec (f b) (f a)), (Rlt_dec b a); tauto. }
  rewrite (filter_ext (fun b => if Req_dec_T (f b) (f a) then true else false)
             (fun b => if Req_dec_T b a then true else false)).
  2:{ intros b. pose proof (increasing_eq f b a Hf) as [H1 H2].
      destruct (Req_dec_T (f b) (f a)), (Req_dec_T b a); tauto. }
  reflexivity.
Qed.

Lemma count_monotone (p q : R -> bool) v :
  (forall b, p b = true -> q b = true) ->
  (length (filter p v) <= length (filter q v))%nat.
Proof.
  intros H. induction v as [|b v IH]; simpl; [lia|].
  destruct (p b) eqn:Hp.
  - rewrite (H b Hp). simpl. lia.
  - destruct (q b); simpl; lia.
Qed.

Lemma count_disjoint_sum (p q r : R -> bool) v :
  (forall b, p b = true -> r b = true) ->
  (forall b, q b = true -> r b = true) ->
  (forall b, p b = true -> q b = true -> False) ->
  (length (filter p v) + length (filter q v) <= length (filter r v))%nat.
Proof.
  intros Hp Hq Hd. induction v as [|b v IH]; simpl; [lia|].
  destruct (p b) eqn:Ep; destruct (q b) eqn:Eq.
  - exfalso. eauto.
  - rewrite (Hp b Ep). simpl. lia.
  - rewrite (Hq b Eq). simpl. lia.
  - destruct (r b); simpl; lia.
Qed.

(** A larger sample has a strictly larger rank. *)
Lemma rankdata_order v l l' :
  (l < length v)%nat -> (l' < length v)%nat -> at1 v l < at1 v l' ->
  at1 (rankdata v) l < at1 (rankdata v) l'.
Proof.
  intros Hl Hl' Hlt. rewrite !at1_rankdata by assumption.
  set (a := at1 v l) in *. set (b := at1 v l') in *.
  pose proof (count_equal_pos v a (nth_In v 0 Hl)) as Ha.
  pose proof (count_equal_pos v b (nth_In v 0 Hl')) as Hb.
  pose proof (count_disjoint_sum
                (fun c => if Rlt_dec c a then true else false)
                (fun c => if Req_dec_T c a then true else false)
                (fun c => if Rlt_dec c b then true else false) v) as Hsum.
  set (La := length (filter (fun c => if Rlt_dec c a then true else false) v)) in *.
  set (Ea := length (filter (fun c => if Req_dec_T c a then true else false) v)) in *.
  set (Lb := length (filter (fun c => if Rlt_dec c b then true else false) v)) in *.
  set (Eb := length (filter (fun c => if Req_dec_T c b then true else false) v)) in *.
  assert (H : (La + Ea <= Lb)%nat).
  { apply Hsum.
    - intros c Hc. destruct (Rlt_dec c a); [|discriminate].
      destruct (Rlt_dec c b); [reflexivity | exfalso; lra].
    - intros c Hc. destruct (Req_dec_T c a); [|discriminate].
      destruct (Rlt_dec c b); [reflexivity | exfalso; lra].
    - intros c H1 H2. destruct (Rlt_dec c a); [|discriminate].
      destruct (Req_dec_T c a); [lra | discriminate]. }
  apply le_INR in H. rewrite plus_INR in H.
  apply le_INR in Ha. apply le_INR in Hb. change (INR 1) with 1 in *.
  lra.
Qed.

Lemma rankdata_ties v l l' :
  (l < length v)%nat -> (l' < length v)%nat -> at1 v l = at1 v l' ->
  at1 (rankdata v) l = at1 (rankdata v) l'.
Proof.
  intros Hl Hl' He. rewrite !at1_rankdata by assumption. now rewrite He.
Qed.

Lemma at1_gaussianize_1d ppf v l :
  (l < length v)%nat ->
  at1 (gaussianize_1d ppf v) l = ppf ((at1 (rankdata v) l - 0.5) / INR (length v)).
Proof.
  intros Hl. unfold at1, gaussianize_1d.
  rewrite (nth_map_in _ _ _ 0) by now rewrite length_map, rankdata_length.
  f_equal. now rewrite (nth_map_in _ _ _ 0) by now rewrite rankdata_length.
Qed.

Lemma gaussianize_1d_length ppf v : length (gaussianize_1d ppf v) = length v.
Proof. unfold gaussianize_1d. now rewrite !length_map, rankdata_length. Qed.

Lemma gaussianize_row ppf x n d i :
  shape n d x -> (1 <= n)%nat -> (i < d)%nat ->
  nth i (map (fun x_i => map ppf (map (fun r => (r - 0.5) / INR (length x_i)) (rankdata x_i)))
           (transpose (ncols x) x)) []
  = gaussianize_1d ppf (col i x).
Proof.
  intros Hx Hn Hi. rewrite (shape_ncols n d x Hx Hn).
  rewrite (nth_map_in _ _ _ []).
  - now rewrite row_transpose.
  - now rewrite (shape_length _ _ _ (transpose_shape _ _)).
Qed.

Lemma at2_gaussianize ppf x n d l i :
  shape n d x -> (l < n)%nat -> (i < d)%nat ->
  at2 (gaussianize ppf x) l i = ppf ((at1 (rankdata (col i x)) l - 0.5) / INR n).
Proof.
  intros Hx Hl Hi. unfold gaussianize.
  rewrite at2_transpose by (rewrite (shape_length _ _ _ Hx); assumption).
  unfold at2. rewrite (gaussianize_row ppf x n d i Hx) by (assumption || lia).
  fold (at1 (gaussianize_1d ppf (col i x)) l).
  rewrite at1_gaussianize_1d by (rewrite col_length, (shape_length _ _ _ Hx); assumption).
  now rewrite col_length, (shape_length _ _ _ Hx).
Qed.

(** X1.  [gaussianize] processes a 2-d array column-wise: column [i] of the
    result of the second branch is what the first branch (1-d input)
    returns on column [i] of the input. *)
Theorem gaussianize_columnwise ppf x n d i :
  shape n d x -> (1 <= n)%nat -> (i < d)%nat ->
  col i (gaussianize ppf x) = gaussianize_1d ppf (col i x).
Proof.
  intros Hx Hn Hi. apply (list_ext 0).
  - rewrite col_length, gaussianize_1d_length, col_length.
    apply (shape_length _ _ _ (gaussianize_shape ppf x)).
  - intros l Hl. rewrite col_length, (shape_length _ _ _ (gaussianize_shape ppf x)) in Hl.
    rewrite (shape_length _ _ _ Hx) in Hl.
    change (at1 (col i (gaussianize ppf x)) l = at1 (gaussianize_1d ppf (col i x)) l).
    rewrite at1_col_any, (at2_gaussianize ppf x n d) by assumption.
    rewrite at1_gaussianize_1d by (rewrite col_length, (shape_length _ _ _ Hx); assumption).
    now rewrite col_length, (shape_length _ _ _ Hx).
Qed.

Lemma gaussianize_columnwise_witness :
  col 0 (gaussianize identity_quantile data_012)
  = gaussianize_1d identity_quantile (col 0 data_012).
Proof.
  apply (gaussianize_columnwise identity_quantile data_012 3 1 0).
  - split; [reflexivity | repeat constructor].
  - lia.
  - lia.
Defined.

(** X2.  Every entry of [gaussianize(x)] is [norm.ppf] of the quantile
    [(rank - 0.5) / n] of the sample within its column, and that quantile
    lies between [1/(2n)] and [1 - 1/(2n)]: [norm.ppf] is never asked for
    the quantile 0 or 1. *)
Theorem gaussianize_quantile_range ppf x n d l i :
  shape n d x -> (l < n)%nat -> (i < d)%nat ->
  exists p,
    at2 (gaussianize ppf x) l i = ppf p /\
    p = (at1 (rankdata (col i x)) l - 0.5) / INR n /\
    1 / (2 * INR n) <= p <= 1 - 1 / (2 * INR n) /\
    0 < p < 1.
Proof.
  intros Hx Hl Hi. eexists. split; [now apply (at2_gaussianize ppf x n d)|].
  split; [reflexivity|].
  assert (Hlen : length (col i x) = n) by now rewrite col_length, (shape_length _ _ _ Hx).
  pose proof (rankdata_bounds (col i x) l) as Hb. rewrite Hlen in Hb. specialize (Hb Hl).
  assert (Hn : 0 < INR n) by (apply lt_0_INR; lia).
  assert (Hi2 : 0 < / INR n) by now apply Rinv_0_lt_compat.
  assert (Hinv : INR n * / INR n = 1) by (apply Rinv_r; lra).
  assert (Hhalf : 1 / (2 * INR n) = 0.5 * / INR n).
  { unfold Rdiv. rewrite Rinv_mult. lra. }
  rewrite Hhalf. unfold Rdiv.
  set (r := at1 (rankdata (col i x)) l) in *.
  assert (H1 : 0.5 * / INR n <= (r - 0.5) * / INR n) by (apply Rmult_le_compat_r; lra).
  assert (H2 : (r - 0.5) * / INR n <= (INR n - 0.5) * / INR n)
    by (apply Rmult_le_compat_r; lra).
  assert (H3 : (INR n - 0.5) * / INR n = 1 - 0.5 * / INR n) by lra.
  assert (H4 : 0 < 0.5 * / INR n) by lra.
  lra.
Qed.

Lemma gaussianize_quantile_range_witness :
  exists p,
    at2 (gaussianize identity_quantile data_012) 2 0 = identity_quantile p /\ 0 < p < 1.
Proof.
  destruct (gaussianize_quantile_range identity_quantile data_012 3 1 2 0)
    as (p & H1 & _ & _ & H4).
  - split; [reflexivity | repeat constructor].
  - lia.
  - lia.
  - exists p. split; assumption.
Defined.

Lemma col_mmap f x n d i :
  shape n d x -> (i < d)%nat -> col i (mmap f x) = map f (col i x).
Proof.
  intros [_ Hf] Hi. unfold col, mmap. rewrite !map_map.
  apply map_ext_in. intros r Hr. rewrite Forall_forall in Hf.
  apply (nth_map_in f r i 0 0). rewrite (Hf r Hr). assumption.
Qed.

(** X3.  [gaussianize] depends on the data through the ranks only: applying
    one strictly increasing function to every entry of a rectangular array
    (a change of units, a logarithm of positive data) leaves the result
    unchanged. *)
Theorem gaussianize_increasing_invariant ppf f x n d :
  increasing f -> shape n d x -> gaussianize ppf (mmap f x) = gaussianize ppf x.
Proof.
  intros Hf Hx.
  assert (Hfx : shape n d (mmap f x)) by now apply mmap_shape.
  destruct n as [|n'].
  { destruct Hx as [Hl _]. destruct x; [reflexivity | discriminate]. }
  pose proof (gaussianize_shape ppf x) as H1.
  pose proof (gaussianize_shape ppf (mmap f x)) as H2.
  rewrite (shape_ncols _ _ _ Hx), (shape_length _ _ _ Hx) in H1 by lia.
  rewrite (shape_ncols _ _ _ Hfx), (shape_length _ _ _ Hfx) in H2 by lia.
  apply (matrix_ext (S n') d); try assumption.
  intros l i Hl Hi.
  rewrite (at2_gaussianize ppf (mmap f x) (S n') d), (at2_gaussianize ppf x (S n') d)
    by assumption.
  now rewrite (col_mmap f x (S n') d), rankdata_increasing.
Qed.

Lemma gaussianize_increasing_invariant_witness :
  gaussianize identity_quantile (mmap (fun t => 2 * t + 1) data_012)
  = gaussianize identity_quantile data_012.
Proof.
  apply (gaussianize_increasing_invariant identity_quantile (fun t => 2 * t + 1) data_012 3 1).
  - intros a b Hab. lra.
  - split; [reflexivity | repeat constructor].
Defined.

(** X4.  Within a column, [gaussianize] keeps the order of the samples: tied
    samples get the same value, and, [norm.ppf] being strictly increasing,
    a larger sample gets a strictly larger value. *)
Theorem gaussianize_preserves_order ppf x n d i l l' :
  shape n d x -> (l < n)%nat -> (l' < n)%nat -> (i < d)%nat ->
  (at2 x l i = at2 x l' i ->
     at2 (gaussianize ppf x) l i = at2 (gaussianize ppf x) l' i) /\
  (increasing ppf -> at2 x l i < at2 x l' i ->
     at2 (gaussianize ppf x) l i < at2 (gaussianize ppf x) l' i).
Proof.
  intros Hx Hl Hl' Hi.
  assert (Hlen : length (col i x) = n) by now rewrite col_length, (shape_length _ _ _ Hx).
  rewrite !(at2_gaussianize ppf x n d) by assumption.
  rewrite <- !(at1_col_any i x).
  split.
  - intros He. now rewrite (rankdata_ties (col i x) l l') by (rewrite ?Hlen; assumption).
  - intros Hppf Hlt. apply Hppf.
    pose proof (rankdata_order (col i x) l l') as Hr.
    rewrite Hlen in Hr. specialize (Hr Hl Hl' Hlt).
    assert (Hn : 0 < / INR n) by (apply Rinv_0_lt_compat, lt_0_INR; lia).
    unfold Rdiv. apply Rmult_lt_compat_r; lra.
Qed.

Lemma gaussianize_preserves_order_witness :
  at2 (gaussianize identity_quantile data_012) 0 0
  < at2 (gaussianize identity_quantile data_012) 2 0.
Proof.
  apply (gaussianize_preserves_order identity_quantile data_012 3 1 0 0 2).
  - split; [reflexivity | repeat constructor].
  - lia.
  - lia.
  - lia.
  - intros a b Hab. exact Hab.
  - unfold data_012, at2. simpl. lra.
Defined.

(** ** [transform]: failures, entries, batches *)

(** X5.  The ways [transform] can fail on a non-empty two-dimensional
    array with at least one column, for a model whose weights are m by nv,
    whose stored mean (if any) has nv entries and whose cached variance (if
    any) has nv entries.  A column count other than the fitted one gives
    the [AssertionError] of its [assert]; with the right column count and
    no gaussianization, a model without a stored mean (never fitted, or
    fitted with gaussianization) gives [TypeError] at [x -= self.mean_x];
    the only other failure is the [LinAlgError] of the linear solve, with
    [details] on.  Without [details], a matching column count and a stored
    mean (or gaussianization) it returns. *)
Theorem transform_failures ppf st x n details :
  shape n (ncols x) x -> (1 <= n)%nat -> (1 <= ncols x)%nat ->
  shape (m st) (nv st) (ws st) -> cache_ok st ->
  (forall mu, mean_x st = Some mu -> length mu = nv st) ->
  (nv st <> ncols x -> transform ppf st x details = Raise AssertionError) /\
  (nv st = ncols x -> gaussianize_marginals st = false -> mean_x st = None ->
     transform ppf st x details = Raise TypeError) /\
  (forall e, transform ppf st x details = Raise e ->
     (e = AssertionError /\ nv st <> ncols x) \/
     (e = TypeError /\ nv st = ncols x /\ gaussianize_marginals st = false /\
      mean_x st = None) \/
     (e = LinAlgError /\ nv st = ncols x /\ details = true)) /\
  (nv st = ncols x -> gaussianize_marginals st = true \/ mean_x st <> None ->
     exists out, transform ppf st x false = Ok out /\ shape n (m st) (latent out)).
Proof.
  intros Hx _ _ Hw _ Hmean.
  assert (Hout : forall x1, length x1 = n ->
            shape n (m st) (dot x1 (transpose (nv st) (ws st)) (length (ws st)))).
  { intros x1 H1. rewrite <- H1, <- (shape_length _ _ _ Hw) at 1. apply dot_shape. }
  unfold transform.
  destruct (Nat.eqb_spec (nv st) (ncols x)) as [Hnv|Hnv]; cbn [negb].
  - split; [intros H; contradiction|].
    split.
    { intros _ Hg Hm. rewrite Hg, Hm. reflexivity. }
    split.
    + intros e He. right.
      destruct (gaussianize_marginals st) eqn:Hg.
      * cbn [bind] in He. destruct details; [|discriminate].
        right. unfold _calculate_moments, solve in He.
        destruct (gauss _ _); cbn [bind] in He; [discriminate|].
        inversion He. auto.
      * destruct (mean_x st) as [mu|] eqn:Hm.
        -- cbn [bind] in He. destruct details; [|discriminate].
           right. unfold _calculate_moments, solve in He.
           destruct (gauss _ _); cbn [bind] in He; [discriminate|].
           inversion He. auto.
        -- cbn [bind] in He. inversion He. left. auto.
    + assert (Hgs : length (gaussianize ppf x) = n).
      { rewrite (shape_length _ _ _ (gaussianize_shape ppf x)). exact (shape_length _ _ _ Hx). }
      intros _ [Hg|Hm].
      * rewrite Hg. cbn [bind]. eexists. split; [reflexivity|]. cbn [latent]. now apply Hout.
      * destruct (gaussianize_marginals st); cbn [bind].
        { eexists. split; [reflexivity|]. cbn [latent]. now apply Hout. }
        destruct (mean_x st) as [mu|] eqn:Hmu; [cbn [bind] | contradiction].
        eexists. split; [reflexivity|]. cbn [latent]. apply Hout.
        apply (shape_length _ (ncols x)). apply center_shape; [exact Hx|].
        rewrite <- Hnv. now apply Hmean.
  - split; [reflexivity|].
    split; [intros H; contradiction|].
    split; [|intros H; contradiction].
    intros e He. inversion He. left. auto.
Qed.

Lemma transform_failures_witness :
  transform identity_quantile (fitted_1 0 true) [[5; 7]; [-1; 0]] true = Raise AssertionError /\
  exists out, transform identity_quantile (fitted_1 0 true) [[5]; [-1]] false = Ok out /\
              shape 2 (m (fitted_1 0 true)) (latent out).
Proof.
  split.
  - apply (transform_failures identity_quantile (fitted_1 0 true) [[5; 7]; [-1; 0]] 2 true).
    + split; [reflexivity | repeat constructor].
    + lia.
    + simpl. lia.
    + split; [reflexivity | repeat constructor].
    + reflexivity.
    + intros mu Hmu. simpl in Hmu. inversion Hmu. reflexivity.
    + simpl. lia.
  - apply (transform_failures identity_quantile (fitted_1 0 true) [[5]; [-1]] 2 false).
    + split; [reflexivity | repeat constructor].
    + lia.
    + simpl. lia.
    + split; [reflexivity | repeat constructor].
    + reflexivity.
    + intros mu Hmu. simpl in Hmu. inversion Hmu. reflexivity.
    + reflexivity.
    + right. simpl. discriminate.
Defined.

(** X6.  Without gaussianization, [transform(x)] on a model holding an m by
    d weight matrix and a mean vector returns the n by m array of latent
    values [Y_{l,j} = sum_i (x_{l,i} - mean_i) W_{j,i}]. *)
Theorem transform_entries ppf st x n mu :
  gaussianize_marginals st = false -> mean_x st = Some mu -> length mu = nv st ->
  shape n (nv st) x -> (1 <= n)%nat -> shape (m st) (nv st) (ws st) ->
  exists out,
    transform ppf st x false = Ok out /\
    shape n (m st) (latent out) /\
    forall l j, (l < n)%nat -> (j < m st)%nat ->
      at2 (latent out) l j
      = sum_n (nv st) (fun i => (at2 x l i - at1 mu i) * at2 (ws st) j i).
Proof.
  intros Hg Hm Hmu Hx Hn Hw.
  assert (Hnc : ncols x = nv st) by exact (shape_ncols _ _ _ Hx Hn).
  assert (Hc : shape n (nv st) (center x mu)) by now apply center_shape.
  unfold transform. rewrite Hnc, Nat.eqb_refl, Hg, Hm. cbn [negb bind].
  eexists. split; [reflexivity|]. cbn [latent].
  split.
  - rewrite <- (shape_length _ _ _ Hc), <- (shape_length _ _ _ Hw) at 1. apply dot_shape.
  - intros l j Hl Hj.
    change (dot (center x mu) (transpose (nv st) (ws st)) (length (ws st)))
      with (latent_values st (center x mu)).
    rewrite (at2_latent_values st (center x mu) n) by assumption.
    apply sum_n_ext. intros i Hi. now rewrite (at2_center x mu n (nv st)).
Qed.

Lemma transform_entries_witness :
  exists out,
    transform identity_quantile (fitted_1 0 true) [[5]] false = Ok out /\
    at2 (latent out) 0 0
    = sum_n 1 (fun i => (at2 [[5]] 0 i - at1 [2] i) * at2 (ws (fitted_1 0 true)) 0 i).
Proof.
  destruct (transform_entries identity_quantile (fitted_1 0 true) [[5]] 1 [2])
    as (out & H1 & _ & H3).
  - reflexivity.
  - reflexivity.
  - reflexivity.
  - split; [reflexivity | repeat constructor].
  - lia.
  - split; [reflexivity | repeat constructor].
  - exists out. split; [exact H1|]. apply H3; simpl; lia.
Defined.

Lemma dot_app A B M c : dot (A ++ B) M c = dot A M c ++ dot B M c.
Proof. unfold dot. apply map_app. Qed.

Lemma center_app xa xb mu : center (xa ++ xb) mu = center xa mu ++ center xb mu.
Proof. unfold center, mat_row. apply map_app. Qed.

(** X7.  Without gaussianization [transform] treats the samples one by
    one: transforming two batches stacked into one array gives the two
    results stacked, for the latent values as for what is left in the
    caller's array. *)
Theorem transform_stacked ppf st xa xb oa ob :
  gaussianize_marginals st = false ->
  transform ppf st xa false = Ok oa ->
  transform ppf st xb false = Ok ob ->
  exists o,
    transform ppf st (xa ++ xb) false = Ok o /\
    latent o = latent oa ++ latent ob /\
    caller_array o = caller_array oa ++ caller_array ob.
Proof.
  intros Hg Ha Hb.
  destruct xa as [|r xa'].
  { exists ob. split; [exact Hb|].
    unfold transform in Ha. rewrite Hg in Ha.
    destruct (negb (nv st =? ncols [])%nat); [discriminate|].
    destruct (mean_x st); [|discriminate]. cbn [bind] in Ha.
    inversion Ha; subst oa. cbn [latent caller_array].
    now destruct (copy st). }
  unfold transform in *. rewrite Hg in *.
  change (ncols ((r :: xa') ++ xb)) with (ncols (r :: xa')).
  destruct (negb (nv st =? ncols (r :: xa'))%nat); [discriminate|].
  destruct (negb (nv st =? ncols xb)%nat); [discriminate|].
  destruct (mean_x st) as [mu|]; [|discriminate]. cbn [bind] in *.
  inversion Ha; subst oa. inversion Hb; subst ob. clear Ha Hb.
  eexists. split; [reflexivity|]. cbn [latent caller_array].
  rewrite center_app, dot_app. split; [reflexivity|].
  rewrite orb_false_r. now destruct (copy st).
Qed.

Lemma transform_stacked_witness :
  exists o oa ob,
    transform identity_quantile (fitted_1 0 true) ([[5]] ++ [[3]]) false = Ok o /\
    transform identity_quantile (fitted_1 0 true) [[5]] false = Ok oa /\
    transform identity_quantile (fitted_1 0 true) [[3]] false = Ok ob /\
    latent o = latent oa ++ latent ob.
Proof.
  destruct (transform_stacked identity_quantile (fitted_1 0 true) [[5]] [[3]]
              {| latent := dot (center [[5]] [2]) (transpose 1 [[1]]) 1;
                 details_moments := None; caller_array := [[5]] |}
              {| latent := dot (center [[3]] [2]) (transpose 1 [[1]]) 1;
                 details_moments := None; caller_array := [[3]] |})
    as (o & H1 & H2 & _).
  - reflexivity.
  - reflexivity.
  - reflexivity.
  - exists o. eexists. eexists. split; [exact H1|].
    split; [reflexivity|]. split; [reflexivity|]. exact H2.
Defined.

(** ** [fit] followed by [transform]: [fit_transform] *)

(** [_calculate_moments] reads the weights, the noise level, the two
    dimensions and the variance entry, nothing else. *)
Lemma calculate_moments_ext st st2 x :
  nv st2 = nv st -> ws st2 = ws st -> m st2 = m st -> noise st2 = noise st ->
  variance_entry st2 x = variance_entry st x ->
  _calculate_moments st2 x = _calculate_moments st x.
Proof.
  intros Hnv Hw Hm Hs Hv.
  unfold _calculate_moments, latent_cov, cross_moment, latent_values.
  now rewrite Hnv, Hw, Hm, Hs, Hv.
Qed.

Lemma column_means_length x : length (column_means x) = ncols x.
Proof. unfold column_means, sum_axis0. now rewrite !length_map, length_seq. Qed.

Lemma at1_column_means x n d i :
  shape n d x -> (1 <= n)%nat -> (i < d)%nat ->
  at1 (column_means x) i = sum_n n (fun l => at2 x l i) / INR n.
Proof.
  intros Hx Hn Hi. unfold column_means, sum_axis0, at1.
  rewrite (shape_ncols _ _ _ Hx Hn), (shape_length _ _ _ Hx).
  rewrite (nth_map_in _ _ _ 0) by now rewrite length_map, length_seq.
  f_equal. rewrite (nth_map_seq (fun j => rsum (col j x))) by assumption.
  rewrite rsum_sum_n, col_length, (shape_length _ _ _ Hx).
  apply sum_n_ext. intros l Hl. apply at1_col_any.
Qed.

Lemma sum_n_const n c : sum_n n (fun _ => c) = INR n * c.
Proof.
  induction n as [|n IH].
  - unfold sum_n. simpl. lra.
  - rewrite sum_n_S, IH, S_INR. lra.
Qed.

(** Data centered by its column means has columns that sum to zero. *)
Lemma centered_columns_sum x n d i :
  shape n d x -> (1 <= n)%nat -> (i < d)%nat ->
  sum_n n (fun l => at2 (center x (column_means x)) l i) = 0.
Proof.
  intros Hx Hn Hi.
  assert (Hmu : length (column_means x) = d)
    by (rewrite column_means_length; exact (shape_ncols _ _ _ Hx Hn)).
  rewrite (sum_n_ext n _ (fun l => at2 x l i - at1 (column_means x) i)).
  2:{ intros l Hl. now apply (at2_center x _ n d). }
  rewrite sum_n_minus, sum_n_const, (at1_column_means x n d) by assumption.
  assert (H0 : INR n <> 0) by (apply not_0_INR; lia).
  field. assumption.
Qed.

(** The model [fit] returns, seen from [transform]: the moments it stores
    are those of its final weights on the preprocessed training data, and
    the stored mean is the one [fit] centered the data with. *)
Lemma fit_then_transform ppf st rnd eig x :
  fit_ready st rnd eig x -> noise st <> 0 -> (1 <= max_iter st)%nat ->
  exists st1 x1 st' mo,
    fit_init ppf st rnd eig x = Ok (st1, x1) /\
    fit ppf st rnd eig x = Ok st' /\
    moments st' = Some mo /\
    _calculate_moments st' x1 = Ok mo /\
    nv st' = ncols x /\ m st' = m st /\ noise st' = noise st /\
    copy st' = copy st /\ gaussianize_marginals st' = gaussianize_marginals st /\
    shape (m st) (ncols x) (ws st') /\ cache_ok st' /\
    shape (length x) (ncols x) x1 /\
    (gaussianize_marginals st = true -> x1 = gaussianize ppf x) /\
    (gaussianize_marginals st = false ->
       mean_x st' = Some (column_means x) /\ x1 = center x (column_means x)).
Proof.
  intros Hready Hs Hmax.
  destruct (fit_run ppf st rnd eig x Hready Hs Hmax)
    as (st1 & x1 & stL & b & new & moL & t & mo' & Hinit & Hrun & Hout & Hnew & HinvL
        & Hcfg & HmL & HshL & HvarL & Hoff & Hon & Ht & Hperm & Hmo' & Hsh' & Hvar' & Hfit).
  destruct (fit_init_ok ppf st rnd eig x Hready)
    as (st1' & x1' & l0 & Hinit' & Hx1 & _ & I1 & I2 & I3 & I4 & I5 & I6 & I7 & I8 & I9 & I10
        & I11 & I12 & I13 & I14).
  rewrite Hinit in Hinit'. injection Hinit' as E1 E2.
  rewrite <- E1 in *. rewrite <- E2 in *. clear E1 E2.
  destruct Hcfg as (C1 & C2 & C3 & C4 & C5 & C6 & C7 & C8 & C9).
  destruct HinvL as (HwL & _).
  set (W' := take_rows (ws stL) (argsort (map Ropp t))) in *.
  exists st1, x1, (set_n_loops (set_moments (set_ws stL W') mo') (length new - 1)), mo'.
  split; [assumption|]. split; [exact Hfit|]. split; [reflexivity|].
  split.
  { rewrite <- Hmo'. apply calculate_moments_ext; try reflexivity.
    unfold variance_entry. cbn [moments set_n_loops set_moments set_ws].
    now rewrite HmL. }
  cbn [nv m noise copy gaussianize_marginals ws mean_x set_n_loops set_moments set_ws].
  split; [congruence|]. split; [congruence|]. split; [congruence|].
  split; [congruence|]. split; [congruence|].
  split.
  { rewrite <- I2, <- C1, <- I1, <- C2. apply take_rows_shape; [assumption|].
    now rewrite C1, I2. }
  split.
  { unfold cache_ok. cbn [moments nv set_n_loops set_moments set_ws].
    destruct Hsh' as (Hv & _). rewrite Hv. congruence. }
  split; [now rewrite <- I1|].
  split.
  - intros Hg. rewrite Hg in I14. exact I14.
  - intros Hg. rewrite Hg in I13, I14. split; [|exact I14].
    rewrite C7. exact I13.
Qed.

(** X8.  With [copy=True] (the default) or with gaussianization,
    [fit_transform(x, details=True)] returns the fitted model's own state:
    the latent values of the preprocessed training data under the returned
    weights, and moments equal to the ones [fit] stored in [self.moments];
    the caller's array is left as it was. *)
Theorem fit_transform_returns_stored_moments ppf st rnd eig x :
  fit_ready st rnd eig x -> noise st <> 0 -> (1 <= max_iter st)%nat ->
  (1 <= length x)%nat ->
  copy st = true \/ gaussianize_marginals st = true ->
  exists st1 x1 st' out,
    fit_init ppf st rnd eig x = Ok (st1, x1) /\
    fit ppf st rnd eig x = Ok st' /\
    fit_transform ppf st rnd eig x true = Ok (st', out) /\
    latent out = latent_values st' x1 /\
    details_moments out = moments st' /\
    caller_array out = x.
Proof.
  intros Hready Hs Hmax Hn Hor.
  destruct (fit_then_transform ppf st rnd eig x Hready Hs Hmax)
    as (st1 & x1 & st' & mo & Hinit & Hfit & Hm & Hcalc & F1 & F2 & F3 & F4 & F5
        & Hw & Hc & Hx1 & Hg1 & Hg0).
  assert (Hca : fit_caller_array st x = x).
  { unfold fit_caller_array. destruct Hor as [-> | ->]; [reflexivity | now rewrite orb_true_r]. }
  exists st1, x1, st'.
  unfold fit_transform. rewrite Hfit. cbn [bind]. rewrite Hca.
  unfold transform, latent_values. rewrite F1, Nat.eqb_refl, F5, F4. cbn [negb].
  destruct (gaussianize_marginals st) eqn:Hg.
  - rewrite <- (Hg1 eq_refl). cbn [bind]. rewrite Hcalc. cbn [bind].
    eexists. split; [assumption|]. split; [reflexivity|]. split; [reflexivity|].
    cbn [latent details_moments caller_array].
    split; [reflexivity|]. split; [now rewrite Hm|]. now rewrite orb_true_r.
  - destruct (Hg0 eq_refl) as (Hmean & Hx1eq). rewrite Hmean. cbn [bind].
    rewrite <- Hx1eq, Hcalc. cbn [bind].
    eexists. split; [assumption|]. split; [reflexivity|]. split; [reflexivity|].
    cbn [latent details_moments caller_array].
    split; [reflexivity|]. split; [now rewrite Hm|].
    destruct Hor as [-> | Hf]; [reflexivity | discriminate].
Qed.

Lemma fit_transform_returns_stored_moments_witness :
  exists st' out,
    fit_transform identity_quantile (fresh_1 0 true) rnd_1 eig_1 data_13 true = Ok (st', out) /\
    details_moments out = moments st' /\
    caller_array out = data_13.
Proof.
  destruct (fit_transform_returns_stored_moments identity_quantile (fresh_1 0 true)
              rnd_1 eig_1 data_13)
    as (st1 & x1 & st' & out & _ & _ & H3 & _ & H5 & H6).
  - apply fit_ready_fresh_1.
  - simpl. lra.
  - simpl. lia.
  - simpl. lia.
  - left. reflexivity.
  - exists st', out. auto.
Defined.

(** X9.  With [copy=False] and no gaussianization, on a float array
    [fit_transform] subtracts the column means twice: [fit] centers the
    caller's array in place, and [transform] then receives the centered
    array and subtracts the stored mean again.  The latent values returned
    are those of [x - 2 mean], which is also what the caller's array holds
    afterwards. *)
Theorem fit_transform_centers_twice ppf st rnd eig x details :
  fit_ready st rnd eig x -> noise st <> 0 -> (1 <= max_iter st)%nat ->
  (1 <= length x)%nat ->
  copy st = false -> gaussianize_marginals st = false ->
  exists st' out,
    fit ppf st rnd eig x = Ok st' /\
    fit_transform ppf st rnd eig x details = Ok (st', out) /\
    mean_x st' = Some (column_means x) /\
    latent out = latent_values st' (center (center x (column_means x)) (column_means x)) /\
    caller_array out = center (center x (column_means x)) (column_means x) /\
    forall l i, (l < length x)%nat -> (i < ncols x)%nat ->
      at2 (caller_array out) l i = at2 x l i - 2 * at1 (column_means x) i.
Proof.
  intros Hready Hs Hmax Hn Hcp Hg.
  destruct (fit_then_transform ppf st rnd eig x Hready Hs Hmax)
    as (st1 & x1 & st' & mo & Hinit & Hfit & Hm & Hcalc & F1 & F2 & F3 & F4 & F5
        & Hw & Hc & Hx1 & Hg1 & Hg0).
  destruct (Hg0 Hg) as (Hmean & Hx1eq).
  assert (Hx : shape (length x) (ncols x) x) by (destruct Hready; assumption).
  set (mu := column_means x) in *.
  assert (Hmu : length mu = ncols x) by apply column_means_length.
  assert (Hca : fit_caller_array st x = center x mu).
  { unfold fit_caller_array. now rewrite Hcp, Hg. }
  assert (Hcx : shape (length x) (ncols x) (center x mu)) by now apply center_shape.
  assert (Hnc : ncols (center x mu) = ncols x) by exact (shape_ncols _ _ _ Hcx Hn).
  assert (Hlen : length (center x mu) = length x) by exact (shape_length _ _ _ Hcx).
  destruct (transform_ok ppf st' (center x mu) details) as (out & Hout).
  - congruence.
  - now rewrite Hnc, Hlen.
  - now rewrite F1, F2.
  - assumption.
  - congruence.
  - intros _. exists mu. split; [assumption | congruence].
  - exists st', out. split; [assumption|].
    split. { unfold fit_transform. rewrite Hfit. cbn [bind]. now rewrite Hca, Hout. }
    split; [assumption|].
    destruct (transform_inv ppf st' (center x mu) details out Hout)
      as (_ & x2 & Hx2 & Hl & Hcaller & _).
    rewrite F5, Hg in Hx2. destruct Hx2 as (mu' & Hmu' & ->).
    assert (mu' = mu) by congruence. subst mu'.
    rewrite F4, F5, Hcp, Hg in Hcaller. cbn [orb] in Hcaller.
    split; [exact Hl|]. split; [exact Hcaller|].
    intros l i Hl' Hi. rewrite Hcaller.
    rewrite (at2_center (center x mu) mu (length x) (ncols x)) by assumption.
    rewrite (at2_center x mu (length x) (ncols x)) by assumption.
    lra.
Qed.

Lemma fit_transform_centers_twice_witness :
  exists st' out,
    fit_transform identity_quantile (fresh_1 0 false) rnd_1 eig_1 data_13 false = Ok (st', out) /\
    at2 (caller_array out) 0 0 = at2 data_13 0 0 - 2 * at1 (column_means data_13) 0.
Proof.
  destruct (fit_transform_centers_twice identity_quantile (fresh_1 0 false)
              rnd_1 eig_1 data_13 false)
    as (st' & out & _ & H2 & _ & _ & _ & H6).
  - apply fit_ready_fresh_1.
  - simpl. lra.
  - simpl. lia.
  - simpl. lia.
  - reflexivity.
  - reflexivity.
  - exists st', out. split; [exact H2|]. apply H6; simpl; lia.
Defined.

(** X10.  With [copy=True], no gaussianization and no additivity
    enforcement, on training data every column of which varies, and a draw
    of full row rank, the latent values that [fit_transform] returns for
    the training data are centered: every latent factor sums to zero over
    the samples. *)
Theorem fit_transform_latent_centered ppf st rnd eig x :
  fit_ready st rnd eig x -> noise st <> 0 -> (1 <= max_iter st)%nat ->
  (1 <= length x)%nat ->
  copy st = true -> gaussianize_marginals st = false -> additive st = false ->
  positive_spectrum eig ->
  positive_variance (length x) (ncols x) (center x (column_means x)) ->
  exists st' out,
    fit_transform ppf st rnd eig x false = Ok (st', out) /\
    shape (length x) (m st) (latent out) /\
    forall j, (j < m st)%nat -> sum_n (length x) (fun l => at2 (latent out) l j) = 0.
Proof.
  intros Hready Hs Hmax Hn Hcp Hg _ _ _.
  destruct (fit_then_transform ppf st rnd eig x Hready Hs Hmax)
    as (st1 & x1 & st' & mo & Hinit & Hfit & Hm & Hcalc & F1 & F2 & F3 & F4 & F5
        & Hw & Hc & Hx1 & Hg1 & Hg0).
  destruct (Hg0 Hg) as (Hmean & Hx1eq).
  assert (Hx : shape (length x) (ncols x) x) by (destruct Hready; assumption).
  assert (Hca : fit_caller_array st x = x).
  { unfold fit_caller_array. now rewrite Hcp. }
  assert (Hw' : shape (m st') (nv st') (ws st')) by now rewrite F1, F2.
  assert (Hx1' : shape (length x) (nv st') x1) by now rewrite F1.
  exists st'. eexists. split.
  { unfold fit_transform. rewrite Hfit. cbn [bind]. rewrite Hca.
    unfold transform. rewrite F1, Nat.eqb_refl, F5, Hg, Hmean. cbn [negb bind].
    rewrite <- Hx1eq. reflexivity. }
  cbn [latent].
  rewrite <- F1.
  change (dot x1 (transpose (nv st') (ws st')) (length (ws st')))
    with (latent_values st' x1).
  split.
  { rewrite <- F2, <- (shape_length _ _ _ Hw'), <- (shape_length _ _ _ Hx1') at 1.
    apply latent_values_shape. }
  intros j Hj. rewrite <- F2 in Hj.
  rewrite (sum_n_ext _ _ (fun l => sum_n (nv st') (fun i => at2 x1 l i * at2 (ws st') j i))).
  2:{ intros l Hl. now apply (at2_latent_values st' x1 (length x)). }
  rewrite sum_n_swap.
  rewrite (sum_n_ext _ _ (fun _ => 0)); [apply sum_n_zero|].
  intros i Hi. rewrite sum_n_scal_r, Hx1eq.
  rewrite (centered_columns_sum x (length x) (ncols x)); [lra | assumption | assumption|].
  now rewrite <- F1.
Qed.

Lemma center_data_13 : center data_13 (column_means data_13) = [[-1]; [1]].
Proof.
  unfold center, column_means, data_13, mat_row, sum_axis0, col, rsum. simpl.
  unfold map2. simpl. repeat (f_equal; try lra).
Qed.

Lemma positive_variance_data_13 :
  positive_variance (length data_13) (ncols data_13) (center data_13 (column_means data_13)).
Proof.
  rewrite center_data_13. intros i Hi. simpl in Hi.
  assert (i = 0%nat) by lia. subst i. unfold at2, at1, sum_n, rsum. simpl. lra.
Qed.

Lemma fit_transform_latent_centered_witness :
  exists st' out,
    fit_transform identity_quantile (fresh_1 0 true) rnd_1 eig_1 data_13 false = Ok (st', out) /\
    sum_n (length data_13) (fun l => at2 (latent out) l 0) = 0.
Proof.
  destruct (fit_transform_latent_centered identity_quantile (fresh_1 0 true)
              rnd_1 eig_1 data_13)
    as (st' & out & H1 & _ & H3).
  - apply fit_ready_fresh_1.
  - simpl. lra.
  - simpl. lia.
  - simpl. lia.
  - reflexivity.
  - reflexivity.
  - reflexivity.
  - repeat constructor; simpl; lra.
  - apply positive_variance_data_13.
  - exists st', out. split; [exact H1|]. apply H3. simpl. lia.
Defined.

(** ** [fit] on a model that already holds moments, or without iterations *)

(** X11.  The variance entry of the moments is computed once per model, not
    once per [fit]: on a model without moments, [fit] stores the variance of
    the preprocessed data it was given; on a model that already holds
    moments (a second [fit]), the moments it stores keep the variance entry
    of the earlier moments, whatever the new data. *)
Theorem fit_variance_entry ppf st rnd eig x :
  fit_ready st rnd eig x -> noise st <> 0 -> (1 <= max_iter st)%nat ->
  exists st1 x1 st' mo,
    fit_init ppf st rnd eig x = Ok (st1, x1) /\
    fit ppf st rnd eig x = Ok st' /\
    moments st' = Some mo /\
    (moments st = None -> X_i2 mo = variance_of (ncols x) x1) /\
    (forall mo0, moments st = Some mo0 -> X_i2 mo = X_i2 mo0).
Proof.
  intros Hready Hs Hmax.
  destruct (fit_result ppf st rnd eig x Hready Hs Hmax)
    as (st1 & x1 & st' & mo & Hinit & Hfit & _ & _ & _ & _ & _ & _ & Hm & _ & Hvar & _).
  destruct (fit_init_ok ppf st rnd eig x Hready)
    as (st1' & x1' & l0 & Hinit' & _ & _ & I1 & _ & _ & _ & _ & _ & _ & _ & I9 & _).
  rewrite Hinit in Hinit'. injection Hinit' as E1 E2.
  rewrite <- E1 in *. clear E1 E2.
  exists st1, x1, st', mo.
  split; [assumption|]. split; [assumption|]. split; [assumption|].
  unfold variance_entry in Hvar. rewrite I9, I1 in Hvar.
  split.
  - intros Hnone. now rewrite Hnone in Hvar.
  - intros mo0 Hsome. now rewrite Hsome in Hvar.
Qed.

Lemma fit_variance_entry_witness :
  exists st' mo,
    fit identity_quantile (fitted_1 0 true) rnd_1 eig_1 [[0]; [10]] = Ok st' /\
    moments st' = Some mo /\
    X_i2 mo = X_i2 moments_1.
Proof.
  destruct (fit_variance_entry identity_quantile (fitted_1 0 true) rnd_1 eig_1 [[0]; [10]])
    as (st1 & x1 & st' & mo & _ & H2 & H3 & _ & H5).
  - unfold fit_ready, fitted_1, rnd_1, eig_1. simpl.
    repeat split; try reflexivity; try (repeat constructor); discriminate.
  - simpl. lra.
  - simpl. lia.
  - exists st', mo. split; [exact H2|]. split; [exact H3|]. apply H5. reflexivity.
Defined.

(** X12.  With an iteration budget of zero [fit] never returns: the loop
    body does not run, so on a model without moments the line after the
    loop reads the empty dictionary ([KeyError]); on a model that already
    holds moments the reordering goes through and the final
    [self.n_loops = i_loop] finds [i_loop] unbound. *)
Theorem fit_zero_iterations ppf st rnd eig x :
  fit_ready st rnd eig x -> max_iter st = 0%nat ->
  (moments st = None -> fit ppf st rnd eig x = Raise KeyError) /\
  (forall mo, moments st = Some mo -> moments_shape (m st) (ncols x) mo ->
     noise st <> 0 -> fit ppf st rnd eig x = Raise UnboundLocalError).
Proof.
  intros Hready Hmax.
  destruct (fit_init_ok ppf st rnd eig x Hready)
    as (st1 & x1 & l & Hinit & Hx1 & Hinv & I1 & I2 & I3 & I4 & I5 & _ & _ & _ & I9 & _).
  unfold fit. rewrite Hinit. cbn [bind fst snd]. rewrite I5, Hmax.
  cbn [seq for_loop bind fst snd].
  split.
  - intros Hnone. unfold reorder, tcs, get_moments. now rewrite I9, Hnone.
  - intros mo Hsome Hsh Hs.
    rewrite <- I9 in Hsome. rewrite <- I1, <- I2 in Hsh. rewrite <- I3 in Hs.
    destruct (tcs_ok st1 mo Hsome Hsh) as (t & Ht & Hlen).
    unfold reorder. rewrite Ht. cbn [bind].
    set (st2 := set_ws st1 (take_rows (ws st1) (argsort (map Ropp t)))).
    destruct Hinv as (Hw & Hc & _).
    assert (Hw2 : shape (m st2) (nv st2) (ws st2)).
    { apply take_rows_shape; [assumption|].
      change (m st2) with (m st1).
      rewrite <- Hlen, <- (length_map Ropp). apply argsort_perm. }
    destruct (calculate_moments_ok st2 x1 (length x) Hx1 Hw2 Hc Hs) as (mo' & Hmo' & _).
    now rewrite Hmo'.
Qed.

Lemma fit_zero_iterations_witness :
  fit identity_quantile (__init__ 1 0 1 (1 / 100000) 0 false false false true)
    rnd_1 eig_1 data_13
  = Raise KeyError.
Proof.
  apply (fit_zero_iterations identity_quantile
           (__init__ 1 0 1 (1 / 100000) 0 false false false true) rnd_1 eig_1 data_13).
  - unfold fit_ready, rnd_1, eig_1, data_13. simpl.
    repeat split; try reflexivity; try (repeat constructor); discriminate.
  - reflexivity.
  - reflexivity.
Defined.

(** ** The order in which [fit] returns the factors *)

(** X13.  The order of the factors [fit] returns.  The rows of the returned
    weight matrix are the rows of the weights left by the last update,
    arranged by non-increasing total correlation as read after the loop,
    that is from the moments of the last pass (taken before its update):
    row [p] of the result is the row whose total correlation is the
    [p]-th largest of those. *)
Theorem fit_orders_by_last_pass_tcs ppf st rnd eig x :
  fit_ready st rnd eig x -> noise st <> 0 -> (1 <= max_iter st)%nat ->
  exists st1 x1 stL (new : list R) b t order st',
    fit_init ppf st rnd eig x = Ok (st1, x1) /\
    for_loop (seq 0 (max_iter st)) None x1 st1 = Ok (stL, Some (length new - 1)%nat, b) /\
    fit ppf st rnd eig x = Ok st' /\
    tcs stL = Ok t /\ length t = m st /\
    Permutation order (seq 0 (m st)) /\
    descending_by t order /\
    ws st' = take_rows (ws stL) order /\
    (forall p, (p < m st)%nat -> nth p (ws st') [] = nth (nth p order 0%nat) (ws stL) []).
Proof.
  intros Hready Hs Hmax.
  destruct (fit_run ppf st rnd eig x Hready Hs Hmax)
    as (st1 & x1 & stL & b & new & moL & t & mo' & Hinit & Hrun & Hout & Hnew & HinvL
        & Hcfg & HmL & HshL & HvarL & Hoff & Hon & Ht & Hperm & Hmo' & Hsh' & Hvar' & Hfit).
  exists st1, x1, stL, new, b, t, (argsort (map Ropp t)). eexists.
  split; [assumption|]. split; [assumption|]. split; [exact Hfit|].
  split; [assumption|].
  assert (Hlen : length (argsort (map Ropp t)) = m st).
  { rewrite (Permutation_length Hperm). apply length_seq. }
  split.
  { rewrite <- Hlen, (Permutation_length (argsort_perm (map Ropp t))), length_seq.
    now rewrite length_map. }
  split; [assumption|].
  split; [apply argsort_opp_descending|].
  cbn [ws set_n_loops set_moments set_ws].
  split; [reflexivity|].
  intros p Hp. unfold take_rows.
  now rewrite (nth_map_in (fun j => nth j (ws stL) []) _ _ 0%nat) by now rewrite Hlen.
Qed.

Lemma fit_orders_by_last_pass_tcs_witness :
  exists stL t order st',
    fit identity_quantile fresh_2 rnd_2 eig_2 data_2 = Ok st' /\
    tcs stL = Ok t /\
    descending_by t order /\
    ws st' = take_rows (ws stL) order.
Proof.
  destruct (fit_orders_by_last_pass_tcs identity_quantile fresh_2 rnd_2 eig_2 data_2)
    as (st1 & x1 & stL & new & b & t & order & st' & _ & _ & H3 & H4 & _ & _ & H7 & H8 & _).
  - apply fit_ready_fresh_2.
  - simpl. lra.
  - simpl. lia.
  - exists stL, t, order, st'. auto.
Defined.

(** ** A model that was never fitted *)

(** X14.  On a model just built by [__init__], whatever its arguments,
    every method that reads the moments raises [KeyError] on the empty
    dictionary ([predict], the statistics [mis], [tcs], [tc], [additivity],
    [objective], and [_update_ws]), and [transform] rejects every array
    with at least one column, the variable count still being 0. *)
Theorem unfitted_model_raises :
  forall ppf n_hidden max_iter0 noise0 tol0 lam_init additive0 g verbose0 copy0,
    let st := __init__ n_hidden max_iter0 noise0 tol0 lam_init additive0 g verbose0 copy0 in
    (forall y, predict st y = Raise KeyError) /\
    mis st = Raise KeyError /\ tcs st = Raise KeyError /\ tc st = Raise KeyError /\
    additivity st = Raise KeyError /\ objective st = Raise KeyError /\
    _update_ws st = Raise KeyError /\
    (forall a r x details, transform ppf st ((a :: r) :: x) details = Raise AssertionError).
Proof.
  intros. subst st. repeat split; reflexivity.
Qed.

(** ** [_sym_decorrelation] *)

Lemma at2_gram W k c a b :
  shape k c W -> (a < k)%nat -> (b < k)%nat ->
  at2 (dot W (transpose c W) k) a b = sum_n c (fun i => at2 W a i * at2 W b i).
Proof.
  intros HW Ha Hb.
  rewrite (at2_dot_sum k c k) by
    (try assumption; apply (shape_length _ _ _ (transpose_shape _ _))).
  apply sum_n_ext. intros i Hi. now rewrite at2_transpose.
Qed.

(** The entries of the result: [sum_b A_{a,b} W_{b,i}] with
    [A = u diag(1/sqrt(s)) u^T]. *)
Lemma at2_sym_decorrelation W eig k c a i :
  shape k c W -> length (fst eig) = k -> shape k k (snd eig) ->
  (a < k)%nat -> (i < c)%nat ->
  at2 (_sym_decorrelation W eig c) a i
  = sum_n k (fun b =>
      sum_n k (fun j => at2 (snd eig) a j * (1 / sqrt (at1 (fst eig) j)) * at2 (snd eig) b j)
      * at2 W b i).
Proof.
  intros HW Hs Hu Ha Hi. unfold _sym_decorrelation.
  rewrite (shape_length _ _ _ HW).
  set (B := mat_row Rmult (snd eig) (map (fun t => 1 / sqrt t) (fst eig))).
  assert (HB : shape k k B) by (apply mat_row_shape; [assumption | now rewrite length_map]).
  assert (HA : shape k k (dot B (transpose k (snd eig)) k)).
  { rewrite <- (shape_length _ _ _ HB) at 1. apply dot_shape. }
  rewrite (at2_dot_sum k k c) by (try assumption; exact (shape_length _ _ _ HW)).
  apply sum_n_ext. intros b Hb. f_equal.
  rewrite (at2_dot_sum k k k) by
    (try assumption; apply (shape_length _ _ _ (transpose_shape _ _))).
  apply sum_n_ext. intros j Hj. rewrite at2_transpose by assumption.
  unfold B. rewrite (at2_mat_row Rmult k k) by (try assumption; now rewrite length_map).
  f_equal. f_equal. unfold at1.
  now rewrite (nth_map_in _ _ _ 0) by now rewrite Hs.
Qed.

Lemma sum_n_delta_r n r f :
  (r < n)%nat ->
  sum_n n (fun s => f s * (if Nat.eqb s r then 1 else 0)) = f r.
Proof.
  intros H. rewrite <- (sum_n_delta n r f H).
  apply sum_n_ext. intros s _. rewrite (Nat.eqb_sym s r). lra.
Qed.

(** With [(s, u)] an eigendecomposition of [W W^T] and every eigenvalue
    positive, the rows of the result are orthonormal. *)
Lemma sym_decorrelation_rows W eig k c :
  shape k c W -> eigh_of k (dot W (transpose c W) k) eig ->
  Forall (fun t => 0 < t) (fst eig) ->
  orthonormal_rows k c (_sym_decorrelation W eig c).
Proof.
  intros HW (Hs & Hu & Hrows & Hcols & Hdec) Hpos a e Ha He.
  set (U := at2 (snd eig)) in *. set (S := at1 (fst eig)) in *.
  set (D := fun j => 1 / sqrt (S j)).
  set (A := fun a b => sum_n k (fun j => U a j * D j * U b j)).
  assert (HSD : forall j, (j < k)%nat -> D j * S j * D j = 1).
  { intros j Hj. unfold D.
    assert (Hp : 0 < S j).
    { rewrite Forall_forall in Hpos. apply Hpos. unfold S, at1. apply nth_In. now rewrite Hs. }
    assert (Hq : 0 < sqrt (S j)) by now apply sqrt_lt_R0.
    rewrite <- (sqrt_sqrt (S j)) at 2 by lra. field. lra. }
  assert (HAU : forall a j, (a < k)%nat -> (j < k)%nat ->
            sum_n k (fun b => A a b * U b j) = U a j * D j).
  { intros a0 j Ha0 Hj. unfold A.
    rewrite (sum_n_ext k _ (fun b => sum_n k (fun l => U a0 l * D l * (U b l * U b j)))).
    2:{ intros b Hb. rewrite <- sum_n_scal_r. apply sum_n_ext. intros l Hl. lra. }
    rewrite sum_n_swap.
    rewrite (sum_n_ext k _ (fun l => U a0 l * D l * (if Nat.eqb l j then 1 else 0))).
    2:{ intros l Hl. rewrite sum_n_scal. f_equal. now apply Hcols. }
    now rewrite (sum_n_delta_r k j (fun l => U a0 l * D l)). }
  assert (HR : forall a i, (a < k)%nat -> (i < c)%nat ->
            at2 (_sym_decorrelation W eig c) a i = sum_n k (fun b => A a b * at2 W b i)).
  { intros a0 i Ha0 Hi. now apply (at2_sym_decorrelation W eig k c). }
  rewrite (sum_n_ext c _ (fun i =>
             sum_n k (fun b => A a b * at2 W b i)
             * sum_n k (fun b => A e b * at2 W b i))).
  2:{ intros i Hi. now rewrite !HR. }
  (* sum over i of (A W)_{a,i} T_i is sum over b of A_{a,b} (W T)_b *)
  rewrite <- (sum_n_bilinear k c (A a) (fun b i => at2 W b i)
                (fun i => sum_n k (fun b => A e b * at2 W b i))).
  rewrite (sum_n_ext k _ (fun b => A a b * sum_n k (fun j => U b j * S j * (U e j * D j)))).
  2:{ intros b Hb. f_equal.
      rewrite (sum_n_ext c _ (fun i => at2 W b i * sum_n k (fun q => at2 W q i * A e q))).
      2:{ intros i Hi. f_equal. apply sum_n_ext. intros q Hq. lra. }
      rewrite (sum_n_bilinear c k (fun i => at2 W b i) (fun i q => at2 W q i) (A e)).
      rewrite (sum_n_ext k _ (fun q => sum_n k (fun j => U b j * S j * U q j) * A e q)).
      2:{ intros q Hq. f_equal. rewrite <- (at2_gram W k c) by assumption.
          now apply Hdec. }
      rewrite <- (sum_n_bilinear k k (fun j => U b j * S j) (fun j q => U q j) (A e)).
      apply sum_n_ext. intros j Hj. f_equal.
      rewrite <- (HAU e j He Hj). apply sum_n_ext. intros q Hq. lra. }
  rewrite (sum_n_ext k _ (fun b => A a b * sum_n k (fun j => U b j * (S j * (U e j * D j))))).
  2:{ intros b Hb. f_equal. apply sum_n_ext. intros j Hj. lra. }
  rewrite (sum_n_bilinear k k (A a) (fun b j => U b j) (fun j => S j * (U e j * D j))).
  rewrite (sum_n_ext k _ (fun j => U a j * U e j)).
  - now apply Hrows.
  - intros j Hj. rewrite (HAU a j Ha Hj).
    transitivity (U a j * U e j * (D j * S j * D j)); [ring|].
    rewrite (HSD j Hj). ring.
Qed.

(** X15.  [_sym_decorrelation] does what its docstring says,
    [W <- (W W^T)^{-1/2} W]: when [np.linalg.eigh] returns an
    eigendecomposition [(s, u)] of [W W^T] with every eigenvalue positive
    (the rows of [W] are linearly independent), the result has the shape of
    [W] and orthonormal rows. *)
Theorem sym_decorrelation_orthonormal W eig k c :
  shape k c W -> eigh_of k (dot W (transpose c W) k) eig ->
  Forall (fun t => 0 < t) (fst eig) ->
  shape k c (_sym_decorrelation W eig c) /\
  orthonormal_rows k c (_sym_decorrelation W eig c).
Proof.
  intros HW Heig Hpos. split.
  - destruct Heig as (_ & Hu & _).
    rewrite <- (shape_length _ _ _ Hu) at 1. apply sym_decorrelation_shape.
  - now apply sym_decorrelation_rows.
Qed.

Lemma eig_3_decomposes_gram : eigh_of 2 (dot rnd_3 (transpose 3 rnd_3) 2) eig_3.
Proof.
  unfold eigh_of, orthonormal_rows, eig_3, rnd_3. cbn [fst snd].
  split; [reflexivity|].
  split; [split; [reflexivity | repeat constructor]|].
  split; [|split]; intros a b Ha Hb;
    (destruct a as [|[|a]]; [| |lia]); (destruct b as [|[|b]]; [| |lia]);
    unfold sum_n, at1, at2, dot, transpose, col, vdot, map2; simpl; lra.
Qed.

Lemma sym_decorrelation_orthonormal_witness :
  orthonormal_rows 2 3 (_sym_decorrelation rnd_3 eig_3 3).
Proof.
  apply (sym_decorrelation_orthonormal rnd_3 eig_3 2 3).
  - split; [reflexivity | repeat constructor].
  - exact eig_3_decomposes_gram.
  - unfold eig_3. cbn [fst]. repeat constructor; lra.
Defined.

(** ** What the moments measure *)

Lemma cauchy_schwarz n f g :
  sum_n n (fun l => f l * g l) * sum_n n (fun l => f l * g l)
  <= sum_n n (fun l => f l * f l) * sum_n n (fun l => g l * g l).
Proof.
  set (A := sum_n n (fun l => f l * f l)).
  set (B := sum_n n (fun l => f l * g l)).
  set (C := sum_n n (fun l => g l * g l)).
  assert (HA : 0 <= A) by (apply sum_n_nonneg; intros; nra).
  assert (Hsq : 0 <= A * (A * C - B * B)).
  { replace (A * (A * C - B * B))
      with (sum_n n (fun l => (A * g l - B * f l) * (A * g l - B * f l))).
    - apply sum_n_nonneg. intros l _. exact (Rle_0_sqr (A * g l - B * f l)).
    - rewrite (sum_n_ext n _ (fun l => A * A * (g l * g l)
                                      + ((- 2 * A * B) * (f l * g l) + B * B * (f l * f l)))).
      2:{ intros l _. ring. }
      rewrite !sum_n_plus, !sum_n_scal. fold A B C. ring. }
  destruct HA as [Hpos|Hzero].
  - assert (0 <= A * C - B * B); [|lra].
    destruct (Rle_lt_dec 0 (A * C - B * B)) as [|Hneg]; [assumption|].
    exfalso. assert (A * (A * C - B * B) < 0) by nra. lra.
  - assert (HB : B = 0).
    { unfold B. rewrite (sum_n_ext n _ (fun _ => 0)); [apply sum_n_zero|].
      intros l Hl. symmetry in Hzero.
      rewrite (sum_n_sq_zero n f Hzero l Hl). lra. }
    rewrite HB, <- Hzero. lra.
Qed.

(** The latent second moment: the mean square of the latent values of the
    data, plus the squared noise level. *)
Lemma second_moment_entry st x n mo j :
  shape n (nv st) x -> shape (m st) (nv st) (ws st) ->
  _calculate_moments st x = Ok mo -> (j < m st)%nat ->
  at1 (Y_j2 mo) j
  = sum_n n (fun l => at2 (latent_values st x) l j * at2 (latent_values st x) l j) / INR n
    + noise st ^ 2.
Proof.
  intros Hx Hw Hmo Hj.
  destruct (calculate_moments_inv st x mo Hmo) as (_ & _ & _ & Hy & _).
  rewrite Hy, at1_diag by now rewrite (shape_length _ _ _ (latent_cov_shape st x Hw)).
  rewrite at2_latent_cov, Nat.eqb_refl by assumption.
  rewrite (latent_gram st x n) by assumption. lra.
Qed.

(** The cross moment against the two second moments (Cauchy-Schwarz). *)
Lemma cross_moment_bound st x n mo i j :
  shape n (nv st) x -> shape (m st) (nv st) (ws st) ->
  variance_entry st x = variance_of (nv st) x ->
  _calculate_moments st x = Ok mo -> (i < nv st)%nat -> (j < m st)%nat ->
  at2 (X_i_Y_j mo) i j * at2 (X_i_Y_j mo) i j
  <= at1 (X_i2 mo) i * (at1 (Y_j2 mo) j - noise st ^ 2).
Proof.
  intros Hx Hw Hv Hmo Hi Hj.
  rewrite (second_moment_entry st x n mo j) by assumption.
  destruct (calculate_moments_inv st x mo Hmo) as (Hvar & Hc & _).
  rewrite Hvar, Hv, Hc, (at1_variance_of x n) by (try assumption; now destruct Hx).
  rewrite (at2_cross_moment st x n) by assumption.
  pose proof (cauchy_schwarz n (fun l => at2 x l i) (fun l => at2 (latent_values st x) l j))
    as Hcs.
  cbv beta in Hcs.
  set (Sxy := sum_n n (fun l => at2 x l i * at2 (latent_values st x) l j)) in *.
  set (Sxx := sum_n n (fun l => at2 x l i * at2 x l i)) in *.
  set (Syy := sum_n n (fun l => at2 (latent_values st x) l j * at2 (latent_values st x) l j)) in *.
  pose proof (inv_INR_nonneg n) as Hn.
  unfold Rdiv.
  replace (Sxy * / INR n * (Sxy * / INR n)) with (Sxy * Sxy * (/ INR n * / INR n)) by ring.
  replace (Sxx * / INR n * (Syy * / INR n + noise st ^ 2 - noise st ^ 2))
    with (Sxx * Syy * (/ INR n * / INR n)) by ring.
  apply Rmult_le_compat_r; [nra | assumption].
Qed.

(** The conditional variance of variable [i]: with [z] row [i] of the
    cleaned cross moment and [t_l = sum_r z_r y_{l,r}] the value it
    reconstructs for sample [l] from the latent values, the variance splits
    into the part explained, [mean(t^2) + sigma^2 |z|^2], and the part
    left, [mean((x_i - t)^2) + sigma^2 |z|^2]. *)
Lemma residual_decomposition st x n mo i :
  shape n (nv st) x -> shape (m st) (nv st) (ws st) ->
  variance_entry st x = variance_of (nv st) x ->
  _calculate_moments st x = Ok mo -> (i < nv st)%nat ->
  at1 (X_i2 mo) i - at1 (X_i2_given_Y mo) i
  = sum_n n (fun l =>
      sum_n (m st) (fun r => at2 (X_i_Z_j mo) i r * at2 (latent_values st x) l r)
      * sum_n (m st) (fun r => at2 (X_i_Z_j mo) i r * at2 (latent_values st x) l r)) / INR n
    + noise st ^ 2 * sum_n (m st) (fun r => at2 (X_i_Z_j mo) i r * at2 (X_i_Z_j mo) i r) /\
  at1 (X_i2_given_Y mo) i
  = sum_n n (fun l =>
      (at2 x l i
       - sum_n (m st) (fun r => at2 (X_i_Z_j mo) i r * at2 (latent_values st x) l r))
      * (at2 x l i
         - sum_n (m st) (fun r => at2 (X_i_Z_j mo) i r * at2 (latent_values st x) l r)))
    / INR n
    + noise st ^ 2 * sum_n (m st) (fun r => at2 (X_i_Z_j mo) i r * at2 (X_i_Z_j mo) i r).
Proof.
  intros Hx Hw Hv Hmo Hi.
  destruct (calculate_moments_inv st x mo Hmo)
    as (Hvar & Hc & _ & _ & z0 & Hsolve & Hxz & Hres).
  rewrite (shape_length _ _ _ Hw) in Hsolve.
  destruct (solve_sound _ _ z0 (m st) (nv st) (latent_cov_shape st x Hw)
              (transpose_shape' _ _ _ (cross_moment_shape st x Hw)) Hsolve) as (HZ & Hdot).
  set (z := fun r => at2 (X_i_Z_j mo) i r).
  set (Y := at2 (latent_values st x)).
  set (t := fun l => sum_n (m st) (fun r => z r * Y l r)).
  set (C := fun r => at2 (cross_moment st x) i r).
  assert (Hz : forall r, z r = at2 z0 r i).
  { intros r. unfold z. rewrite Hxz. now apply at2_transpose. }
  assert (Hresid : at1 (X_i2_given_Y mo) i
                   = at1 (X_i2 mo) i - sum_n (m st) (fun r => z r * C r)).
  { rewrite Hres, at1_vsub.
    - f_equal. rewrite (at1_einsum_ij_ij_i (nv st) (m st)); try assumption.
      + apply sum_n_ext. intros r Hr. unfold C. now rewrite Hc.
      + rewrite Hxz. now apply transpose_shape'.
      + rewrite Hc. now apply cross_moment_shape.
    - rewrite Hvar, Hv. unfold variance_of, einsum_li_li_i.
      now rewrite !length_map, length_seq.
    - rewrite einsum_ij_ij_i_length.
      + rewrite Hxz. now rewrite (shape_length _ _ _ (transpose_shape _ _)).
      + rewrite Hxz, Hc, (shape_length _ _ _ (transpose_shape _ _)).
        now rewrite (shape_length _ _ _ (cross_moment_shape st x Hw)). }
  assert (Hrow : forall r, (r < m st)%nat ->
            sum_n (m st) (fun s => at2 (latent_cov st x) r s * z s) = C r).
  { intros r Hr.
    assert (He : at2 (dot (latent_cov st x) z0 (nv st)) r i
                 = at2 (transpose (m st) (cross_moment st x)) r i) by now rewrite Hdot.
    rewrite at2_transpose in He by assumption.
    rewrite (at2_dot_sum (m st) (m st) (nv st)) in He;
      try assumption; [|now apply latent_cov_shape|exact (shape_length _ _ _ HZ)].
    unfold C. rewrite <- He. apply sum_n_ext. intros s Hs. now rewrite Hz. }
  assert (Hq : sum_n (m st) (fun r => z r * C r)
               = sum_n n (fun l => t l * t l) / INR n
                 + noise st ^ 2 * sum_n (m st) (fun r => z r * z r)).
  { unfold t, Y. rewrite <- (latent_cov_quadratic st x n z Hx Hw).
    apply sum_n_ext. intros r Hr. now rewrite Hrow. }
  assert (Hp : sum_n (m st) (fun r => z r * C r)
               = sum_n n (fun l => at2 x l i * t l) / INR n).
  { rewrite (sum_n_ext _ _ (fun r => z r * sum_n n (fun l => Y l r * (at2 x l i * / INR n)))).
    2:{ intros r Hr. f_equal. unfold C. rewrite (at2_cross_moment st x n) by assumption.
        unfold Rdiv. rewrite <- sum_n_scal_r. apply sum_n_ext. intros l Hl. unfold Y. lra. }
    rewrite (sum_n_bilinear (m st) n z (fun r l => Y l r) (fun l => at2 x l i * / INR n)).
    unfold Rdiv. rewrite <- sum_n_scal_r. apply sum_n_ext. intros l Hl.
    unfold t. lra. }
  assert (Hxx : at1 (X_i2 mo) i = sum_n n (fun l => at2 x l i * at2 x l i) / INR n).
  { rewrite Hvar, Hv. apply at1_variance_of; [now destruct Hx | assumption]. }
  split.
  - change (at1 (X_i2 mo) i - at1 (X_i2_given_Y mo) i
            = sum_n n (fun l => t l * t l) / INR n
              + noise st ^ 2 * sum_n (m st) (fun r => z r * z r)).
    rewrite Hresid, <- Hq. lra.
  - change (at1 (X_i2_given_Y mo) i
            = sum_n n (fun l => (at2 x l i - t l) * (at2 x l i - t l)) / INR n
              + noise st ^ 2 * sum_n (m st) (fun r => z r * z r)).
    rewrite (sum_n_ext n _ (fun l => at2 x l i * at2 x l i
                                     + ((-2) * (at2 x l i * t l) + t l * t l))).
    2:{ intros l Hl. ring. }
    rewrite !sum_n_plus, sum_n_scal.
    rewrite Hresid, Hxx.
    set (Sxx := sum_n n (fun l => at2 x l i * at2 x l i)) in *.
    set (Sxt := sum_n n (fun l => at2 x l i * t l)) in *.
    set (Stt := sum_n n (fun l => t l * t l)) in *.
    set (Szz := sum_n (m st) (fun r => z r * z r)) in *.
    set (q := sum_n (m st) (fun r => z r * C r)) in *.
    unfold Rdiv in *. lra.
Qed.

Lemma mean_square_nonneg n f : 0 <= sum_n n (fun l => f l * f l) / INR n.
Proof.
  apply Rmult_le_pos; [|apply inv_INR_nonneg].
  apply sum_n_nonneg. intros l _. exact (Rle_0_sqr (f l)).
Qed.

Lemma residual_range st x n mo i :
  shape n (nv st) x -> shape (m st) (nv st) (ws st) ->
  variance_entry st x = variance_of (nv st) x ->
  _calculate_moments st x = Ok mo -> (i < nv st)%nat ->
  0 <= at1 (X_i2_given_Y mo) i <= at1 (X_i2 mo) i /\
  (noise st <> 0 -> 0 < at1 (X_i2 mo) i -> 0 < at1 (X_i2_given_Y mo) i).
Proof.
  intros Hx Hw Hv Hmo Hi.
  destruct (residual_decomposition st x n mo i Hx Hw Hv Hmo Hi) as (Hexp & Hres).
  set (z := fun r => at2 (X_i_Z_j mo) i r) in *.
  set (t := fun l => sum_n (m st) (fun r => z r * at2 (latent_values st x) l r)).
  change (at1 (X_i2 mo) i - at1 (X_i2_given_Y mo) i
          = sum_n n (fun l => t l * t l) / INR n
            + noise st ^ 2 * sum_n (m st) (fun r => z r * z r)) in Hexp.
  change (at1 (X_i2_given_Y mo) i
          = sum_n n (fun l => (at2 x l i - t l) * (at2 x l i - t l)) / INR n
            + noise st ^ 2 * sum_n (m st) (fun r => z r * z r)) in Hres.
  pose proof (mean_square_nonneg n t) as H1.
  pose proof (mean_square_nonneg n (fun l => at2 x l i - t l)) as H2. cbv beta in H2.
  assert (H3 : 0 <= sum_n (m st) (fun r => z r * z r))
    by (apply sum_n_nonneg; intros r _; exact (Rle_0_sqr (z r))).
  assert (H4 : 0 <= noise st ^ 2) by (simpl; nra).
  assert (H5 : 0 <= noise st ^ 2 * sum_n (m st) (fun r => z r * z r))
    by now apply Rmult_le_pos.
  split; [lra|].
  intros Hs Hpos.
  assert (H6 : 0 < noise st ^ 2) by (simpl; nra).
  destruct H3 as [Hzz|Hzz].
  - assert (0 < noise st ^ 2 * sum_n (m st) (fun r => z r * z r))
      by now apply Rmult_lt_0_compat.
    lra.
  - assert (Ht : sum_n n (fun l => t l * t l) / INR n = 0).
    { rewrite (sum_n_ext n _ (fun _ => 0)); [rewrite sum_n_zero; lra|].
      intros l Hl. unfold t. rewrite (sum_n_ext (m st) _ (fun _ => 0)).
      - rewrite sum_n_zero. lra.
      - intros r Hr. symmetry in Hzz. rewrite (sum_n_sq_zero (m st) z Hzz r Hr). lra. }
    rewrite Ht, <- Hzz in Hexp. lra.
Qed.

Lemma second_moment_lower st x n mo j :
  shape n (nv st) x -> shape (m st) (nv st) (ws st) ->
  _calculate_moments st x = Ok mo -> (j < m st)%nat ->
  noise st ^ 2 <= at1 (Y_j2 mo) j.
Proof.
  intros Hx Hw Hmo Hj. rewrite (second_moment_entry st x n mo j) by assumption.
  pose proof (mean_square_nonneg n (fun l => at2 (latent_values st x) l j)) as H.
  cbv beta in H. lra.
Qed.

Lemma cache_ok_of_variance st x :
  variance_entry st x = variance_of (nv st) x -> cache_ok st.
Proof.
  unfold cache_ok, variance_entry. intros H. destruct (moments st); [|exact I].
  rewrite H. unfold variance_of, einsum_li_li_i. now rewrite !length_map, length_seq.
Qed.

Lemma at2_calculate_mi mo k d j i :
  moments_shape k d mo -> (j < k)%nat -> (i < d)%nat ->
  at2 (calculate_mi mo) j i
  = - 0.5 * ln (1 - at2 (X_i_Y_j mo) i j ^ 2 / (at1 (Y_j2 mo) j * at1 (X_i2 mo) i)).
Proof.
  intros (Hv & Hc & _ & _ & _ & Hy) Hj Hi. unfold calculate_mi.
  rewrite Hy, at2_transpose by assumption.
  assert (Hrc : shape d k (row_col Rmult (Y_j2 mo) (X_i2 mo))).
  { rewrite <- Hv, <- Hy. apply row_col_shape. }
  assert (Hsq : shape d k (mmap (fun t => t ^ 2) (X_i_Y_j mo))) by now apply mmap_shape.
  rewrite (at2_mmap _ d k) by (try assumption; now apply mmap2_shape).
  rewrite (at2_mmap2 _ d k) by assumption.
  rewrite (at2_mmap _ d k) by assumption.
  now rewrite at2_row_col by (rewrite ?Hv, ?Hy; assumption).
Qed.

Lemma ln_le_0 u : 0 < u <= 1 -> ln u <= 0.
Proof.
  intros [Hpos [Hlt|Heq]].
  - left. rewrite <- ln_1. now apply ln_increasing.
  - subst. rewrite ln_1. lra.
Qed.

(** For a variable of positive variance: the denominator of [Q] is at
    least [var_i sigma^2], the logarithm of [calculate_mi] is taken of a
    number in (0,1], and the mutual information is nonnegative. *)
Lemma mi_entry_nonneg st x n mo i j :
  shape n (nv st) x -> shape (m st) (nv st) (ws st) -> noise st <> 0 ->
  variance_entry st x = variance_of (nv st) x ->
  _calculate_moments st x = Ok mo -> (i < nv st)%nat -> (j < m st)%nat ->
  0 < at1 (X_i2 mo) i ->
  at1 (X_i2 mo) i * noise st ^ 2
  <= at1 (X_i2 mo) i * at1 (Y_j2 mo) j - at2 (X_i_Y_j mo) i j ^ 2 /\
  0 < 1 - at2 (X_i_Y_j mo) i j ^ 2 / (at1 (Y_j2 mo) j * at1 (X_i2 mo) i) <= 1 /\
  0 <= at2 (calculate_mi mo) j i.
Proof.
  intros Hx Hw Hs Hv Hmo Hi Hj Hpos.
  pose proof (cross_moment_bound st x n mo i j Hx Hw Hv Hmo Hi Hj) as Hcs.
  pose proof (second_moment_lower st x n mo j Hx Hw Hmo Hj) as Hy.
  assert (Hs2 : 0 < noise st ^ 2) by (simpl; nra).
  destruct (calculate_moments_ok st x n Hx Hw (cache_ok_of_variance st x Hv) Hs)
    as (mo' & Hmo' & Hsh).
  assert (mo' = mo) by congruence. subst mo'.
  rewrite (at2_calculate_mi mo (m st) (nv st)) by assumption.
  set (c := at2 (X_i_Y_j mo) i j) in *. set (v := at1 (X_i2 mo) i) in *.
  set (y := at1 (Y_j2 mo) j) in *.
  replace (c ^ 2) with (c * c) by ring.
  assert (Hyv : 0 < y * v) by (apply Rmult_lt_0_compat; lra).
  assert (Hlt : c * c < y * v) by nra.
  assert (H0 : 0 <= c * c) by exact (Rle_0_sqr c).
  assert (Hratio : 0 <= c * c / (y * v) < 1).
  { split.
    - apply Rmult_le_pos; [assumption|]. left. now apply Rinv_0_lt_compat.
    - apply (Rmult_lt_reg_r (y * v)); [assumption|].
      unfold Rdiv. rewrite Rmult_assoc, Rinv_l by lra. lra. }
  split; [nra|]. split; [lra|].
  pose proof (ln_le_0 (1 - c * c / (y * v))) as Hln. lra.
Qed.

(** X16.  What ["X_i^2 | Y"] measures.  When the variance entry is the
    variance of the data (a model not fitted before), the conditional
    variance of variable [i] is the mean squared error of reconstructing
    [x_i] from the latent values with row [i] of ["X_i Z_j"] (the map
    [predict] applies), plus [sigma^2] times the squared length of that
    row.  It lies between 0 and the variance. *)
Theorem conditional_variance_range st x n mo :
  shape n (nv st) x -> (1 <= n)%nat -> shape (m st) (nv st) (ws st) ->
  variance_entry st x = variance_of (nv st) x ->
  _calculate_moments st x = Ok mo ->
  forall i, (i < nv st)%nat ->
    at1 (X_i2_given_Y mo) i
    = sum_n n (fun l =>
        (at2 x l i
         - sum_n (m st) (fun r => at2 (X_i_Z_j mo) i r * at2 (latent_values st x) l r))
        * (at2 x l i
           - sum_n (m st) (fun r => at2 (X_i_Z_j mo) i r * at2 (latent_values st x) l r)))
      / INR n
      + noise st ^ 2 * sum_n (m st) (fun r => at2 (X_i_Z_j mo) i r * at2 (X_i_Z_j mo) i r) /\
    0 <= at1 (X_i2_given_Y mo) i <= at1 (X_i2 mo) i.
Proof.
  intros Hx Hn Hw Hv Hmo i Hi.
  destruct (residual_decomposition st x n mo i Hx Hw Hv Hmo Hi) as (_ & Hres).
  destruct (residual_range st x n mo i Hx Hw Hv Hmo Hi) as (Hrange & _).
  split; [exact Hres | exact Hrange].
Qed.

Lemma calculate_moments_pm1 : _calculate_moments (model_1 1) data_pm1 = Ok moments_1.
Proof.
  apply calculate_moments_1; try reflexivity. exact variance_1.
Qed.

Lemma conditional_variance_range_witness :
  0 <= at1 (X_i2_given_Y moments_1) 0 <= at1 (X_i2 moments_1) 0.
Proof.
  apply (conditional_variance_range (model_1 1) data_pm1 2 moments_1).
  - split; [reflexivity | repeat constructor].
  - lia.
  - split; [reflexivity | repeat constructor].
  - reflexivity.
  - exact calculate_moments_pm1.
  - simpl. lia.
Defined.

(** X17.  What ["Y_j^2"] and ["X_i Y_j"] measure.  The latent second moment
    of factor [j] is the mean square of the latent values of the data plus
    [sigma^2], hence never below [sigma^2]; and the cross moment obeys the
    Cauchy-Schwarz bound [C_{i,j}^2 <= var_i (Y_j^2 - sigma^2)] when the
    variance entry is the variance of the data. *)
Theorem latent_second_moment st x n mo :
  shape n (nv st) x -> (1 <= n)%nat -> shape (m st) (nv st) (ws st) ->
  variance_entry st x = variance_of (nv st) x ->
  _calculate_moments st x = Ok mo ->
  (forall j, (j < m st)%nat ->
     at1 (Y_j2 mo) j
     = sum_n n (fun l => at2 (latent_values st x) l j * at2 (latent_values st x) l j) / INR n
       + noise st ^ 2 /\
     noise st ^ 2 <= at1 (Y_j2 mo) j) /\
  (forall i j, (i < nv st)%nat -> (j < m st)%nat ->
     at2 (X_i_Y_j mo) i j * at2 (X_i_Y_j mo) i j
     <= at1 (X_i2 mo) i * (at1 (Y_j2 mo) j - noise st ^ 2)).
Proof.
  intros Hx Hn Hw Hv Hmo. split.
  - intros j Hj. split.
    + now apply (second_moment_entry st x n).
    + now apply (second_moment_lower st x n).
  - intros i j Hi Hj. now apply (cross_moment_bound st x n).
Qed.

Lemma latent_second_moment_witness :
  noise (model_1 1) ^ 2 <= at1 (Y_j2 moments_1) 0 /\
  at2 (X_i_Y_j moments_1) 0 0 * at2 (X_i_Y_j moments_1) 0 0
  <= at1 (X_i2 moments_1) 0 * (at1 (Y_j2 moments_1) 0 - noise (model_1 1) ^ 2).
Proof.
  destruct (latent_second_moment (model_1 1) data_pm1 2 moments_1) as (H1 & H2).
  - split; [reflexivity | repeat constructor].
  - lia.
  - split; [reflexivity | repeat constructor].
  - reflexivity.
  - exact calculate_moments_pm1.
  - split.
    + apply (H1 0%nat). simpl. lia.
    + apply (H2 0%nat 0%nat); simpl; lia.
Defined.

(** X18.  The mutual informations of [calculate_mi].  Entry [(j, i)] is
    [-0.5 log(1 - C_ij^2 / (Y_j^2 var_i))].  For a nonzero noise level and
    a variable of positive variance (the variance entry being the variance
    of the data), the squared correlation inside the logarithm is at most
    1, so the logarithm is taken of a number in [0,1], and the denominator
    [var_i Y_j^2 - C_ij^2] of [Q] in [_update_ws] is not negative; where
    the argument of the logarithm is not zero, the mutual information of
    the variable with the factor is not negative. *)
Theorem mutual_information_nonneg st x n mo :
  shape n (nv st) x -> (1 <= n)%nat -> shape (m st) (nv st) (ws st) -> noise st <> 0 ->
  variance_entry st x = variance_of (nv st) x ->
  _calculate_moments st x = Ok mo ->
  forall i j, (i < nv st)%nat -> (j < m st)%nat -> 0 < at1 (X_i2 mo) i ->
    at2 (calculate_mi mo) j i
    = - 0.5 * ln (1 - at2 (X_i_Y_j mo) i j ^ 2 / (at1 (Y_j2 mo) j * at1 (X_i2 mo) i)) /\
    0 <= 1 - at2 (X_i_Y_j mo) i j ^ 2 / (at1 (Y_j2 mo) j * at1 (X_i2 mo) i) <= 1 /\
    0 <= at1 (X_i2 mo) i * at1 (Y_j2 mo) j - at2 (X_i_Y_j mo) i j ^ 2 /\
    (0 < 1 - at2 (X_i_Y_j mo) i j ^ 2 / (at1 (Y_j2 mo) j * at1 (X_i2 mo) i) ->
     0 <= at2 (calculate_mi mo) j i).
Proof.
  intros Hx Hn Hw Hs Hv Hmo i j Hi Hj Hpos.
  destruct (mi_entry_nonneg st x n mo i j Hx Hw Hs Hv Hmo Hi Hj Hpos) as (H1 & H2 & H3).
  destruct (calculate_moments_ok st x n Hx Hw (cache_ok_of_variance st x Hv) Hs)
    as (mo' & Hmo' & Hsh).
  assert (mo' = mo) by congruence. subst mo'.
  split; [now apply (at2_calculate_mi mo (m st) (nv st))|].
  split; [lra|].
  split; [|intros _; exact H3].
  assert (0 < at1 (X_i2 mo) i * noise st ^ 2)
    by (apply Rmult_lt_0_compat; [assumption | simpl; nra]).
  lra.
Qed.

Lemma mutual_information_nonneg_witness :
  0 <= at1 (X_i2 moments_1) 0 * at1 (Y_j2 moments_1) 0 - at2 (X_i_Y_j moments_1) 0 0 ^ 2 /\
  0 <= at2 (calculate_mi moments_1) 0 0.
Proof.
  destruct (mutual_information_nonneg (model_1 1) data_pm1 2 moments_1) with (i := 0%nat) (j := 0%nat)
    as (_ & _ & H3 & H4).
  - split; [reflexivity | repeat constructor].
  - lia.
  - split; [reflexivity | repeat constructor].
  - simpl. lra.
  - reflexivity.
  - exact calculate_moments_pm1.
  - simpl. lia.
  - simpl. lia.
  - unfold moments_1, at1. simpl. lra.
  - split; [exact H3|]. apply H4. unfold moments_1, at2, at1. simpl. lra.
Defined.

(** [fit] on a model without moments, with the data it works on: the
    stored moments are those of the returned weights on the preprocessed
    training data (gaussianized, or centered), with the variance of that
    data as their variance entry. *)
Lemma fit_fresh_model_data ppf st rnd eig x :
  fit_ready st rnd eig x -> noise st <> 0 -> (1 <= max_iter st)%nat ->
  moments st = None ->
  exists st1 x1 st' mo,
    fit_init ppf st rnd eig x = Ok (st1, x1) /\
    x1 = (if gaussianize_marginals st then gaussianize ppf x
          else center x (column_means x)) /\
    fit ppf st rnd eig x = Ok st' /\
    moments st' = Some mo /\
    _calculate_moments st' x1 = Ok mo /\
    moments_shape (m st') (nv st') mo /\
    variance_entry st' x1 = variance_of (nv st') x1 /\
    X_i2 mo = variance_of (ncols x) x1 /\
    nv st' = ncols x /\ m st' = m st /\ noise st' = noise st /\
    shape (m st') (nv st') (ws st') /\
    shape (length x) (nv st') x1.
Proof.
  intros Hready Hs Hmax Hnone.
  destruct (fit_then_transform ppf st rnd eig x Hready Hs Hmax)
    as (st1 & x1 & st' & mo & Hinit & Hfit & Hm & Hcalc & F1 & F2 & F3 & F4 & F5
        & Hw & Hc & Hx1 & Hg1 & Hg0).
  destruct (fit_result ppf st rnd eig x Hready Hs Hmax)
    as (st1' & x1' & st'' & mo' & Hinit' & Hfit' & _ & _ & _ & _ & _ & _ & Hm' & Hsh & Hvar & _).
  rewrite Hinit in Hinit'. injection Hinit' as E1 E2.
  rewrite <- E1, <- E2 in *. clear E1 E2.
  assert (st'' = st') by congruence. subst st''.
  assert (mo' = mo) by congruence. subst mo'.
  destruct (fit_init_ok ppf st rnd eig x Hready)
    as (st0 & x0 & l0 & Hinit0 & _ & _ & I1 & _ & _ & _ & _ & _ & _ & _ & I9 & _).
  rewrite Hinit in Hinit0. injection Hinit0 as E1 E2.
  rewrite <- E1 in *. clear E1 E2.
  unfold variance_entry in Hvar. rewrite I9, Hnone, I1 in Hvar.
  exists st1, x1, st', mo.
  split; [assumption|].
  split. { destruct (gaussianize_marginals st); [now apply Hg1 | now apply Hg0]. }
  split; [assumption|]. split; [assumption|]. split; [assumption|]. split; [assumption|].
  split. { unfold variance_entry. rewrite Hm, F1. exact Hvar. }
  split; [assumption|].
  split; [assumption|]. split; [assumption|]. split; [assumption|].
  split; [now rewrite F1, F2 | now rewrite F1].
Qed.

(** X19.  The moments [fit] stores on a model not fitted before, without
    additivity enforcement, on training data every column of which has
    positive variance after preprocessing, and a draw of full row rank.
    Their variance entry is the variance of the preprocessed training data
    (gaussianized, or centered); every latent second moment is at least
    [sigma^2]; every conditional variance lies between 0 and the variance;
    and for every variable and factor the squared cross moment is at most
    the product of the variance and the latent second moment, so that the
    denominator of [Q] is not negative and the argument of the logarithm in
    [calculate_mi] lies in [0,1]. *)
Theorem fit_moments_well_formed ppf st rnd eig x :
  fit_ready st rnd eig x -> noise st <> 0 -> (1 <= max_iter st)%nat ->
  (1 <= length x)%nat -> moments st = None ->
  additive st = false -> positive_spectrum eig ->
  positive_variance (length x) (ncols x)
    (if gaussianize_marginals st then gaussianize ppf x else center x (column_means x)) ->
  exists st1 x1 st' mo,
    fit_init ppf st rnd eig x = Ok (st1, x1) /\
    x1 = (if gaussianize_marginals st then gaussianize ppf x
          else center x (column_means x)) /\
    fit ppf st rnd eig x = Ok st' /\
    moments st' = Some mo /\
    X_i2 mo = variance_of (ncols x) x1 /\
    (forall i, (i < ncols x)%nat ->
       at1 (X_i2 mo) i
       = sum_n (length x) (fun l => at2 x1 l i * at2 x1 l i) / INR (length x)) /\
    (forall j, (j < m st)%nat -> noise st ^ 2 <= at1 (Y_j2 mo) j) /\
    (forall i, (i < ncols x)%nat -> 0 <= at1 (X_i2_given_Y mo) i <= at1 (X_i2 mo) i) /\
    (forall i j, (i < ncols x)%nat -> (j < m st)%nat ->
       0 <= at1 (X_i2 mo) i * at1 (Y_j2 mo) j - at2 (X_i_Y_j mo) i j ^ 2 /\
       0 <= 1 - at2 (X_i_Y_j mo) i j ^ 2 / (at1 (Y_j2 mo) j * at1 (X_i2 mo) i) <= 1).
Proof.
  intros Hready Hs Hmax Hn Hnone _ _ Hpv.
  destruct (fit_fresh_model_data ppf st rnd eig x Hready Hs Hmax Hnone)
    as (st1 & x1 & st' & mo & Hinit & Hpre & Hfit & Hm & Hcalc & Hsh & Hv & Hvar
        & F1 & F2 & F3 & Hw' & Hx1').
  rewrite <- Hpre in Hpv.
  assert (Hs' : noise st' <> 0) by now rewrite F3.
  assert (Hx1l : length x1 = length x) by exact (shape_length _ _ _ Hx1').
  assert (Hentry : forall i, (i < ncols x)%nat ->
            at1 (X_i2 mo) i
            = sum_n (length x) (fun l => at2 x1 l i * at2 x1 l i) / INR (length x)).
  { intros i Hi. rewrite Hvar. now apply at1_variance_of. }
  assert (Hpos : forall i, (i < ncols x)%nat -> 0 < at1 (X_i2 mo) i).
  { intros i Hi. rewrite (Hentry i Hi). apply Rdiv_lt_0_compat; [now apply Hpv|].
    apply lt_0_INR. lia. }
  exists st1, x1, st', mo.
  split; [assumption|]. split; [assumption|]. split; [assumption|]. split; [assumption|].
  split; [assumption|]. split; [assumption|].
  rewrite <- F1, <- F2, <- F3.
  split.
  { intros j Hj. now apply (second_moment_lower st' x1 (length x)). }
  split.
  { intros i Hi. now apply (residual_range st' x1 (length x)). }
  intros i j Hi Hj.
  assert (Hp : 0 < at1 (X_i2 mo) i) by (apply Hpos; now rewrite <- F1).
  destruct (mi_entry_nonneg st' x1 (length x) mo i j Hx1' Hw' Hs' Hv Hcalc Hi Hj Hp)
    as (H1 & H2 & _).
  assert (0 < at1 (X_i2 mo) i * noise st' ^ 2)
    by (apply Rmult_lt_0_compat; [assumption | simpl; nra]).
  split; lra.
Qed.

Lemma fit_moments_well_formed_witness :
  exists st' mo,
    fit identity_quantile (fresh_1 0 true) rnd_1 eig_1 data_13 = Ok st' /\
    moments st' = Some mo /\
    0 <= at1 (X_i2_given_Y mo) 0 <= at1 (X_i2 mo) 0 /\
    0 <= at1 (X_i2 mo) 0 * at1 (Y_j2 mo) 0 - at2 (X_i_Y_j mo) 0 0 ^ 2.
Proof.
  destruct (fit_moments_well_formed identity_quantile (fresh_1 0 true) rnd_1 eig_1 data_13)
    as (st1 & x1 & st' & mo & _ & _ & H2 & H3 & _ & _ & _ & H6 & H7).
  - apply fit_ready_fresh_1.
  - simpl. lra.
  - simpl. lia.
  - simpl. lia.
  - reflexivity.
  - reflexivity.
  - repeat constructor; simpl; lra.
  - apply positive_variance_data_13.
  - exists st', mo. split; [exact H2|]. split; [exact H3|].
    split; [apply H6; simpl; lia|].
    apply (H7 0%nat 0%nat); simpl; lia.
Defined.

(** ** The statistics and the reconstruction after [fit] *)

Lemma calculate_mi_shape mo k d :
  moments_shape k d mo -> shape k d (calculate_mi mo).
Proof.
  intros (Hv & Hc & _ & _ & _ & Hy). unfold calculate_mi. rewrite Hy.
  apply transpose_shape'. apply mmap_shape. apply mmap2_shape.
  - now apply mmap_shape.
  - rewrite <- Hv, <- Hy. apply row_col_shape.
Qed.

Lemma at1_sum_axis1 A r c j :
  shape r c A -> (j < r)%nat -> at1 (sum_axis1 A) j = sum_n c (fun i => at2 A j i).
Proof.
  intros HA Hj. unfold sum_axis1, at1.
  rewrite (nth_map_in _ _ _ []) by (destruct HA; lia).
  rewrite rsum_sum_n, (shape_row r c A j HA Hj).
  apply sum_n_ext. intros i _. reflexivity.
Qed.

Lemma at1_sum_axis0 A r c i :
  shape r c A -> (i < c)%nat -> at1 (sum_axis0 c A) i = sum_n r (fun j => at2 A j i).
Proof.
  intros HA Hi. unfold sum_axis0, at1.
  rewrite (nth_map_seq (fun j => rsum (col j A))) by assumption.
  rewrite rsum_sum_n, col_length, (shape_length _ _ _ HA).
  apply sum_n_ext. intros j _. apply at1_col_any.
Qed.

Lemma ln_le_compat a b : 0 < a -> a <= b -> ln a <= ln b.
Proof.
  intros Ha [Hlt|Heq].
  - left. now apply ln_increasing.
  - subst. lra.
Qed.

(** The entries of [tcs] and [additivity] on a model holding moments [mo]. *)
Lemma tcs_entries st mo :
  moments st = Some mo -> moments_shape (m st) (nv st) mo ->
  exists t,
    tcs st = Ok t /\ length t = m st /\ tc st = Ok (rsum t) /\
    forall j, (j < m st)%nat ->
      at1 t j = sum_n (nv st) (fun i => at2 (calculate_mi mo) j i)
                - (0.5 * ln (at1 (Y_j2 mo) j) - 0.5 * ln (noise st ^ 2)).
Proof.
  intros Hm Hsh.
  pose proof (calculate_mi_shape mo _ _ Hsh) as Hmi.
  destruct Hsh as (_ & _ & _ & _ & _ & Hy).
  unfold tc, tcs, mis, get_moments. rewrite Hm. cbn [bind].
  eexists. split; [reflexivity|].
  assert (Hlen : length (vsub (sum_axis1 (calculate_mi mo))
                           (map (fun y => 0.5 * ln y - 0.5 * ln (noise st ^ 2)) (Y_j2 mo)))
                 = m st).
  { unfold vsub, sum_axis1. rewrite map2_length, !length_map, Hy.
    rewrite (shape_length _ _ _ Hmi). lia. }
  split; [exact Hlen|]. split; [reflexivity|].
  intros j Hj. rewrite at1_vsub.
  - rewrite (at1_sum_axis1 _ (m st) (nv st)) by assumption. f_equal.
    unfold at1. now rewrite (nth_map_in _ _ _ 0) by now rewrite Hy.
  - unfold sum_axis1. now rewrite length_map, (shape_length _ _ _ Hmi).
  - now rewrite length_map, Hy.
Qed.

Lemma additivity_entries st mo :
  moments st = Some mo -> moments_shape (m st) (nv st) mo ->
  exists a,
    additivity st = Ok a /\ length a = nv st /\
    forall i, (i < nv st)%nat ->
      at1 a i = sum_n (m st) (fun j => at2 (calculate_mi mo) j i)
                - (0.5 * ln (at1 (X_i2 mo) i) - 0.5 * ln (at1 (X_i2_given_Y mo) i)).
Proof.
  intros Hm Hsh.
  pose proof (calculate_mi_shape mo _ _ Hsh) as Hmi.
  destruct Hsh as (Hv & _ & _ & _ & Hr & _).
  unfold additivity, mis, get_moments. rewrite Hm. cbn [bind].
  eexists. split; [reflexivity|].
  split.
  { unfold vsub, sum_axis0. rewrite !map2_length, length_map, length_seq, Hv, Hr. lia. }
  intros i Hi. rewrite at1_vsub.
  - rewrite (at1_sum_axis0 _ (m st) (nv st)) by assumption. f_equal.
    unfold at1.
    now rewrite (nth_map2 (fun v r => 0.5 * ln v - 0.5 * ln r) _ _ i 0 0 0)
      by (rewrite ?Hv, ?Hr; assumption).
  - unfold sum_axis0. now rewrite length_map, length_seq.
  - rewrite map2_length, Hv, Hr. lia.
Qed.

(** [fit] on a model without moments, seen from the stored moments: they
    are the moments of the returned weights on the preprocessed training
    data, with the variance of that data as their variance entry. *)
Lemma fit_fresh_model ppf st rnd eig x :
  fit_ready st rnd eig x -> noise st <> 0 -> (1 <= max_iter st)%nat ->
  moments st = None ->
  exists x1 st' mo,
    fit ppf st rnd eig x = Ok st' /\
    moments st' = Some mo /\
    _calculate_moments st' x1 = Ok mo /\
    moments_shape (m st') (nv st') mo /\
    variance_entry st' x1 = variance_of (nv st') x1 /\
    nv st' = ncols x /\ m st' = m st /\ noise st' = noise st /\
    gaussianize_marginals st' = gaussianize_marginals st /\
    shape (m st') (nv st') (ws st') /\
    shape (length x) (nv st') x1 /\
    (gaussianize_marginals st = false ->
       mean_x st' = Some (column_means x) /\ x1 = center x (column_means x)).
Proof.
  intros Hready Hs Hmax Hnone.
  destruct (fit_then_transform ppf st rnd eig x Hready Hs Hmax)
    as (st1 & x1 & st' & mo & Hinit & Hfit & Hm & Hcalc & F1 & F2 & F3 & F4 & F5
        & Hw & Hc & Hx1 & _ & Hg0).
  destruct (fit_result ppf st rnd eig x Hready Hs Hmax)
    as (st1' & x1' & st'' & mo' & Hinit' & Hfit' & _ & _ & _ & _ & _ & _ & Hm' & Hsh & Hvar & _).
  rewrite Hinit in Hinit'. injection Hinit' as E1 E2.
  rewrite <- E1, <- E2 in *. clear E1 E2.
  assert (st'' = st') by congruence. subst st''.
  assert (mo' = mo) by congruence. subst mo'.
  destruct (fit_init_ok ppf st rnd eig x Hready)
    as (st0 & x0 & l0 & Hinit0 & _ & _ & I1 & _ & _ & _ & _ & _ & _ & _ & I9 & _).
  rewrite Hinit in Hinit0. injection Hinit0 as E1 E2.
  rewrite <- E1 in *. clear E1 E2.
  unfold variance_entry in Hvar. rewrite I9, Hnone, I1 in Hvar.
  exists x1, st', mo.
  split; [assumption|]. split; [assumption|]. split; [assumption|]. split; [assumption|].
  split. { unfold variance_entry. rewrite Hm, F1. exact Hvar. }
  split; [assumption|]. split; [assumption|]. split; [assumption|]. split; [assumption|].
  split; [now rewrite F1, F2|]. split; [now rewrite F1|]. exact Hg0.
Qed.

(** X20.  The statistics read after [fit] on a model not fitted before,
    without additivity enforcement, on training data every column of which
    has positive variance after preprocessing, and a draw of full row rank.
    [tcs], [tc], [additivity] and [objective] all return; [tc] is the sum
    of [tcs] and [objective] is [tc] minus the sum of [additivity]; the
    total correlation of factor [j] is the sum of its mutual informations
    minus [0.5 ln(Y_j^2) - 0.5 ln(sigma^2)], which is not negative, so it
    is never above that sum; the additivity statistic of variable [i] is
    the sum of its mutual informations minus
    [0.5 ln(var_i) - 0.5 ln(resid_i)], and is not above that sum where the
    conditional variance is not zero. *)
Theorem fit_statistics ppf st rnd eig x :
  fit_ready st rnd eig x -> noise st <> 0 -> (1 <= max_iter st)%nat ->
  (1 <= length x)%nat -> moments st = None ->
  additive st = false -> positive_spectrum eig ->
  positive_variance (length x) (ncols x)
    (if gaussianize_marginals st then gaussianize ppf x else center x (column_means x)) ->
  exists st' mo t a,
    fit ppf st rnd eig x = Ok st' /\ moments st' = Some mo /\
    tcs st' = Ok t /\ length t = m st /\
    additivity st' = Ok a /\ length a = ncols x /\
    tc st' = Ok (rsum t) /\ objective st' = Ok (rsum t - rsum a) /\
    (forall j, (j < m st)%nat ->
       at1 t j = sum_n (ncols x) (fun i => at2 (calculate_mi mo) j i)
                 - (0.5 * ln (at1 (Y_j2 mo) j) - 0.5 * ln (noise st ^ 2)) /\
       at1 t j <= sum_n (ncols x) (fun i => at2 (calculate_mi mo) j i)) /\
    (forall i, (i < ncols x)%nat ->
       at1 a i = sum_n (m st) (fun j => at2 (calculate_mi mo) j i)
                 - (0.5 * ln (at1 (X_i2 mo) i) - 0.5 * ln (at1 (X_i2_given_Y mo) i)) /\
       (0 < at1 (X_i2_given_Y mo) i ->
        at1 a i <= sum_n (m st) (fun j => at2 (calculate_mi mo) j i))).
Proof.
  intros Hready Hs Hmax Hn Hnone _ _ _.
  destruct (fit_fresh_model ppf st rnd eig x Hready Hs Hmax Hnone)
    as (x1 & st' & mo & Hfit & Hm & Hcalc & Hsh & Hv & F1 & F2 & F3 & F5 & Hw & Hx1 & _).
  destruct (tcs_entries st' mo Hm Hsh) as (t & Ht & Htl & Htc & Hte).
  destruct (additivity_entries st' mo Hm Hsh) as (a & Ha & Hal & Hae).
  exists st', mo, t, a.
  split; [assumption|]. split; [assumption|]. split; [assumption|].
  split; [congruence|]. split; [assumption|]. split; [congruence|].
  split; [assumption|].
  split. { unfold objective. rewrite Htc, Ha. reflexivity. }
  rewrite <- F1, <- F2, <- F3.
  assert (Hs' : noise st' <> 0) by now rewrite F3.
  assert (Hs2 : 0 < noise st' ^ 2) by (simpl; nra).
  split.
  - intros j Hj. split; [now apply Hte|]. rewrite (Hte j Hj).
    pose proof (second_moment_lower st' x1 (length x) mo j Hx1 Hw Hcalc Hj) as Hy.
    pose proof (ln_le_compat _ _ Hs2 Hy). lra.
  - intros i Hi. split; [now apply Hae|]. intros Hpos. rewrite (Hae i Hi).
    destruct (residual_range st' x1 (length x) mo i Hx1 Hw Hv Hcalc Hi) as ((_ & Hle) & _).
    pose proof (ln_le_compat _ _ Hpos Hle). lra.
Qed.

Lemma fit_statistics_witness :
  exists st' t a,
    fit identity_quantile (fresh_1 0 true) rnd_1 eig_1 data_13 = Ok st' /\
    tcs st' = Ok t /\ additivity st' = Ok a /\
    objective st' = Ok (rsum t - rsum a).
Proof.
  destruct (fit_statistics identity_quantile (fresh_1 0 true) rnd_1 eig_1 data_13)
    as (st' & mo & t & a & H1 & _ & H3 & _ & H5 & _ & _ & H8 & _).
  - apply fit_ready_fresh_1.
  - simpl. lra.
  - simpl. lia.
  - simpl. lia.
  - reflexivity.
  - reflexivity.
  - repeat constructor; simpl; lra.
  - apply positive_variance_data_13.
  - exists st', t, a. auto.
Defined.

(** X21.  [predict] against the training data.  After [fit] on a model not
    fitted before (no gaussianization), let [Y = transform(x)] and
    [rec = predict(Y)].  Then the conditional variance that [fit] stored
    for variable [i] is the mean squared difference between the centered
    data [x_i - mean_i] and [rec_i], plus [sigma^2] times the squared
    length of row [i] of ["X_i Z_j"]. *)
Theorem fit_reconstruction_error ppf st rnd eig x :
  fit_ready st rnd eig x -> noise st <> 0 -> (1 <= max_iter st)%nat ->
  (1 <= length x)%nat -> moments st = None -> gaussianize_marginals st = false ->
  exists st' mo out rec,
    fit ppf st rnd eig x = Ok st' /\ moments st' = Some mo /\
    transform ppf st' x false = Ok out /\
    predict st' (latent out) = Ok rec /\
    shape (length x) (ncols x) rec /\
    forall i, (i < ncols x)%nat ->
      at1 (X_i2_given_Y mo) i
      = sum_n (length x) (fun l =>
          (at2 x l i - at1 (column_means x) i - at2 rec l i)
          * (at2 x l i - at1 (column_means x) i - at2 rec l i)) / INR (length x)
        + noise st ^ 2 * sum_n (m st) (fun r => at2 (X_i_Z_j mo) i r * at2 (X_i_Z_j mo) i r).
Proof.
  intros Hready Hs Hmax Hn Hnone Hg.
  destruct (fit_fresh_model ppf st rnd eig x Hready Hs Hmax Hnone)
    as (x1 & st' & mo & Hfit & Hm & Hcalc & Hsh & Hv & F1 & F2 & F3 & F5 & Hw & Hx1 & Hg0).
  destruct (Hg0 Hg) as (Hmean & Hx1eq).
  assert (Hx : shape (length x) (ncols x) x) by (destruct Hready; assumption).
  assert (Hy : shape (length x) (m st') (latent_values st' x1)).
  { rewrite <- (shape_length _ _ _ Hw), <- (shape_length _ _ _ Hx1) at 1.
    apply latent_values_shape. }
  assert (Hz : shape (nv st') (m st') (X_i_Z_j mo)) by (destruct Hsh as (_ & _ & _ & H & _); exact H).
  destruct (predict_entries st' mo (latent_values st' x1) (length x) Hm Hz Hy Hn)
    as (rec & Hrec & Hrs & Hre).
  exists st', mo. eexists. exists rec.
  split; [assumption|]. split; [assumption|].
  split.
  { unfold transform. rewrite F1, Nat.eqb_refl, F5, Hg, Hmean. cbn [negb bind].
    rewrite <- Hx1eq. reflexivity. }
  cbn [latent]. rewrite <- F1.
  change (dot x1 (transpose (nv st') (ws st')) (length (ws st')))
    with (latent_values st' x1).
  split; [assumption|]. split; [assumption|].
  intros i Hi. rewrite <- F2, <- F3.
  destruct (residual_decomposition st' x1 (length x) mo i Hx1 Hw Hv Hcalc Hi) as (_ & Hres).
  rewrite Hres. f_equal. f_equal. apply sum_n_ext. intros l Hl.
  assert (Hxc : at2 x1 l i = at2 x l i - at1 (column_means x) i).
  { rewrite Hx1eq. apply (at2_center x _ (length x) (ncols x)); try assumption.
    - apply column_means_length.
    - now rewrite <- F1. }
  assert (Hr : sum_n (m st') (fun r => at2 (X_i_Z_j mo) i r * at2 (latent_values st' x1) l r)
               = at2 rec l i).
  { rewrite (Hre l i Hl Hi). apply sum_n_ext. intros r _. lra. }
  now rewrite Hxc, Hr.
Qed.

Lemma fit_reconstruction_error_witness :
  exists st' out rec,
    fit identity_quantile (fresh_1 0 true) rnd_1 eig_1 data_13 = Ok st' /\
    transform identity_quantile st' data_13 false = Ok out /\
    predict st' (latent out) = Ok rec /\
    shape (length data_13) (ncols data_13) rec.
Proof.
  destruct (fit_reconstruction_error identity_quantile (fresh_1 0 true) rnd_1 eig_1 data_13)
    as (st' & mo & out & rec & H1 & _ & H3 & H4 & H5 & _).
  - apply fit_ready_fresh_1.
  - simpl. lra.
  - simpl. lia.
  - simpl. lia.
  - reflexivity.
  - reflexivity.
  - exists st', out, rec. auto.
Defined.

(** X22.  A fitted model cannot be refitted on data with another number of
    variables: once [fit] has broadcast the multipliers to one per
    variable, [self.lam * np.ones(self.nv)] does not broadcast against a
    different width (neither width being 1) and [fit] raises
    [ValueError]. *)
Theorem refit_other_width_raises ppf st rnd eig x v :
  lam st = LamArray v ->
  length v <> ncols x -> length v <> 1%nat -> ncols x <> 1%nat ->
  fit ppf st rnd eig x = Raise ValueError.
Proof.
  intros Hl H1 H2 H3. unfold fit, fit_init.
  cbn [lam nv set_ws set_mean_x set_shape]. 
  assert (E : lam_times_ones (LamArray v) (ncols x) = Raise ValueError).
  { unfold lam_times_ones.
    destruct (Nat.eqb_spec (length v) (ncols x)); [contradiction|].
    destruct (Nat.eqb_spec (length v) 1); [contradiction|].
    destruct (Nat.eqb_spec (ncols x) 1); [contradiction | reflexivity]. }
  destruct (gaussianize_marginals (set_shape st (length x) (ncols x)));
    cbn [lam nv set_ws set_mean_x set_shape]; rewrite Hl, E; reflexivity.
Qed.

Lemma refit_other_width_raises_witness :
  fit identity_quantile fresh_2_fitted_lam rnd_2 eig_2 [[1; 2]; [3; 4]] = Raise ValueError.
Proof.
  apply (refit_other_width_raises identity_quantile fresh_2_fitted_lam rnd_2 eig_2
           [[1; 2]; [3; 4]] [1; 1; 1]).
  - reflexivity.
  - simpl. lia.
  - simpl. lia.
  - simpl. lia.
Defined.

(** ** The weights [fit] starts from, and the latent values it ends with *)

(** The weight matrix [fit] enters the loop with. *)
Lemma fit_init_ws ppf st rnd eig x st1 x1 :
  fit_init ppf st rnd eig x = Ok (st1, x1) ->
  ws st1
  = mat_row Rdiv
      (mmap (fun t => t * noise st ^ 2) (_sym_decorrelation rnd eig (ncols x)))
      (map sqrt (map (fun s => s / INR (length x)) (einsum_li_li_i (ncols x) x1 x1))).
Proof.
  unfold fit_init. intros H.
  destruct (gaussianize_marginals (set_shape st (length x) (ncols x))) eqn:Hg;
    cbn [lam nv ws noise set_ws set_mean_x set_shape] in H;
    destruct (lam_times_ones (lam st) (ncols x)) as [l|e]; cbn [bind] in H;
    try discriminate;
    injection H as E1 E2; rewrite <- E1, <- E2; reflexivity.
Qed.

(** X23.  The initialisation of [fit].  When [eigh] returns an
    eigendecomposition of the Gram matrix of the random draw with positive
    eigenvalues, and every variable of the preprocessed data has positive
    variance, the weights [fit] enters its loop with are the decorrelated
    draw scaled by [sigma^2 / sqrt(var_i)] column by column: they are
    orthogonal in the variance-weighted inner product,
    [sum_i var_i W_{a,i} W_{e,i} = sigma^4] for [a = e] and 0 otherwise. *)
Theorem fit_initial_weights ppf st rnd eig x :
  fit_ready st rnd eig x ->
  eigh_of (m st) (dot rnd (transpose (ncols x) rnd) (m st)) eig ->
  Forall (fun t => 0 < t) (fst eig) ->
  exists st1 x1,
    fit_init ppf st rnd eig x = Ok (st1, x1) /\
    shape (m st) (ncols x) (ws st1) /\
    (Forall (fun v => 0 < v) (variance_of (ncols x) x1) ->
     forall a e, (a < m st)%nat -> (e < m st)%nat ->
       sum_n (ncols x) (fun i =>
         at1 (variance_of (ncols x) x1) i * at2 (ws st1) a i * at2 (ws st1) e i)
       = if Nat.eqb a e then noise st ^ 4 else 0).
Proof.
  intros Hready Heig Hpos.
  destruct (fit_init_ok ppf st rnd eig x Hready)
    as (st1 & x1 & l & Hinit & Hx1 & Hinv & I1 & I2 & _).
  exists st1, x1. split; [assumption|].
  destruct Hinv as (Hw & _). rewrite I1, I2 in Hw. split; [assumption|].
  intros Hvar a e Ha He.
  assert (Hrnd : shape (m st) (ncols x) rnd) by (destruct Hready as (_ & H & _); exact H).
  pose proof (sym_decorrelation_rows rnd eig (m st) (ncols x) Hrnd Heig Hpos) as Horth.
  assert (HR : shape (m st) (ncols x) (_sym_decorrelation rnd eig (ncols x))).
  { destruct Heig as (_ & Hu & _).
    rewrite <- (shape_length _ _ _ Hu) at 1. apply sym_decorrelation_shape. }
  assert (Hlen : length x1 = length x) by exact (shape_length _ _ _ Hx1).
  assert (Hvlen : length (variance_of (ncols x) x1) = ncols x).
  { unfold variance_of, einsum_li_li_i. now rewrite !length_map, length_seq. }
  assert (Hentry : forall b i, (b < m st)%nat -> (i < ncols x)%nat ->
            at2 (ws st1) b i
            = at2 (_sym_decorrelation rnd eig (ncols x)) b i * noise st ^ 2
              / sqrt (at1 (variance_of (ncols x) x1) i)).
  { intros b i Hb Hi. rewrite (fit_init_ws ppf st rnd eig x st1 x1 Hinit).
    rewrite (at2_mat_row Rdiv (m st) (ncols x)); try assumption.
    - rewrite (at2_mmap _ (m st) (ncols x)) by assumption. f_equal.
      unfold variance_of. rewrite Hlen. unfold at1.
      now rewrite (nth_map_in _ _ _ 0)
        by (unfold einsum_li_li_i; now rewrite !length_map, length_seq).
    - now apply mmap_shape.
    - unfold einsum_li_li_i. now rewrite !length_map, length_seq. }
  rewrite (sum_n_ext _ _ (fun i =>
             noise st ^ 4 * (at2 (_sym_decorrelation rnd eig (ncols x)) a i
                             * at2 (_sym_decorrelation rnd eig (ncols x)) e i))).
  - rewrite sum_n_scal, (Horth a e Ha He). destruct (Nat.eqb a e); lra.
  - intros i Hi. rewrite !Hentry by assumption.
    assert (Hv : 0 < at1 (variance_of (ncols x) x1) i).
    { rewrite Forall_forall in Hvar. apply Hvar. unfold at1. apply nth_In. now rewrite Hvlen. }
    set (v := at1 (variance_of (ncols x) x1) i) in *.
    assert (Hsq : 0 < sqrt v) by now apply sqrt_lt_R0.
    rewrite <- (sqrt_sqrt v) at 1 by lra. field. lra.
Qed.

Lemma fit_initial_weights_witness :
  exists st1 x1,
    fit_init identity_quantile fresh_2 rnd_2 eig_2 data_2 = Ok (st1, x1) /\
    shape (m fresh_2) (ncols data_2) (ws st1).
Proof.
  destruct (fit_initial_weights identity_quantile fresh_2 rnd_2 eig_2 data_2)
    as (st1 & x1 & H1 & H2 & _).
  - apply fit_ready_fresh_2.
  - unfold eigh_of, orthonormal_rows, eig_2, rnd_2, fresh_2, data_2. cbn [fst snd m __init__ ncols length].
    split; [reflexivity|].
    split; [split; [reflexivity | repeat constructor]|].
    split; [|split]; intros a b Ha Hb;
      (destruct a as [|[|a]]; [| |lia]); (destruct b as [|[|b]]; [| |lia]);
      unfold sum_n, at1, at2, dot, transpose, col, vdot, map2; simpl; lra.
  - unfold eig_2. cbn [fst]. repeat constructor; lra.
  - exists st1, x1. auto.
Defined.

(** X24.  The latent second moment [fit] stores, against [transform].
    Without gaussianization, the entry ["Y_j^2"] of the stored moments is
    the mean square of column [j] of [transform(x)] on the training data,
    plus [sigma^2]. *)
Theorem fit_latent_second_moment ppf st rnd eig x :
  fit_ready st rnd eig x -> noise st <> 0 -> (1 <= max_iter st)%nat ->
  (1 <= length x)%nat -> gaussianize_marginals st = false ->
  exists st' mo out,
    fit ppf st rnd eig x = Ok st' /\ moments st' = Some mo /\
    transform ppf st' x false = Ok out /\
    forall j, (j < m st)%nat ->
      at1 (Y_j2 mo) j
      = sum_n (length x) (fun l => at2 (latent out) l j * at2 (latent out) l j)
        / INR (length x)
        + noise st ^ 2.
Proof.
  intros Hready Hs Hmax Hn Hg.
  destruct (fit_then_transform ppf st rnd eig x Hready Hs Hmax)
    as (st1 & x1 & st' & mo & Hinit & Hfit & Hm & Hcalc & F1 & F2 & F3 & F4 & F5
        & Hw & Hc & Hx1 & _ & Hg0).
  destruct (Hg0 Hg) as (Hmean & Hx1eq).
  exists st', mo. eexists.
  split; [assumption|]. split; [assumption|].
  split.
  { unfold transform. rewrite F1, Nat.eqb_refl, F5, Hg, Hmean. cbn [negb bind].
    rewrite <- Hx1eq. reflexivity. }
  cbn [latent]. rewrite <- F1.
  change (dot x1 (transpose (nv st') (ws st')) (length (ws st')))
    with (latent_values st' x1).
  intros j Hj. rewrite <- F3. rewrite <- F2 in Hj.
  apply (second_moment_entry st' x1 (length x)); try assumption.
  - now rewrite F1.
  - now rewrite F1, F2.
Qed.

Lemma fit_latent_second_moment_witness :
  exists st' mo out,
    fit identity_quantile (fresh_1 0 true) rnd_1 eig_1 data_13 = Ok st' /\
    moments st' = Some mo /\
    transform identity_quantile st' data_13 false = Ok out /\
    at1 (Y_j2 mo) 0
    = sum_n (length data_13) (fun l => at2 (latent out) l 0 * at2 (latent out) l 0)
      / INR (length data_13)
      + noise (fresh_1 0 true) ^ 2.
Proof.
  destruct (fit_latent_second_moment identity_quantile (fresh_1 0 true) rnd_1 eig_1 data_13)
    as (st' & mo & out & H1 & H2 & H3 & H4).
  - apply fit_ready_fresh_1.
  - simpl. lra.
  - simpl. lia.
  - simpl. lia.
  - reflexivity.
  - exists st', mo, out. split; [exact H1|]. split; [exact H2|]. split; [exact H3|].
    apply H4. simpl. lia.
Defined.

(** ** The moments across [_update_ws], and the last entry of the trace *)

(** The statistics are functions of the stored moments, the noise level and
    the variable count. *)
Lemma statistics_ext st st' :
  moments st' = moments st -> noise st' = noise st -> nv st' = nv st ->
  mis st' = mis st /\ tcs st' = tcs st /\ tc st' = tc st /\
  additivity st' = additivity st /\ objective st' = objective st.
Proof.
  intros Hm Hs Hnv.
  assert (H1 : mis st' = mis st) by (unfold mis, get_moments; now rewrite Hm).
  assert (H2 : tcs st' = tcs st) by (unfold tcs, get_moments; now rewrite Hm, Hs, H1).
  assert (H3 : tc st' = tc st) by (unfold tc; now rewrite H2).
  assert (H4 : additivity st' = additivity st)
    by (unfold additivity, get_moments; now rewrite Hm, Hnv, H1).
  repeat split; try assumption. unfold objective. now rewrite H3, H4.
Qed.

(** X25.  [_update_ws] changes the weights (and, with additivity
    enforcement, the multipliers) and nothing else: the stored moments stay
    those of the weights before the update, so [mis], [tcs], [tc],
    [additivity] and [objective] read right after the update return what
    they returned before it. *)
Theorem update_ws_keeps_statistics st st' :
  _update_ws st = Ok st' ->
  moments st' = moments st /\ tc_history st' = tc_history st /\
  mean_x st' = mean_x st /\ nv st' = nv st /\ m st' = m st /\
  mis st' = mis st /\ tcs st' = tcs st /\ tc st' = tc st /\
  additivity st' = additivity st /\ objective st' = objective st.
Proof.
  intros H.
  destruct (update_ws_frame st st' H)
    as (F1 & F2 & F3 & F4 & F5 & F6 & F7 & F8 & F9 & F10 & F11 & F12).
  destruct (statistics_ext st st' F7 F3 F2) as (S1 & S2 & S3 & S4 & S5).
  repeat split; assumption.
Qed.

Lemma update_ws_keeps_statistics_witness :
  tcs (set_ws (fitted_1 0 true) [[1]]) = tcs (fitted_1 0 true) /\
  moments (set_ws (fitted_1 0 true) [[1]]) = moments (fitted_1 0 true).
Proof.
  destruct (update_ws_keeps_statistics (fitted_1 0 true) (set_ws (fitted_1 0 true) [[1]]))
    as (H1 & _ & _ & _ & _ & _ & H7 & _).
  - apply (update_ws_1 (fitted_1 0 true) 0); reflexivity.
  - split; assumption.
Defined.

(** After a run of the loop that made at least one pass, the last entry of
    the trace is the total correlation at the stored moments. *)
Lemma for_loop_last_entry x : forall todo bound st st' bound' b,
  todo <> [] ->
  for_loop todo bound x st = Ok (st', bound', b) ->
  tc st' = Ok (last (tc_history st') 0).
Proof.
  induction todo as [|i rest IH]; intros bound st st' bound' b Hne H; [contradiction|].
  cbn [for_loop] in H.
  destruct (_calculate_moments st x) as [mo|e]; [|discriminate]. cbn [bind] in H.
  destruct (tc (set_moments st mo)) as [t|e] eqn:Ht; [|discriminate]. cbn [bind] in H.
  destruct (_update_ws _) as [st3|e] eqn:Hup; [|discriminate]. cbn [bind] in H.
  destruct (update_ws_frame _ _ Hup)
    as (F1 & F2 & F3 & F4 & F5 & F6 & F7 & F8 & F9 & F10 & F11 & F12).
  assert (Hlast : tc st3 = Ok (last (tc_history st3) 0)).
  { destruct (statistics_ext _ st3 F7 F3 F2) as (_ & _ & S3 & _).
    rewrite S3, F9. cbn [tc_history set_tc_history set_moments].
    rewrite last_last.
    destruct (statistics_ext (set_moments st mo)
                (set_tc_history (set_moments st mo) (tc_history st ++ [t]))
                eq_refl eq_refl eq_refl) as (_ & _ & S3' & _).
    now rewrite S3'. }
  destruct (last_delta (tc_history st3)) as [d|e]; [|discriminate]. cbn [bind] in H.
  destruct (Rlt_dec (Rabs d) (tol st3)).
  - injection H as E1 E2 E3. now subst st'.
  - destruct rest as [|i' rest'].
    + cbn [for_loop] in H. injection H as E1 E2 E3. now subst st'.
    + apply (IH (Some i) st3 st' bound' b); [discriminate | assumption].
Qed.

(** X26.  The last entry of [tc_history] after [fit] is the total
    correlation as read at the end of the loop, from the moments of the
    last pass: it is the sum of the per-factor values [fit] orders the
    factors by, computed for the weights before the last update and before
    the reordering. *)
Theorem fit_trace_last_entry ppf st rnd eig x :
  fit_ready st rnd eig x -> noise st <> 0 -> (1 <= max_iter st)%nat ->
  exists st1 x1 stL (new : list R) b t st',
    fit_init ppf st rnd eig x = Ok (st1, x1) /\
    for_loop (seq 0 (max_iter st)) None x1 st1 = Ok (stL, Some (length new - 1)%nat, b) /\
    fit ppf st rnd eig x = Ok st' /\
    tcs stL = Ok t /\
    tc_history st' = tc_history stL /\
    last (tc_history st') 0 = rsum t.
Proof.
  intros Hready Hs Hmax.
  destruct (fit_run ppf st rnd eig x Hready Hs Hmax)
    as (st1 & x1 & stL & b & new & moL & t & mo' & Hinit & Hrun & Hout & Hnew & HinvL
        & Hcfg & HmL & HshL & HvarL & Hoff & Hon & Ht & Hperm & Hmo' & Hsh' & Hvar' & Hfit).
  exists st1, x1, stL, new, b, t. eexists.
  split; [assumption|]. split; [assumption|]. split; [exact Hfit|].
  split; [assumption|].
  cbn [tc_history set_n_loops set_moments set_ws].
  split; [reflexivity|].
  assert (Hne : seq 0 (max_iter st) <> []) by (destruct (max_iter st); [lia | discriminate]).
  pose proof (for_loop_last_entry x1 _ _ _ _ _ _ Hne Hrun) as Hlast.
  unfold tc in Hlast. rewrite Ht in Hlast. cbn [bind] in Hlast.
  now injection Hlast as <-.
Qed.

Lemma fit_trace_last_entry_witness :
  exists stL t st',
    fit identity_quantile (fresh_1 0 true) rnd_1 eig_1 data_13 = Ok st' /\
    tcs stL = Ok t /\
    last (tc_history st') 0 = rsum t.
Proof.
  destruct (fit_trace_last_entry identity_quantile (fresh_1 0 true) rnd_1 eig_1 data_13)
    as (st1 & x1 & stL & new & b & t & st' & _ & _ & H3 & H4 & _ & H6).
  - apply fit_ready_fresh_1.
  - simpl. lra.
  - simpl. lia.
  - exists stL, t, st'. auto.
Defined.
